(** * CameraMeasureApp: measurement model, calibration, edge filter, CSV export

    A shallow embedding of [src/CameraMeasureApp.tsx].

    - JavaScript numbers are modelled twice.  [number] is the reals
      extended by [NaN], [+Infinity] and [-Infinity]: the special values
      follow IEEE 754 / ECMAScript ([0/0 = NaN], [Math.min(1, NaN) = NaN],
      ...), finite arithmetic is exact (rounding to binary64 and the sign
      of zero are not modelled); the properties of the state machine, of
      the exports and of the frame of the edge filter are stated on it.
      The module [B64] has the functions whose results depend on rounding
      once more, on the binary64 numbers of the machine ([PrimFloat]); the
      calibration round trip, the angle at a vertex and the values of the
      edge filter are stated on it.
    - React state is an explicit record [State]; every handler is a function
      from state to state.  Calls to [alert] are logged in the state.
    - The environment of a click (pointer position, bounding rectangle of the
      overlay, answer typed in [prompt], value of [crypto.randomUUID]) is an
      explicit argument of the handler.
    - [ImageData] is a record with a flat byte array, as in the Canvas API. *)

From Stdlib Require Import Reals Lra Lia ZArith String Ascii List Bool.
From stdpp Require Import base list.
From Stdlib Require Floats.

(* ================================================================== *)
(** ** Numbers *)
(* ================================================================== *)

Inductive number : Type :=
| NaN
| PInf
| NInf
| Fin (r : R).

Definition Rltb (a b : R) : bool := if Rlt_dec a b then true else false.
Definition Reqb (a b : R) : bool := if Req_dec_T a b then true else false.

(** The number written by an integer literal, and by a decimal literal
    [m / 10^k] such as [0.299]. *)
Definition ofZ (z : Z) : number := Fin (IZR z).
Definition ofDec (m : Z) (k : nat) : number := Fin (IZR m / IZR (10 ^ Z.of_nat k)).

Definition isNaN (v : number) : bool :=
  match v with NaN => true | _ => false end.

(** [ToBoolean] of a number: [NaN] and zero are falsy. *)
Definition truthy (v : number) : bool :=
  match v with
  | NaN => false
  | Fin r => negb (Reqb r 0)
  | _ => true
  end.

Definition nneg (v : number) : number :=
  match v with
  | NaN => NaN
  | PInf => NInf
  | NInf => PInf
  | Fin r => Fin (- r)
  end.

Definition nadd (a b : number) : number :=
  match a, b with
  | NaN, _ | _, NaN => NaN
  | PInf, NInf | NInf, PInf => NaN
  | PInf, _ | _, PInf => PInf
  | NInf, _ | _, NInf => NInf
  | Fin u, Fin v => Fin (u + v)
  end.

Definition nsub (a b : number) : number := nadd a (nneg b).

(** An infinity of the sign of [pos], times or divided by the finite [r]. *)
Definition inf_signed (pos : bool) : number := if pos then PInf else NInf.

Definition nmul (a b : number) : number :=
  match a, b with
  | NaN, _ | _, NaN => NaN
  | PInf, PInf | NInf, NInf => PInf
  | PInf, NInf | NInf, PInf => NInf
  | PInf, Fin r | Fin r, PInf =>
      if Reqb r 0 then NaN else inf_signed (Rltb 0 r)
  | NInf, Fin r | Fin r, NInf =>
      if Reqb r 0 then NaN else inf_signed (Rltb r 0)
  | Fin u, Fin v => Fin (u * v)
  end.

Definition ndiv (a b : number) : number :=
  match a, b with
  | NaN, _ | _, NaN => NaN
  | (PInf | NInf), (PInf | NInf) => NaN
  | PInf, Fin r => inf_signed (negb (Rltb r 0))
  | NInf, Fin r => inf_signed (Rltb r 0)
  | Fin _, (PInf | NInf) => Fin 0
  | Fin u, Fin v =>
      if Reqb v 0
      then (if Reqb u 0 then NaN else inf_signed (Rltb 0 u))
      else Fin (u / v)
  end.

(** [a > b] and [a < b]; any comparison with [NaN] is false. *)
Definition nlt (a b : number) : bool :=
  match a, b with
  | NaN, _ | _, NaN => false
  | _, NInf => false
  | PInf, _ => false
  | NInf, _ => true
  | _, PInf => true
  | Fin u, Fin v => Rltb u v
  end.

Definition ngt (a b : number) : bool := nlt b a.

Definition Math_min (a b : number) : number :=
  match a, b with
  | NaN, _ | _, NaN => NaN
  | NInf, _ | _, NInf => NInf
  | PInf, v | v, PInf => v
  | Fin u, Fin v => Fin (Rmin u v)
  end.

Definition Math_max (a b : number) : number :=
  match a, b with
  | NaN, _ | _, NaN => NaN
  | PInf, _ | _, PInf => PInf
  | NInf, v | v, NInf => v
  | Fin u, Fin v => Fin (Rmax u v)
  end.

Definition Math_sqrt (v : number) : number :=
  match v with
  | NaN | NInf => NaN
  | PInf => PInf
  | Fin r => if Rltb r 0 then NaN else Fin (sqrt r)
  end.

(** [Math.hypot]: an infinite argument wins over [NaN]. *)
Definition Math_hypot (a b : number) : number :=
  match a, b with
  | (PInf | NInf), _ | _, (PInf | NInf) => PInf
  | NaN, _ | _, NaN => NaN
  | Fin u, Fin v => Fin (sqrt (u * u + v * v))
  end.

Definition Math_acos (v : number) : number :=
  match v with
  | Fin r => if Rltb r (-1) || Rltb 1 r then NaN else Fin (acos r)
  | _ => NaN
  end.

Definition Math_PI : number := Fin PI.

Declare Scope num_scope.
Delimit Scope num_scope with num.
Bind Scope num_scope with number.
Infix "+" := nadd : num_scope.
Infix "-" := nsub : num_scope.
Infix "*" := nmul : num_scope.
Infix "/" := ndiv : num_scope.

(* ================================================================== *)
(** ** Geometric data model *)
(* ================================================================== *)

Record Pt : Type := mkPt { pt_x : number; pt_y : number }.

Record Segment : Type := mkSegment {
  seg_a : Pt; seg_b : Pt; seg_id : string; seg_label : option string }.

Record Angle : Type := mkAngle {
  ang_a : Pt; ang_b : Pt; ang_c : Pt; ang_id : string; ang_label : option string }.

Inductive Mode : Type := select | measure | calibrate | angle.

(** The unit [in] is spelled [inch]: [in] is a keyword here. *)
Inductive LenUnit : Type := mm | cm | inch.

Definition unit_name (u : LenUnit) : string :=
  match u with mm => "mm" | cm => "cm" | inch => "in" end.

(** Geometric utilities (lines 463-472). *)
Definition dist (a b : Pt) : number :=
  Math_hypot (pt_x a - pt_x b)%num (pt_y a - pt_y b)%num.

Definition angleAtVertex (a b c : Pt) : number :=
  let abx := (pt_x a - pt_x b)%num in
  let aby := (pt_y a - pt_y b)%num in
  let cbx := (pt_x c - pt_x b)%num in
  let cby := (pt_y c - pt_y b)%num in
  let dot := (abx * cbx + aby * cby)%num in
  let la := Math_hypot abx aby in
  let lb := Math_hypot cbx cby in
  let cos := Math_max (ofZ (-1)) (Math_min (ofZ 1) (dot / (la * lb))%num) in
  ((Math_acos cos * ofZ 180) / Math_PI)%num.

(* ================================================================== *)
(** ** [parseFloat] *)
(* ================================================================== *)

(** The scanner is executable: it returns the longest prefix of the
    trimmed input that is a [StrDecimalLiteral], as sign, decimal mantissa
    and power of ten.  (Only the ASCII white space characters are trimmed.) *)

Inductive StrLiteral : Type :=
| LitNaN
| LitInfinity (neg : bool)
| LitDecimal (neg : bool) (mant : Z) (exp10 : Z).

Definition isWhiteSpace (c : ascii) : bool :=
  let n := nat_of_ascii c in
  ((9 <=? n) && (n <=? 13) || (n =? 32))%nat.

Fixpoint trimStart (s : string) : string :=
  match s with
  | String c r => if isWhiteSpace c then trimStart r else s
  | EmptyString => s
  end.

Definition digitOf (c : ascii) : option Z :=
  let n := nat_of_ascii c in
  if ((48 <=? n) && (n <=? 57))%nat then Some (Z.of_nat (n - 48)) else None.

(** Reads decimal digits: the value accumulated on [acc], the number of
    digits read, and the rest of the input. *)
Fixpoint scanDigits (s : string) (acc : Z) (cnt : nat) : Z * nat * string :=
  match s with
  | String c r =>
      match digitOf c with
      | Some d => scanDigits r (10 * acc + d)%Z (S cnt)
      | None => (acc, cnt, s)
      end
  | EmptyString => (acc, cnt, s)
  end.

Definition scanSign (s : string) : bool * string :=
  match s with
  | String "-"%char r => (true, r)
  | String "+"%char r => (false, r)
  | _ => (false, s)
  end.

Definition scanExponent (s : string) : Z :=
  match s with
  | String c r =>
      if (Ascii.eqb c "e" || Ascii.eqb c "E")%bool then
        let '(eneg, r1) := scanSign r in
        let '(ev, n, _) := scanDigits r1 0%Z 0%nat in
        if (n =? 0)%nat then 0%Z else if eneg then (- ev)%Z else ev
      else 0%Z
  | EmptyString => 0%Z
  end.

Definition scanFloat (s : string) : StrLiteral :=
  let '(neg, s1) := scanSign (trimStart s) in
  if String.prefix "Infinity" s1 then LitInfinity neg
  else
    let '(ip, ni, s2) := scanDigits s1 0%Z 0%nat in
    let '(m, nf, s3) :=
      match s2 with
      | String "."%char r => scanDigits r ip 0%nat
      | _ => (ip, 0%nat, s2)
      end in
    if (ni + nf =? 0)%nat then LitNaN
    else LitDecimal neg m (scanExponent s3 - Z.of_nat nf)%Z.

Definition pow10 (e : Z) : R :=
  if (0 <=? e)%Z then IZR (10 ^ e) else (/ IZR (10 ^ (- e)))%R.

Definition numberOfLiteral (l : StrLiteral) : number :=
  match l with
  | LitNaN => NaN
  | LitInfinity neg => if neg then NInf else PInf
  | LitDecimal neg m e =>
      Fin ((if neg then - IZR m else IZR m) * pow10 e)%R
  end.

Definition parseFloat (s : string) : number := numberOfLiteral (scanFloat s).

(* ================================================================== *)
(** ** Application state *)
(* ================================================================== *)

Record State : Type := mkState {
  isFrozen : bool;
  mirror : bool;
  showGrid : bool;
  showEdges : bool;
  mode : Mode;
  tempPts : list Pt;
  segments : list Segment;
  angles : list Angle;
  unit_ : LenUnit;
  unitPerPx : option number;
  (** messages shown by [alert], oldest first *)
  alerts : list string
}.

Definition initialState : State :=
  {| isFrozen := false; mirror := false; showGrid := true; showEdges := false;
     mode := measure; tempPts := []; segments := []; angles := [];
     unit_ := mm; unitPerPx := None; alerts := [] |}.

Definition setIsFrozen (v : bool) (st : State) : State :=
  mkState v (mirror st) (showGrid st) (showEdges st) (mode st) (tempPts st)
          (segments st) (angles st) (unit_ st) (unitPerPx st) (alerts st).
Definition setMode (v : Mode) (st : State) : State :=
  mkState (isFrozen st) (mirror st) (showGrid st) (showEdges st) v (tempPts st)
          (segments st) (angles st) (unit_ st) (unitPerPx st) (alerts st).
Definition setTempPts (v : list Pt) (st : State) : State :=
  mkState (isFrozen st) (mirror st) (showGrid st) (showEdges st) (mode st) v
          (segments st) (angles st) (unit_ st) (unitPerPx st) (alerts st).
Definition setSegments (v : list Segment) (st : State) : State :=
  mkState (isFrozen st) (mirror st) (showGrid st) (showEdges st) (mode st)
          (tempPts st) v (angles st) (unit_ st) (unitPerPx st) (alerts st).
Definition setAngles (v : list Angle) (st : State) : State :=
  mkState (isFrozen st) (mirror st) (showGrid st) (showEdges st) (mode st)
          (tempPts st) (segments st) v (unit_ st) (unitPerPx st) (alerts st).
Definition setUnit (v : LenUnit) (st : State) : State :=
  mkState (isFrozen st) (mirror st) (showGrid st) (showEdges st) (mode st)
          (tempPts st) (segments st) (angles st) v (unitPerPx st) (alerts st).
Definition setUnitPerPx (v : option number) (st : State) : State :=
  mkState (isFrozen st) (mirror st) (showGrid st) (showEdges st) (mode st)
          (tempPts st) (segments st) (angles st) (unit_ st) v (alerts st).
Definition alert (msg : string) (st : State) : State :=
  mkState (isFrozen st) (mirror st) (showGrid st) (showEdges st) (mode st)
          (tempPts st) (segments st) (angles st) (unit_ st) (unitPerPx st)
          (alerts st ++ [msg]).

(** [pxToUnit] (lines 47-50): [!unitPerPx] holds for [null], zero and
    [NaN]. *)
Definition pxToUnit (st : State) (px : number) : option number :=
  match unitPerPx st with
  | Some u => if truthy u then Some (px * u)%num else None
  | None => None
  end.

(** [freeze] and [resume] (lines 265-272).  Before it sets the flag,
    [freeze] snapshots the video into the base canvas and, when [showEdges]
    is set, applies the edge filter to it; the canvas is not part of this
    state, and [freeze] is the state update of a completed snapshot. *)
Definition freeze (st : State) : State := setIsFrozen true st.
Definition resume (st : State) : State := setIsFrozen false st.

(** What a click brings from outside the component. *)
Record ClickEnv : Type := mkClickEnv {
  clientX : number;
  clientY : number;
  rect_left : number;
  rect_top : number;
  rect_width : number;
  rect_height : number;
  o_width : Z;
  o_height : Z;
  (** the string returned by [prompt]; [None] when it is dismissed *)
  promptAnswer : option string;
  randomUUID : string
}.

(** The clicked position in the coordinates of the overlay canvas. *)
Definition overlayPoint (e : ClickEnv) : Pt :=
  {| pt_x := (((clientX e - rect_left e) / rect_width e) * ofZ (o_width e))%num;
     pt_y := (((clientY e - rect_top e) / rect_height e) * ofZ (o_height e))%num |}.

Definition invalidValue : string := "Valor inválido".

(** [handleOverlayClick] (lines 275-325).  The test [pts.length === n]
    followed by [pts[0]], ..., [pts[n-1]] is written as a match on a list of
    exactly [n] points; [if (input)] is false for [null] and for the empty
    string.  The redraw scheduled at the end does not act on the state. *)
Definition handleOverlayClick (st : State) (e : ClickEnv) : State :=
  let p := overlayPoint e in
  match mode st with
  | measure =>
      let pts := tempPts st ++ [p] in
      match pts with
      | [p0; p1] =>
          let seg := mkSegment p0 p1 (randomUUID e) None in
          setTempPts [] (setSegments (segments st ++ [seg]) st)
      | _ => setTempPts pts st
      end
  | calibrate =>
      let pts := tempPts st ++ [p] in
      match pts with
      | [p0; p1] =>
          let dx := (pt_x p1 - pt_x p0)%num in
          let dy := (pt_y p1 - pt_y p0)%num in
          let pix := Math_sqrt (dx * dx + dy * dy)%num in
          let st1 :=
            match promptAnswer e with
            | None | Some EmptyString => st
            | Some input =>
                let val := parseFloat input in
                if negb (isNaN val) && ngt val (ofZ 0)
                then setUnitPerPx (Some (val / pix)%num) st
                else alert invalidValue st
            end in
          setTempPts [] st1
      | _ => setTempPts pts st
      end
  | angle =>
      let pts := tempPts st ++ [p] in
      match pts with
      | [p0; p1; p2] =>
          let ang := mkAngle p0 p1 p2 (randomUUID e) None in
          setTempPts [] (setAngles (angles st ++ [ang]) st)
      | _ => setTempPts pts st
      end
  | select => st
  end.

(** The handler of [Limpar medições] (line 544) and [clearAll]
    (lines 333-339). *)
Definition clearMeasurements (st : State) : State :=
  setTempPts [] (setAngles [] (setSegments [] st)).

Definition clearAll (st : State) : State :=
  setUnitPerPx None (setTempPts [] (setAngles [] (setSegments [] st))).

(** The mode buttons (lines 475-486). *)
Definition startCalibrate (st : State) : State := setTempPts [] (setMode calibrate st).
Definition startMeasure (st : State) : State := setTempPts [] (setMode measure st).
Definition startAngle (st : State) : State := setTempPts [] (setMode angle st).

(** The scale input field (line 559): the empty string clears the scale. *)
Definition onScaleInput (value : string) (st : State) : State :=
  setUnitPerPx (match value with
                | EmptyString => None
                | _ => Some (parseFloat value)
                end) st.

(** The commands of the user interface that act on the measurement state. *)
Inductive Command : Type :=
| Click (e : ClickEnv)
| Freeze
| Resume
| StartMeasure
| StartAngle
| StartCalibrate
| ClearMeasurements
| ResetAll
| SelectUnit (u : LenUnit)
| ScaleInput (value : string).

Definition step (st : State) (c : Command) : State :=
  match c with
  | Click e => handleOverlayClick st e
  | Freeze => freeze st
  | Resume => resume st
  | StartMeasure => startMeasure st
  | StartAngle => startAngle st
  | StartCalibrate => startCalibrate st
  | ClearMeasurements => clearMeasurements st
  | ResetAll => clearAll st
  | SelectUnit u => setUnit u st
  | ScaleInput v => onScaleInput v st
  end.

Definition run (st : State) (cs : list Command) : State := fold_left step cs st.

(* ================================================================== *)
(** ** Exports *)
(* ================================================================== *)

(** The measurement part of the payload of [downloadJSON] (lines 362-378);
    [width], [height] and [timestamp] come from the environment. *)
Record JsonSegment : Type := mkJsonSegment {
  js_a : Pt; js_b : Pt; length_px : number; length_unit : option number }.

Record JsonAngle : Type := mkJsonAngle {
  ja_a : Pt; ja_b : Pt; ja_c : Pt; angle_deg : number }.

Record JsonPayload : Type := mkJsonPayload {
  json_unit : LenUnit;
  json_unitPerPx : option number;
  json_segments : list JsonSegment;
  json_angles : list JsonAngle }.

(** [unitPerPx ? v : w] *)
Definition scaleSet (st : State) : bool :=
  match unitPerPx st with Some u => truthy u | None => false end.

Definition scaleValue (st : State) : number :=
  match unitPerPx st with Some u => u | None => NaN end.

Definition jsonPayload (st : State) : JsonPayload :=
  {| json_unit := unit_ st;
     json_unitPerPx := unitPerPx st;
     json_segments :=
       map (fun s =>
              mkJsonSegment (seg_a s) (seg_b s) (dist (seg_a s) (seg_b s))
                (if scaleSet st
                 then Some (dist (seg_a s) (seg_b s) * scaleValue st)%num
                 else None))
           (segments st);
     json_angles :=
       map (fun a =>
              mkJsonAngle (ang_a a) (ang_b a) (ang_c a)
                (angleAtVertex (ang_a a) (ang_b a) (ang_c a)))
           (angles st) |}.

Definition LF : string := String (ascii_of_nat 10) EmptyString.

(** [Array.prototype.join] on an array of strings. *)
Definition join (sep : string) (cells : list string) : string :=
  String.concat sep cells.

(** [downloadCSV] (lines 388-405). *)
Section CSV.
(** [Number.prototype.toFixed] is a built-in of the host: it is a
    parameter of the export. *)
Variable toFixed : number -> nat -> string.

Definition segmentHeader : list string :=
  ["type"; "x1"; "y1"; "x2"; "y2"; "length_px"; "length_unit"; "unit"]%string.

Definition angleHeader : list string :=
  ["type"; "ax"; "ay"; "bx"; "by"; "cx"; "cy"; "angle_deg"; "-"]%string.

Definition segmentRow (st : State) (s : Segment) : list string :=
  [ "segment"%string;
    toFixed (pt_x (seg_a s)) 2; toFixed (pt_y (seg_a s)) 2;
    toFixed (pt_x (seg_b s)) 2; toFixed (pt_y (seg_b s)) 2;
    toFixed (dist (seg_a s) (seg_b s)) 3;
    (if scaleSet st
     then toFixed (dist (seg_a s) (seg_b s) * scaleValue st)%num 3
     else EmptyString);
    unit_name (unit_ st) ].

Definition angleRow (a : Angle) : list string :=
  [ "angle"%string;
    toFixed (pt_x (ang_a a)) 2; toFixed (pt_y (ang_a a)) 2;
    toFixed (pt_x (ang_b a)) 2; toFixed (pt_y (ang_b a)) 2;
    toFixed (pt_x (ang_c a)) 2; toFixed (pt_y (ang_c a)) 2;
    toFixed (angleAtVertex (ang_a a) (ang_b a) (ang_c a)) 2;
    "-"%string ].

Definition csvRows (st : State) : list (list string) :=
  [segmentHeader] ++ map (segmentRow st) (segments st)
  ++ [angleHeader] ++ map angleRow (angles st).

(** The text handed to the [Blob]. *)
Definition downloadCSV (st : State) : string :=
  join LF (map (join ","%string) (csvRows st)).
End CSV.

(** The lines of a text: the pieces between line feeds. *)
Fixpoint linesFrom (cur : string) (s : string) : list string :=
  match s with
  | EmptyString => [cur]
  | String c r =>
      if Ascii.eqb c (ascii_of_nat 10)
      then cur :: linesFrom EmptyString r
      else linesFrom (cur ++ String c EmptyString)%string r
  end.

Definition lines (s : string) : list string := linesFrom EmptyString s.

Fixpoint hasLF (s : string) : bool :=
  match s with
  | EmptyString => false
  | String c r => Ascii.eqb c (ascii_of_nat 10) || hasLF r
  end.

Definition isHeaderLine (l : string) : bool := String.prefix "type," l.

(* ================================================================== *)
(** ** Edge filter *)
(* ================================================================== *)

(** The bitmap of a canvas and an [ImageData]: [4 * width * height] bytes,
    row by row, four channels per pixel. *)
Record ImageData : Type := mkImageData {
  img_width : Z;
  img_height : Z;
  img_data : list Z
}.

Definition wfImage (img : ImageData) : Prop :=
  (0 <= img_width img)%Z /\ (0 <= img_height img)%Z /\
  length (img_data img) = Z.to_nat (4 * img_width img * img_height img).

(** Reading [a[i]]: [undefined] outside the array, which arithmetic turns
    into [NaN]. *)
Definition elemAt (a : list Z) (i : Z) : number :=
  if (i <? 0)%Z then NaN
  else match a !! Z.to_nat i with
       | Some v => ofZ v
       | None => NaN
       end.

(** Conversion of a number stored into a [Uint8ClampedArray]. *)
Definition toUint8Clamp (v : number) : Z :=
  match v with
  | NaN | NInf => 0%Z
  | PInf => 255%Z
  | Fin r =>
      if Rltb r 0 then 0%Z
      else if Rltb 255 r then 255%Z
      else
        let f := Int_part r in
        if Rltb r (IZR f + 1 / 2) then f
        else if Rltb (IZR f + 1 / 2) r then (f + 1)%Z
        else if Z.even f then f else (f + 1)%Z
  end.

(** Writing [d[i] = v] on a [Uint8ClampedArray]: nothing happens outside
    the array. *)
Definition dataSet (d : list Z) (i : Z) (v : number) : list Z :=
  if (i <? 0)%Z then d else <[Z.to_nat i := toUint8Clamp v]> d.

(** [for (let i = lo; i < hi; i++) body] as a state transformer. *)
Definition forRange {T : Type} (lo hi : Z) (body : Z -> T -> T) (s : T) : T :=
  fold_left (fun acc i => body i acc) (seqZ lo (hi - lo)) s.

Definition gx : list Z := [-1; 0; 1; -2; 0; 2; -1; 0; 1]%Z.
Definition gy : list Z := [-1; -2; -1; 0; 0; 0; 1; 2; 1]%Z.

Definition idx (width x y c : Z) : Z := ((y * width + x) * 4 + c)%Z.

(** [applyEdgeFilter] (lines 416-460).  The body of the two inner loops,
    on the state [(sx, sy, k)]. *)
Definition sobelTap (img : ImageData) (x y j i : Z)
    (acc : number * number * Z) : number * number * Z :=
  let '(sx, sy, k) := acc in
  let width := img_width img in
  let r := elemAt (img_data img) (idx width (x + i) (y + j) 0) in
  let g := elemAt (img_data img) (idx width (x + i) (y + j) 1) in
  let b := elemAt (img_data img) (idx width (x + i) (y + j) 2) in
  let gray := (ofDec 299 3 * r + ofDec 587 3 * g + ofDec 114 3 * b)%num in
  ((sx + gray * elemAt gx k)%num, (sy + gray * elemAt gy k)%num, (k + 1)%Z).

Definition sobelSums (img : ImageData) (x y : Z) : number * number * Z :=
  forRange (-1) 2
    (fun j => forRange (-1) 2 (fun i => sobelTap img x y j i))
    (ofZ 0, ofZ 0, 0%Z).

(** The value [v] computed for the pixel [(x, y)]. *)
Definition sobelValue (img : ImageData) (x y : Z) : number :=
  let '(sx, sy, _) := sobelSums img x y in
  let mag := Math_sqrt (sx * sx + sy * sy)%num in
  Math_max (ofZ 0) (Math_min (ofZ 255) mag).

(** The body of the two outer loops, on the state [out.data]. *)
Definition sobelPixel (img : ImageData) (x y : Z) (out : list Z) : list Z :=
  let width := img_width img in
  let v := sobelValue img x y in
  let out := dataSet out (idx width x y 0) v in
  let out := dataSet out (idx width x y 1) v in
  let out := dataSet out (idx width x y 2) v in
  dataSet out (idx width x y 3) (ofZ 255).

(** [getImageData] and [createImageData] throw on an empty rectangle: the
    filter then returns [None].  [putImageData (out, 0, 0)] replaces the
    whole bitmap of the canvas by [out]. *)
Definition createImageData (width height : Z) : option ImageData :=
  if ((width =? 0) || (height =? 0))%Z then None
  else Some (mkImageData width height
               (replicate (Z.to_nat (4 * width * height)) 0%Z)).

Definition applyEdgeFilter (canvas : ImageData) : option ImageData :=
  let width := img_width canvas in
  let height := img_height canvas in
  match createImageData width height with
  | None => None
  | Some out =>
      let img := canvas in
      let data :=
        forRange 1 (height - 1)
          (fun y => forRange 1 (width - 1) (fun x => sobelPixel img x y))
          (img_data out) in
      Some (mkImageData width height data)
  end.

(** *** The reference computation of the specification *)

(** Written from the words of the specification, on real numbers: the
    luminance of a pixel, the 3x3 Sobel kernels as matrices, the sliding
    window sum, the gradient magnitude and its clamp. *)
Definition channel (img : ImageData) (x y c : Z) : R :=
  IZR (nth (Z.to_nat (idx (img_width img) x y c)) (img_data img) 0%Z).

Definition luminance (img : ImageData) (x y : Z) : R :=
  (299 / 1000 * channel img x y 0 + 587 / 1000 * channel img x y 1
   + 114 / 1000 * channel img x y 2)%R.

Definition Gx : list (list Z) := [[-1; 0; 1]; [-2; 0; 2]; [-1; 0; 1]]%Z.
Definition Gy : list (list Z) := [[-1; -2; -1]; [0; 0; 0]; [1; 2; 1]]%Z.

Definition kernelAt (K : list (list Z)) (row col : Z) : R :=
  IZR (nth (Z.to_nat col) (nth (Z.to_nat row) K []) 0%Z).

Definition sumR (l : list R) : R := fold_right Rplus 0%R l.

Definition convolve3 (K : list (list Z)) (img : ImageData) (x y : Z) : R :=
  sumR (map (fun j =>
          sumR (map (fun i =>
                  (kernelAt K (j + 1) (i + 1) * luminance img (x + i) (y + j))%R)
                [-1; 0; 1]%Z))
        [-1; 0; 1]%Z).

(** The same sum with the kernel rotated by half a turn (the convolution
    in the strict sense). *)
Definition convolve3_flipped (K : list (list Z)) (img : ImageData) (x y : Z) : R :=
  sumR (map (fun j =>
          sumR (map (fun i =>
                  (kernelAt K (1 - j) (1 - i) * luminance img (x + i) (y + j))%R)
                [-1; 0; 1]%Z))
        [-1; 0; 1]%Z).

Definition clampR (lo hi v : R) : R := Rmax lo (Rmin hi v).

Definition edgeMagnitude (img : ImageData) (x y : Z) : R :=
  let sx := convolve3 Gx img x y in
  let sy := convolve3 Gy img x y in
  clampR 0 255 (sqrt (sx * sx + sy * sy)).

(** The four channels the specification gives to an interior pixel. *)
Definition referencePixel (img : ImageData) (x y : Z) : list Z :=
  let m := toUint8Clamp (Fin (edgeMagnitude img x y)) in
  [m; m; m; 255%Z].

(** The four channels of the pixel [(x, y)] of a bitmap. *)
Definition pixelAt (img : ImageData) (x y : Z) : list (option Z) :=
  map (fun c => img_data img !! Z.to_nat (idx (img_width img) x y c))
      [0; 1; 2; 3]%Z.


Definition isInterior (img : ImageData) (x y : Z) : Prop :=
  (1 <= x <= img_width img - 2)%Z /\ (1 <= y <= img_height img - 2)%Z.

(* ================================================================== *)
(** ** Concrete clicks used in the scenarios *)
(* ================================================================== *)

(** A click at the integer position [(X, Y)] of a 512 x 512 overlay shown
    at its native size at the origin of the viewport. *)
Definition clickAt (X Y : Z) (answer : option string) (id : string) : ClickEnv :=
  {| clientX := ofZ X; clientY := ofZ Y;
     rect_left := ofZ 0; rect_top := ofZ 0;
     rect_width := ofZ 512; rect_height := ofZ 512;
     o_width := 512; o_height := 512;
     promptAnswer := answer; randomUUID := id |}.

Definition ptZ (X Y : Z) : Pt := mkPt (ofZ X) (ofZ Y).

(** The states the scenarios go through: after [Calibrar] and a first
    click at [(0, 0)], and after the reference [(0,0)-(0,100)] was given
    the length 50. *)
Definition calibrating : State :=
  setTempPts [ptZ 0 0] (startCalibrate initialState).

Definition calibrated50 : State :=
  handleOverlayClick calibrating (clickAt 0 100 (Some "50"%string) "b").

(** A 3 x 3 frame, white and opaque. *)
Definition whiteFrame : ImageData := mkImageData 3 3 (replicate 36 255%Z).

(** A 3 x 3 opaque frame, black but for a grey right column. *)
Definition stepFrame : ImageData :=
  mkImageData 3 3
    [ 0; 0; 0; 255;   0; 0; 0; 255;   10; 10; 10; 255;
      0; 0; 0; 255;   0; 0; 0; 255;   10; 10; 10; 255;
      0; 0; 0; 255;   0; 0; 0; 255;   10; 10; 10; 255 ]%Z.

(* ================================================================== *)
(** ** Notions used in the statements *)
(* ================================================================== *)

(** The values the guard [!isNaN(val) && val > 0] lets through. *)
Definition accepted (v : number) : Prop :=
  v = PInf \/ exists L : R, v = Fin L /\ (0 < L)%R.

(** The pixel distance computed by the calibrate branch. *)
Definition pixelDistance (p0 p1 : Pt) : number :=
  let dx := (pt_x p1 - pt_x p0)%num in
  let dy := (pt_y p1 - pt_y p0)%num in
  Math_sqrt (dx * dx + dy * dy)%num.

(** The byte that the filter stores in channel [c] of the pixel [(x, y)]. *)
Definition writtenChannel (img : ImageData) (x y c : Z) : Z :=
  if (c <? 3)%Z then toUint8Clamp (sobelValue img x y) else 255%Z.

(** The loop over [x] and the loop over [y], on arbitrary ranges. *)
Definition rowLoop (img : ImageData) (xs : list Z) (y : Z) (out : list Z) : list Z :=
  fold_left (fun acc x => sobelPixel img x y acc) xs out.

Definition frameLoop (img : ImageData) (xs ys : list Z) (out : list Z) : list Z :=
  fold_left (fun acc y => rowLoop img xs y acc) ys out.

(* ================================================================== *)
(** ** Labels drawn on the overlay *)
(* ================================================================== *)

(** [formatLen] (lines 52-58) and the labels that [draw] writes next to a
    segment (lines 127-131) and to an angle (lines 170-171).  The dash of
    the source is the en dash. *)
Section Labels.
Variable toFixed : number -> nat -> string.

Definition formatLen (st : State) (len : option number) : string :=
  match len with
  | None => "–"%string
  | Some v =>
      let decimals := if nlt v (ofZ 10) then 3%nat else 2%nat in
      (toFixed v decimals ++ " " ++ unit_name (unit_ st))%string
  end.

Definition segmentLabel (st : State) (s : Segment) : string :=
  let dx := (pt_x (seg_b s) - pt_x (seg_a s))%num in
  let dy := (pt_y (seg_b s) - pt_y (seg_a s))%num in
  let pix := Math_sqrt (dx * dx + dy * dy)%num in
  let val := pxToUnit st pix in
  formatLen st val.

Definition angleLabel (a : Angle) : string :=
  (toFixed (angleAtVertex (ang_a a) (ang_b a) (ang_c a)) 1 ++ "°")%string.
End Labels.

(* ================================================================== *)
(** ** Further notions used in the statements *)
(* ================================================================== *)

(** The number of points a mode collects before it builds its entity. *)
Definition arity (m : Mode) : nat :=
  match m with
  | measure | calibrate => 2
  | angle => 3
  | select => 1
  end.

(** The pending buffer is short of the arity of the mode, and the mode is
    one of the three that the buttons select. *)
Definition pendingInv (st : State) : Prop :=
  mode st <> select /\ (length (tempPts st) < arity (mode st))%nat.

(** The segments built by clicks taken two by two, and the angles built by
    clicks taken three by three. *)
Fixpoint segmentsOfClicks (es : list ClickEnv) : list Segment :=
  match es with
  | e1 :: e2 :: rest =>
      mkSegment (overlayPoint e1) (overlayPoint e2) (randomUUID e2) None
      :: segmentsOfClicks rest
  | _ => []
  end.

Fixpoint anglesOfClicks (es : list ClickEnv) : list Angle :=
  match es with
  | e1 :: e2 :: e3 :: rest =>
      mkAngle (overlayPoint e1) (overlayPoint e2) (overlayPoint e3)
              (randomUUID e3) None
      :: anglesOfClicks rest
  | _ => []
  end.

(** The points left pending by clicks taken two by two, three by three. *)
Fixpoint pendingOfPairs (es : list ClickEnv) : list Pt :=
  match es with
  | e1 :: e2 :: rest => pendingOfPairs rest
  | _ => map overlayPoint es
  end.

Fixpoint pendingOfTriples (es : list ClickEnv) : list Pt :=
  match es with
  | e1 :: e2 :: e3 :: rest => pendingOfTriples rest
  | _ => map overlayPoint es
  end.


(** The number of commas of a line. *)
Fixpoint commas (s : string) : nat :=
  match s with
  | EmptyString => 0
  | String c r => (if Ascii.eqb c ","%char then 1 else 0) + commas r
  end.

(** All bytes of a bitmap are bytes. *)
Definition bytesInRange (d : list Z) : Prop :=
  Forall (fun b => (0 <= b <= 255)%Z) d.

(** The pixels [(x, y)] of the frame all have the colour [(r, g, b)]. *)
Definition uniformRGB (img : ImageData) (r g b : Z) : Prop :=
  forall x y : Z,
    (0 <= x < img_width img)%Z -> (0 <= y < img_height img)%Z ->
    channel img x y 0 = IZR r /\ channel img x y 1 = IZR g /\
    channel img x y 2 = IZR b.

(** Two frames have the same colours around the pixel [(x, y)]. *)
Definition sameNeighbourhoodRGB (img1 img2 : ImageData) (x y : Z) : Prop :=
  forall i j c : Z,
    (-1 <= i <= 1)%Z -> (-1 <= j <= 1)%Z -> (0 <= c <= 2)%Z ->
    channel img1 (x + i) (y + j) c = channel img2 (x + i) (y + j) c.

(** [stepFrame] with other values in the alpha channel. *)
Definition stepFrameAlpha : ImageData :=
  mkImageData 3 3
    [ 0; 0; 0; 7;   0; 0; 0; 0;   10; 10; 10; 1;
      0; 0; 0; 9;   0; 0; 0; 128;   10; 10; 10; 2;
      0; 0; 0; 5;   0; 0; 0; 77;   10; 10; 10; 3 ]%Z.

(* ================================================================== *)
(** ** Binary64 arithmetic *)
(* ================================================================== *)

(** The functions whose result depends on how numbers are rounded, once
    more, on IEEE 754 binary64 numbers: [float] is the primitive type of
    binary64 values, with the operations of the processor, which are those
    of a JavaScript engine ([0.1 + 0.2] is [0.30000000000000004], products
    overflow to [Infinity] and underflow to zero). *)
Module B64.
Import PrimFloat SpecFloat FloatOps.
#[local] Set Warnings "-inexact-float".
Local Open Scope float_scope.

(** *** Numbers *)

(** The number written by an integer: the nearest binary64 value (the
    integer itself up to [2^53]). *)
Definition ofZ (z : Z) : float := SF2Prim (binary_normalize prec emax z 0 false).

Definition isNaN (v : float) : bool := is_nan v.

(** [ToBoolean] of a number: [NaN], [+0] and [-0] are falsy. *)
Definition truthy (v : float) : bool := negb (is_nan v || is_zero v).

(** [Math.min] and [Math.max]: [NaN] if an argument is [NaN]; [-0] is
    below [+0]. *)
Definition Math_min (a b : float) : float :=
  if is_nan a || is_nan b then nan
  else if a <? b then a
  else if b <? a then b
  else if get_sign a then a else b.

Definition Math_max (a b : float) : float :=
  if is_nan a || is_nan b then nan
  else if a <? b then b
  else if b <? a then a
  else if get_sign a then b else a.

Definition Math_sqrt (v : float) : float := sqrt v.

(** [Math.PI], the binary64 value nearest to pi. *)
Definition Math_PI : float := 0x1.921fb54442d18p+1.

(** *** Geometric data model *)

Record Pt : Type := mkPt { pt_x : float; pt_y : float }.

Record Segment : Type := mkSegment {
  seg_a : Pt; seg_b : Pt; seg_id : string; seg_label : option string }.

Record Angle : Type := mkAngle {
  ang_a : Pt; ang_b : Pt; ang_c : Pt; ang_id : string; ang_label : option string }.

(** ECMAScript leaves the precision of [Math.hypot] and [Math.acos] to
    the engine ("implementation-approximated") and fixes their value in
    a few cases only.  The part left to the engine is a parameter:
    [hypotImpl] on finite arguments that are not both zero, [acosImpl]
    on the arguments of [[-1, 1)]. *)
Section Engine.
Variable hypotImpl : float -> float -> float.
Variable acosImpl : float -> float.

Definition Math_hypot (x y : float) : float :=
  if is_infinity x || is_infinity y then infinity
  else if is_nan x || is_nan y then nan
  else if is_zero x && is_zero y then zero
  else hypotImpl x y.

Definition Math_acos (x : float) : float :=
  if is_nan x || (1 <? x) || (x <? -1) then nan
  else if x =? 1 then zero
  else acosImpl x.

(** Geometric utilities (lines 463-472). *)
Definition dist (a b : Pt) : float :=
  Math_hypot (pt_x a - pt_x b) (pt_y a - pt_y b).

Definition angleAtVertex (a b c : Pt) : float :=
  let abx := pt_x a - pt_x b in
  let aby := pt_y a - pt_y b in
  let cbx := pt_x c - pt_x b in
  let cby := pt_y c - pt_y b in
  let dot := abx * cbx + aby * cby in
  let la := Math_hypot abx aby in
  let lb := Math_hypot cbx cby in
  let cos := Math_max (-1) (Math_min 1 (dot / (la * lb))) in
  (Math_acos cos * 180) / Math_PI.

(** The quotient [dot / (la * lb)] that [angleAtVertex] clamps. *)
Definition cosineQuotient (a b c : Pt) : float :=
  let abx := pt_x a - pt_x b in
  let aby := pt_y a - pt_y b in
  let cbx := pt_x c - pt_x b in
  let cby := pt_y c - pt_y b in
  (abx * cbx + aby * cby) / (Math_hypot abx aby * Math_hypot cbx cby).
End Engine.

Definition clamp (lo hi v : float) : float := Math_max lo (Math_min hi v).

(** The algorithm of [Math.hypot] in V8 (Chrome, Node.js), for two
    arguments: the absolute values are divided by the larger one, their
    squares are added with a compensated sum, and the square root of the
    sum is multiplied by the larger one. *)
Definition hypotV8 (x y : float) : float :=
  let ax := abs x in
  let ay := abs y in
  let max := if 0 <? ax then ax else 0 in
  let max := if max <? ay then ay else max in
  let add (acc : float * float) (v : float) : float * float :=
    let '(sum, compensation) := acc in
    let n := v / max in
    let summand := n * n - compensation in
    let preliminary := sum + summand in
    (preliminary, (preliminary - sum) - summand) in
  let '(sum, _) := add (add (0, 0) ax) ay in
  sqrt sum * max.

(** *** [parseFloat] *)

(** Strings are sequences of bytes, in UTF-8.  [trimStart] removes the
    [WhiteSpace] and [LineTerminator] code points of ECMAScript: the
    ASCII ones and U+00A0, U+1680, U+2000 to U+200A, U+2028, U+2029,
    U+202F, U+205F, U+3000 and U+FEFF. *)
Definition isByte (c : ascii) (n : nat) : bool := (nat_of_ascii c =? n)%nat.

Definition wideSpace (c1 c2 c3 : ascii) : bool :=
  let b2 := nat_of_ascii c2 in
  let b3 := nat_of_ascii c3 in
  (isByte c1 225 && isByte c2 154 && isByte c3 128)
  || (isByte c1 226 && isByte c2 128
      && (((128 <=? b3) && (b3 <=? 138))%nat
          || isByte c3 168 || isByte c3 169 || isByte c3 175))
  || (isByte c1 226 && isByte c2 129 && isByte c3 159)
  || (isByte c1 227 && isByte c2 128 && isByte c3 128)
  || (isByte c1 239 && isByte c2 187 && isByte c3 191).

Fixpoint trimStart (s : string) : string :=
  match s with
  | String c1 r1 =>
      if isWhiteSpace c1 then trimStart r1
      else
        match r1 with
        | String c2 r2 =>
            if isByte c1 194 && isByte c2 160 then trimStart r2
            else
              match r2 with
              | String c3 r3 => if wideSpace c1 c2 c3 then trimStart r3 else s
              | EmptyString => s
              end
        | EmptyString => s
        end
  | EmptyString => s
  end.

(** The Number value of a decimal literal [mant * 10^exp10]: the binary64
    value nearest to it, ties to even; [Infinity] above the largest
    binary64 value and zero below half the smallest. *)
Definition numberOfLiteral (l : StrLiteral) : float :=
  match l with
  | LitNaN => nan
  | LitInfinity neg => if neg then neg_infinity else infinity
  | LitDecimal neg m e =>
      let magnitude :=
        if (m <=? 0)%Z then zero
        else if (0 <=? e)%Z
        then SF2Prim (binary_normalize prec emax (m * 10 ^ e) 0 false)
        else SF2Prim (SFdiv prec emax
                        (S754_finite false (Z.to_pos m) 0)
                        (S754_finite false (Z.to_pos (10 ^ (- e))) 0)) in
      if neg then - magnitude else magnitude
  end.

Definition parseFloat (s : string) : float :=
  numberOfLiteral (scanFloat (trimStart s)).

(** *** Application state *)

(** The part of the state that the handlers below read or write. *)
Record State : Type := mkState {
  mode : Mode;
  tempPts : list Pt;
  segments : list Segment;
  angles : list Angle;
  unit_ : LenUnit;
  unitPerPx : option float;
  (** messages shown by [alert], oldest first *)
  alerts : list string
}.

Definition initialState : State :=
  {| mode := measure; tempPts := []; segments := []; angles := [];
     unit_ := mm; unitPerPx := None; alerts := [] |}.

Definition setMode (v : Mode) (st : State) : State :=
  mkState v (tempPts st) (segments st) (angles st) (unit_ st) (unitPerPx st)
          (alerts st).
Definition setTempPts (v : list Pt) (st : State) : State :=
  mkState (mode st) v (segments st) (angles st) (unit_ st) (unitPerPx st)
          (alerts st).
Definition setSegments (v : list Segment) (st : State) : State :=
  mkState (mode st) (tempPts st) v (angles st) (unit_ st) (unitPerPx st)
          (alerts st).
Definition setAngles (v : list Angle) (st : State) : State :=
  mkState (mode st) (tempPts st) (segments st) v (unit_ st) (unitPerPx st)
          (alerts st).
Definition setUnitPerPx (v : option float) (st : State) : State :=
  mkState (mode st) (tempPts st) (segments st) (angles st) (unit_ st) v
          (alerts st).
Definition alert (msg : string) (st : State) : State :=
  mkState (mode st) (tempPts st) (segments st) (angles st) (unit_ st)
          (unitPerPx st) (alerts st ++ [msg]).

(** [pxToUnit] (lines 47-50). *)
Definition pxToUnit (st : State) (px : float) : option float :=
  match unitPerPx st with
  | Some u => if truthy u then Some (px * u) else None
  | None => None
  end.

(** What a click brings from outside the component. *)
Record ClickEnv : Type := mkClickEnv {
  clientX : float;
  clientY : float;
  rect_left : float;
  rect_top : float;
  rect_width : float;
  rect_height : float;
  o_width : Z;
  o_height : Z;
  promptAnswer : option string;
  randomUUID : string
}.

Definition overlayPoint (e : ClickEnv) : Pt :=
  {| pt_x := ((clientX e - rect_left e) / rect_width e) * ofZ (o_width e);
     pt_y := ((clientY e - rect_top e) / rect_height e) * ofZ (o_height e) |}.

(** [handleOverlayClick] (lines 275-325), as above. *)
Definition handleOverlayClick (st : State) (e : ClickEnv) : State :=
  let p := overlayPoint e in
  match mode st with
  | measure =>
      let pts := (tempPts st ++ [p])%list in
      match pts with
      | [p0; p1] =>
          let seg := mkSegment p0 p1 (randomUUID e) None in
          setTempPts [] (setSegments (segments st ++ [seg]) st)
      | _ => setTempPts pts st
      end
  | calibrate =>
      let pts := (tempPts st ++ [p])%list in
      match pts with
      | [p0; p1] =>
          let dx := pt_x p1 - pt_x p0 in
          let dy := pt_y p1 - pt_y p0 in
          let pix := Math_sqrt (dx * dx + dy * dy) in
          let st1 :=
            match promptAnswer e with
            | None | Some EmptyString => st
            | Some input =>
                let val := parseFloat input in
                if negb (isNaN val) && (0 <? val)
                then setUnitPerPx (Some (val / pix)) st
                else alert invalidValue st
            end in
          setTempPts [] st1
      | _ => setTempPts pts st
      end
  | angle =>
      let pts := (tempPts st ++ [p])%list in
      match pts with
      | [p0; p1; p2] =>
          let ang := mkAngle p0 p1 p2 (randomUUID e) None in
          setTempPts [] (setAngles (angles st ++ [ang]) st)
      | _ => setTempPts pts st
      end
  | select => st
  end.

(** The mode buttons (lines 475-486). *)
Definition startCalibrate (st : State) : State := setTempPts [] (setMode calibrate st).
Definition startMeasure (st : State) : State := setTempPts [] (setMode measure st).

(** The measurement part of the payload of [downloadJSON]
    (lines 362-378). *)
Record JsonSegment : Type := mkJsonSegment {
  js_a : Pt; js_b : Pt; length_px : float; length_unit : option float }.

Definition json_segments (hypotImpl : float -> float -> float) (st : State)
    : list JsonSegment :=
  map (fun s =>
         let d := dist hypotImpl (seg_a s) (seg_b s) in
         mkJsonSegment (seg_a s) (seg_b s) d
           (match unitPerPx st with
            | Some u => if truthy u then Some (d * u) else None
            | None => None
            end))
      (segments st).

(** *** Edge filter *)

(** Reading [a[i]]: [undefined] outside the array, which arithmetic
    turns into [NaN]. *)
Definition elemAt (a : list Z) (i : Z) : float :=
  if (i <? 0)%Z then nan
  else match a !! Z.to_nat i with
       | Some v => ofZ v
       | None => nan
       end.

(** The integer nearest to [m * 2^e], ties to even. *)
Definition roundHalfEven (m e : Z) : Z :=
  if (0 <=? e)%Z then (m * 2 ^ e)%Z
  else
    let f := Z.shiftr m (- e) in
    match (2 * (m - f * 2 ^ (- e)) ?= 2 ^ (- e))%Z with
    | Lt => f
    | Gt => (f + 1)%Z
    | Eq => if Z.even f then f else (f + 1)%Z
    end.

(** Conversion of a number stored into a [Uint8ClampedArray]
    ([ToUint8Clamp]). *)
Definition toUint8Clamp (v : float) : Z :=
  if is_nan v then 0%Z
  else if v <=? 0 then 0%Z
  else if 255 <=? v then 255%Z
  else match Prim2SF v with
       | S754_finite false m e => roundHalfEven (Zpos m) e
       | _ => 0%Z
       end.

Definition dataSet (d : list Z) (i : Z) (v : float) : list Z :=
  if (i <? 0)%Z then d else <[Z.to_nat i := toUint8Clamp v]> d.

(** [applyEdgeFilter] (lines 416-460).  The body of the two inner loops,
    on the state [(sx, sy, k)]. *)
Definition sobelTap (img : ImageData) (x y j i : Z)
    (acc : float * float * Z) : float * float * Z :=
  let '(sx, sy, k) := acc in
  let width := img_width img in
  let r := elemAt (img_data img) (idx width (x + i) (y + j) 0) in
  let g := elemAt (img_data img) (idx width (x + i) (y + j) 1) in
  let b := elemAt (img_data img) (idx width (x + i) (y + j) 2) in
  let gray := 0.299 * r + 0.587 * g + 0.114 * b in
  (sx + gray * elemAt gx k, sy + gray * elemAt gy k, (k + 1)%Z).

Definition sobelSums (img : ImageData) (x y : Z) : float * float * Z :=
  forRange (-1) 2
    (fun j => forRange (-1) 2 (fun i => sobelTap img x y j i))
    (0, 0, 0%Z).

(** The value [v] computed for the pixel [(x, y)]. *)
Definition sobelValue (img : ImageData) (x y : Z) : float :=
  let '(sx, sy, _) := sobelSums img x y in
  let mag := Math_sqrt (sx * sx + sy * sy) in
  Math_max 0 (Math_min 255 mag).

(** The body of the two outer loops, on the state [out.data]. *)
Definition sobelPixel (img : ImageData) (x y : Z) (out : list Z) : list Z :=
  let width := img_width img in
  let v := sobelValue img x y in
  let out := dataSet out (idx width x y 0) v in
  let out := dataSet out (idx width x y 1) v in
  let out := dataSet out (idx width x y 2) v in
  dataSet out (idx width x y 3) 255.

Definition applyEdgeFilter (canvas : ImageData) : option ImageData :=
  let width := img_width canvas in
  let height := img_height canvas in
  match createImageData width height with
  | None => None
  | Some out =>
      let img := canvas in
      let data :=
        forRange 1 (height - 1)
          (fun y => forRange 1 (width - 1) (fun x => sobelPixel img x y))
          (img_data out) in
      Some (mkImageData width height data)
  end.

(** *** The reference computation of the specification *)

(** Written from the words of the specification, on binary64 numbers.  A
    bitmap is read as the Canvas API lays it out: the pixel [(x, y)] is
    the group of four bytes R, G, B, A number [y * width + x]. *)
Definition pixelBytes (img : ImageData) (x y : Z) : list Z :=
  firstn 4 (skipn (4 * Z.to_nat (y * img_width img + x)) (img_data img)).

Definition luminance (img : ImageData) (x y : Z) : float :=
  match pixelBytes img x y with
  | [r; g; b; _] => 0.299 * ofZ r + 0.587 * ofZ g + 0.114 * ofZ b
  | _ => nan
  end.

(** The window around [(x, y)], row by row, and the entries of a kernel
    in the same order. *)
Definition window (img : ImageData) (x y : Z) : list float :=
  flat_map (fun j => map (fun i => luminance img (x + i) (y + j)) [-1; 0; 1]%Z)
           [-1; 0; 1]%Z.

Definition weights (K : list (list Z)) : list float :=
  flat_map (map ofZ) K.

(** The sum of the products, accumulated from zero in that order. *)
Definition convolve3 (K : list (list Z)) (img : ImageData) (x y : Z) : float :=
  fold_left (fun acc p => acc + fst p * snd p)
            (combine (window img x y) (weights K)) 0.

Definition edgeMagnitude (img : ImageData) (x y : Z) : float :=
  let sx := convolve3 Gx img x y in
  let sy := convolve3 Gy img x y in
  clamp 0 255 (sqrt (sx * sx + sy * sy)).

(** The four channels the specification gives to an interior pixel. *)
Definition referencePixel (img : ImageData) (x y : Z) : list Z :=
  let m := toUint8Clamp (edgeMagnitude img x y) in
  [m; m; m; 255%Z].

(** *** Notions used in the statements *)

(** The byte that the filter stores in channel [c] of the pixel [(x, y)]. *)
Definition writtenChannel (img : ImageData) (x y c : Z) : Z :=
  if (c <? 3)%Z then toUint8Clamp (sobelValue img x y) else 255%Z.

(** The loop over [x] and the loop over [y], on arbitrary ranges. *)
Definition rowLoop (img : ImageData) (xs : list Z) (y : Z) (out : list Z) : list Z :=
  fold_left (fun acc x => sobelPixel img x y acc) xs out.

Definition frameLoop (img : ImageData) (xs ys : list Z) (out : list Z) : list Z :=
  fold_left (fun acc y => rowLoop img xs y acc) ys out.

(** *** Concrete inputs used in the scenarios *)

Definition clickAt (X Y : Z) (answer : option string) (id : string) : ClickEnv :=
  {| clientX := ofZ X; clientY := ofZ Y;
     rect_left := 0; rect_top := 0;
     rect_width := 512; rect_height := 512;
     o_width := 512; o_height := 512;
     promptAnswer := answer; randomUUID := id |}.

Definition ptZ (X Y : Z) : Pt := mkPt (ofZ X) (ofZ Y).

(** A 3 x 3 opaque frame, black but for the pixel [(2, 1)]. *)
Definition dotFrame : ImageData :=
  mkImageData 3 3
    [ 0; 0; 0; 255;   0; 0; 0; 255;   0; 0; 0; 255;
      0; 0; 0; 255;   0; 0; 0; 255;   0; 40; 55; 255;
      0; 0; 0; 255;   0; 0; 0; 255;   0; 0; 0; 255 ]%Z.

End B64.

(** ** Rounding to nearest, ties to even *)

(** The notions in which the rounding of the binary64 operations is
    described: they serve the proofs about [B64], they are not functions
    of the source. *)
Module Rounding.
Import PrimFloat SpecFloat FloatOps.
Local Open Scope Z_scope.

(** The integer nearest to [N / D], ties to even. *)
Definition rneZ (N D : Z) : Z :=
  match 2 * (N mod D) ?= D with
  | Lt => N / D
  | Eq => if Z.even (N / D) then N / D else N / D + 1
  | Gt => N / D + 1
  end.

(** The position of [r / d] in [[0, 1)] with respect to [1 / 2]. *)
Definition locOf (r d : Z) : location :=
  if r =? 0 then loc_Exact else loc_Inexact (2 * r ?= d).

(** The binary64 number of significand [m], at most [2^53], and
    exponent [g]. *)
Definition encode (m g : Z) : spec_float :=
  match m with
  | Z0 => S754_zero false
  | Zpos p =>
      if m =? 2 ^ 53
      then (if g + 1 <=? 971
            then S754_finite false 4503599627370496 (g + 1)
            else S754_infinity false)
      else (if g <=? 971 then S754_finite false p g else S754_infinity false)
  | Zneg _ => S754_nan
  end.

(** The exponent at which a number below [2^u] is rounded. *)
Definition fexp64 (u : Z) : Z := Z.max (u - 53) (-1074).

(** [m1 * 2^e1 <= m2 * 2^e2], without fractions. *)
Definition vle (m1 e1 m2 e2 : Z) : Prop :=
  forall K, 0 <= e1 + K -> 0 <= e2 + K ->
    m1 * 2 ^ (e1 + K) <= m2 * 2 ^ (e2 + K).

(** A positive normal number. *)
Definition normalPos (x : float) : bool :=
  match Prim2SF x with
  | S754_finite false m _ => 2 ^ 52 <=? Zpos m
  | _ => false
  end.

End Rounding.

(* ================================================================== *)
(** * Properties *)
(* ================================================================== *)

(** ** Arithmetic on numbers *)

Lemma Reqb_true (a b : R) : a = b -> Reqb a b = true.
Proof. intros H. unfold Reqb. destruct (Req_dec_T a b); congruence. Qed.

Lemma Reqb_false (a b : R) : a <> b -> Reqb a b = false.
Proof. intros H. unfold Reqb. destruct (Req_dec_T a b); congruence. Qed.

Lemma Rltb_true (a b : R) : (a < b)%R -> Rltb a b = true.
Proof. intros H. unfold Rltb. destruct (Rlt_dec a b); [reflexivity | contradiction]. Qed.

Lemma Rltb_false (a b : R) : (b <= a)%R -> Rltb a b = false.
Proof. intros H. unfold Rltb. destruct (Rlt_dec a b); [lra | reflexivity]. Qed.

Lemma nmul_comm (a b : number) : (a * b)%num = (b * a)%num.
Proof.
  destruct a as [| | |u], b as [| | |v]; simpl; try reflexivity.
  f_equal. apply Rmult_comm.
Qed.

Lemma nsub_diag (v : number) : (v - v)%num = NaN \/ (v - v)%num = Fin 0.
Proof.
  destruct v as [| | |r]; simpl; auto.
  right. f_equal. lra.
Qed.

Lemma nmul_zero_l (v : number) : (Fin 0 * v)%num = NaN \/ (Fin 0 * v)%num = Fin 0.
Proof.
  destruct v as [| | |r]; simpl; rewrite ?Reqb_true by reflexivity; auto.
  right. f_equal. lra.
Qed.

Lemma nadd_NaN_r (v : number) : (v + NaN)%num = NaN.
Proof. now destruct v. Qed.

Lemma Math_hypot_zero : Math_hypot (Fin 0) (Fin 0) = Fin 0.
Proof.
  simpl. f_equal.
  replace (0 * 0 + 0 * 0)%R with 0%R by lra. apply sqrt_0.
Qed.

Lemma sum_squares_nonneg (u v : R) : (0 <= u * u + v * v)%R.
Proof.
  pose proof (Rle_0_sqr u). pose proof (Rle_0_sqr v).
  unfold Rsqr in *. lra.
Qed.

Lemma sqrt_10000 : sqrt ((0 - 0) * (0 - 0) + (100 - 0) * (100 - 0)) = 100%R.
Proof.
  replace ((0 - 0) * (0 - 0) + (100 - 0) * (100 - 0))%R with (100 * 100)%R by lra.
  apply sqrt_square. lra.
Qed.

(** ** [parseFloat] on the inputs of the scenarios *)

Example scanFloat_examples :
  scanFloat "abc" = LitNaN /\
  scanFloat "." = LitNaN /\
  scanFloat "0" = LitDecimal false 0 0 /\
  scanFloat "-5" = LitDecimal true 5 0 /\
  scanFloat "85.60 mm" = LitDecimal false 8560 (-2) /\
  scanFloat "  3.25e2px" = LitDecimal false 325 0 /\
  scanFloat "1e" = LitDecimal false 1 0 /\
  scanFloat "-Infinity" = LitInfinity true.
Proof. repeat split. Qed.

Lemma parseFloat_empty : parseFloat EmptyString = NaN.
Proof. reflexivity. Qed.

Lemma parseFloat_Infinity : parseFloat "Infinity" = PInf.
Proof. reflexivity. Qed.

Lemma parseFloat_50 : parseFloat "50" = Fin 50.
Proof.
  unfold parseFloat. change (scanFloat "50") with (LitDecimal false 50 0).
  unfold numberOfLiteral, pow10. simpl. f_equal. lra.
Qed.

(** ** Angles *)

Lemma angleAtVertex_sym (a b c : Pt) : angleAtVertex a b c = angleAtVertex c b a.
Proof.
  unfold angleAtVertex.
  rewrite (nmul_comm (pt_x a - pt_x b) (pt_x c - pt_x b)).
  rewrite (nmul_comm (pt_y a - pt_y b) (pt_y c - pt_y b)).
  rewrite (nmul_comm (Math_hypot (pt_x a - pt_x b) (pt_y a - pt_y b))).
  reflexivity.
Qed.

Lemma angle_of_NaN_cosine (q : number) :
  q = NaN ->
  ((Math_acos (Math_max (ofZ (-1)) (Math_min (ofZ 1) q)) * ofZ 180) / Math_PI)%num
  = NaN.
Proof. intros ->. reflexivity. Qed.

(** With [a = b] the quotient [dot / (la * lb)] is [0 / 0] (or already
    [NaN] when a coordinate is not finite), and [NaN] goes through
    [Math.min], [Math.max] and [Math.acos]. *)
Lemma angleAtVertex_degenerate_first (b c : Pt) : angleAtVertex b b c = NaN.
Proof.
  unfold angleAtVertex. apply angle_of_NaN_cosine.
  destruct (nsub_diag (pt_x b)) as [-> | ->];
    destruct (nsub_diag (pt_y b)) as [-> | ->].
  - reflexivity.
  - reflexivity.
  - change (NaN * (pt_y c - pt_y b))%num with NaN.
    now rewrite nadd_NaN_r.
  - rewrite Math_hypot_zero.
    destruct (nmul_zero_l (pt_x c - pt_x b)) as [-> | ->];
      destruct (nmul_zero_l (pt_y c - pt_y b)) as [-> | ->]; try reflexivity.
    change (Fin 0 + Fin 0)%num with (Fin (0 + 0)).
    destruct (nmul_zero_l (Math_hypot (pt_x c - pt_x b) (pt_y c - pt_y b)))
      as [-> | ->]; [reflexivity|].
    simpl. rewrite !Reqb_true by lra. reflexivity.
Qed.

Lemma angleAtVertex_degenerate (a b c : Pt) :
  a = b \/ c = b -> angleAtVertex a b c = NaN.
Proof.
  intros [-> | ->].
  - apply angleAtVertex_degenerate_first.
  - rewrite angleAtVertex_sym. apply angleAtVertex_degenerate_first.
Qed.

(** ** Clicks *)

(** A click of [clickAt] lands on the point it names. *)
Lemma overlayPoint_clickAt (X Y : Z) (answer : option string) (id : string) :
  overlayPoint (clickAt X Y answer id) = ptZ X Y.
Proof.
  unfold overlayPoint, clickAt, ptZ, ofZ; simpl.
  rewrite !Reqb_false by lra.
  simpl. f_equal; f_equal; field.
Qed.

Lemma first_click_pends (st : State) (e : ClickEnv) :
  mode st <> select ->
  tempPts st = [] ->
  handleOverlayClick st e = setTempPts [overlayPoint e] st.
Proof.
  intros Hm Ht. unfold handleOverlayClick. rewrite Ht.
  destruct (mode st); try reflexivity. now contradiction Hm.
Qed.

Lemma measure_second_click (st : State) (e : ClickEnv) (p0 : Pt) :
  mode st = measure ->
  tempPts st = [p0] ->
  handleOverlayClick st e =
    setTempPts []
      (setSegments (segments st ++ [mkSegment p0 (overlayPoint e) (randomUUID e) None]) st).
Proof.
  intros Hm Ht. unfold handleOverlayClick. now rewrite Hm, Ht.
Qed.

Lemma calibrate_second_click (st : State) (e : ClickEnv) (p0 : Pt) :
  mode st = calibrate ->
  tempPts st = [p0] ->
  handleOverlayClick st e =
    setTempPts []
      match promptAnswer e with
      | None | Some EmptyString => st
      | Some input =>
          if negb (isNaN (parseFloat input)) && ngt (parseFloat input) (ofZ 0)
          then setUnitPerPx
                 (Some (parseFloat input / pixelDistance p0 (overlayPoint e))%num) st
          else alert invalidValue st
      end.
Proof.
  intros Hm Ht. unfold handleOverlayClick. rewrite Hm, Ht. reflexivity.
Qed.

Lemma handleOverlayClick_setIsFrozen (b : bool) (st : State) (e : ClickEnv) :
  handleOverlayClick (setIsFrozen b st) e = setIsFrozen b (handleOverlayClick st e).
Proof.
  unfold handleOverlayClick; simpl.
  destruct (mode st); simpl; try reflexivity.
  - destruct (tempPts st ++ [overlayPoint e]) as [|p0 [|p1 [|p2 l]]]; reflexivity.
  - destruct (tempPts st ++ [overlayPoint e]) as [|p0 [|p1 [|p2 l]]]; try reflexivity.
    destruct (promptAnswer e) as [[|c s]|]; try reflexivity.
    destruct (negb _ && _); reflexivity.
  - destruct (tempPts st ++ [overlayPoint e]) as [|p0 [|p1 [|p2 [|p3 l]]]]; reflexivity.
Qed.

Lemma handleOverlayClick_isFrozen (st : State) (e : ClickEnv) :
  isFrozen (handleOverlayClick st e) = isFrozen st.
Proof.
  unfold handleOverlayClick.
  destruct (mode st); simpl; try reflexivity.
  - destruct (tempPts st ++ [overlayPoint e]) as [|p0 [|p1 [|p2 l]]]; reflexivity.
  - destruct (tempPts st ++ [overlayPoint e]) as [|p0 [|p1 [|p2 l]]]; try reflexivity.
    destruct (promptAnswer e) as [[|c s]|]; try reflexivity.
    destruct (negb _ && _); reflexivity.
  - destruct (tempPts st ++ [overlayPoint e]) as [|p0 [|p1 [|p2 [|p3 l]]]]; reflexivity.
Qed.

(** ** The frozen flag *)

(** C2, as stated, fails: the frame is live in the initial state, and the
    second click in measure mode adds a segment all the same. *)
Lemma click_creates_segment_while_live :
  isFrozen initialState = false /\
  isFrozen (run initialState [Click (clickAt 0 0 None "a")]) = false /\
  segments (run initialState
              [Click (clickAt 0 0 None "a"); Click (clickAt 0 100 None "b")])
  = [mkSegment (overlayPoint (clickAt 0 0 None "a"))
               (overlayPoint (clickAt 0 100 None "b")) "b" None] /\
  ~ (forall (st : State) (e : ClickEnv),
        isFrozen st = false ->
        segments (handleOverlayClick st e) = segments st /\
        angles (handleOverlayClick st e) = angles st /\
        unitPerPx (handleOverlayClick st e) = unitPerPx st).
Proof.
  repeat split.
  intros H.
  destruct (H (handleOverlayClick initialState (clickAt 0 0 None "a"))
              (clickAt 0 100 None "b") eq_refl) as [Hseg _].
  discriminate Hseg.
Qed.

(** C2, amended.  [handleOverlayClick] neither reads nor changes the frozen
    flag: it commutes with any setting of the flag, so a click creates the
    same segments, angles and scale on a live frame as on a frozen one. *)
Theorem click_ignores_frozen_flag (st : State) (e : ClickEnv) (b : bool) :
  handleOverlayClick (setIsFrozen b st) e = setIsFrozen b (handleOverlayClick st e) /\
  isFrozen (handleOverlayClick st e) = isFrozen st /\
  segments (handleOverlayClick (resume st) e)
  = segments (handleOverlayClick (freeze st) e) /\
  angles (handleOverlayClick (resume st) e)
  = angles (handleOverlayClick (freeze st) e) /\
  unitPerPx (handleOverlayClick (resume st) e)
  = unitPerPx (handleOverlayClick (freeze st) e).
Proof.
  split; [apply handleOverlayClick_setIsFrozen|].
  split; [apply handleOverlayClick_isFrozen|].
  unfold resume, freeze. rewrite !handleOverlayClick_setIsFrozen. auto.
Qed.

(** ** Mode switches and clearing *)

(** C7.  Each of the three mode switches empties the pending buffer and
    forgets what it held.  From any state: entering Measure and clicking
    once leaves one pending point; switching to Angle empties the buffer;
    three more clicks add one Angle, made of exactly these three clicks in
    order, add no segment, and leave the buffer empty. *)
Theorem mode_switch_clears_pending (st : State) (e0 e1 e2 e3 : ClickEnv) :
  (tempPts (startMeasure st) = [] /\
   tempPts (startAngle st) = [] /\
   tempPts (startCalibrate st) = []) /\
  (forall pending : list Pt,
      startMeasure (setTempPts pending st) = startMeasure st /\
      startAngle (setTempPts pending st) = startAngle st /\
      startCalibrate (setTempPts pending st) = startCalibrate st) /\
  tempPts (run st [StartMeasure; Click e0]) = [overlayPoint e0] /\
  tempPts (run st [StartMeasure; Click e0; StartAngle]) = [] /\
  let st' := run st [StartMeasure; Click e0; StartAngle;
                     Click e1; Click e2; Click e3] in
  angles st' =
    angles st ++ [mkAngle (overlayPoint e1) (overlayPoint e2) (overlayPoint e3)
                          (randomUUID e3) None] /\
  segments st' = segments st /\
  tempPts st' = [].
Proof. repeat split. Qed.

(** C10.  Clearing the measurements empties the segments, the angles and
    the pending points and leaves every other field, in particular the
    scale and the unit, as it was; resetting all does the same and sets the
    scale to null, and is exactly clearing followed by that. *)
Theorem clear_measurements_keeps_calibration (st : State) :
  clearMeasurements st =
    mkState (isFrozen st) (mirror st) (showGrid st) (showEdges st) (mode st)
            [] [] [] (unit_ st) (unitPerPx st) (alerts st) /\
  clearAll st =
    mkState (isFrozen st) (mirror st) (showGrid st) (showEdges st) (mode st)
            [] [] [] (unit_ st) None (alerts st) /\
  clearAll st = setUnitPerPx None (clearMeasurements st) /\
  unitPerPx (clearMeasurements st) = unitPerPx st /\
  unit_ (clearMeasurements st) = unit_ st /\
  unitPerPx (clearAll st) = None /\
  unit_ (clearAll st) = unit_ st.
Proof. repeat split. Qed.

(** ** Degenerate angles *)

(** C1, as stated, fails: the clicks [(0,0)], [(0,0)], [(1,1)] in angle
    mode add an Angle, no message is shown, and the exported value of this
    angle is [NaN]. *)
Lemma degenerate_angle_is_created :
  let st := run initialState
              [StartAngle; Click (clickAt 0 0 None "a"); Click (clickAt 0 0 None "b");
               Click (clickAt 1 1 None "c")] in
  (angles st = [mkAngle (ptZ 0 0) (ptZ 0 0) (ptZ 1 1) "c" None] /\
   alerts st = [] /\
   angleAtVertex (ptZ 0 0) (ptZ 0 0) (ptZ 1 1) = NaN /\
   map angle_deg (json_angles (jsonPayload st)) = [NaN]) /\
  ~ (forall (st : State) (e : ClickEnv) (p0 p1 : Pt),
        mode st = angle -> tempPts st = [p0; p1] ->
        p0 = p1 \/ overlayPoint e = p1 ->
        angles (handleOverlayClick st e) = angles st) /\
  ~ (forall a b c : Pt, a = b \/ c = b -> angleAtVertex a b c <> NaN).
Proof.
  assert (H : angleAtVertex (ptZ 0 0) (ptZ 0 0) (ptZ 1 1) = NaN)
    by (apply angleAtVertex_degenerate; now left).
  split; [|split].
  - cbn -[overlayPoint clickAt angleAtVertex].
    rewrite !overlayPoint_clickAt.
    repeat split; try exact H.
    cbn -[angleAtVertex]. now rewrite H.
  - intros Hclaim.
    specialize (Hclaim (setTempPts [ptZ 0 0; ptZ 0 0] (startAngle initialState))
                  (clickAt 1 1 None "c") (ptZ 0 0) (ptZ 0 0)
                  eq_refl eq_refl (or_introl eq_refl)).
    discriminate Hclaim.
  - intros Hclaim.
    exact (Hclaim (ptZ 0 0) (ptZ 0 0) (ptZ 1 1) (or_introl eq_refl) H).
Qed.

(** C1, amended.  The angle branch makes no degeneracy check and raises no
    error: with two points pending in angle mode, the third click always
    appends the Angle of the three points, also when the vertex coincides
    with an endpoint, empties the buffer and shows no message. *)
Theorem angle_click_creates_entity_unchecked
    (st : State) (e : ClickEnv) (p0 p1 : Pt) :
  mode st = angle ->
  tempPts st = [p0; p1] ->
  let st' := handleOverlayClick st e in
  angles st' = angles st ++ [mkAngle p0 p1 (overlayPoint e) (randomUUID e) None] /\
  segments st' = segments st /\
  tempPts st' = [] /\
  alerts st' = alerts st.
Proof.
  intros Hm Ht. unfold handleOverlayClick. rewrite Hm, Ht. simpl.
  repeat split.
Qed.

Lemma angle_click_creates_entity_unchecked_witness :
  let st := setTempPts [ptZ 0 0; ptZ 0 0] (startAngle initialState) in
  let e := clickAt 1 1 None "c" in
  angles (handleOverlayClick st e)
  = angles st ++ [mkAngle (ptZ 0 0) (ptZ 0 0) (overlayPoint e) (randomUUID e) None].
Proof.
  intros st e.
  exact (proj1 (angle_click_creates_entity_unchecked st e (ptZ 0 0) (ptZ 0 0)
                  eq_refl eq_refl)).
Defined.

(** ** Calibration *)

Lemma guard_accepted (v : number) :
  negb (isNaN v) && ngt v (ofZ 0) = true <-> accepted v.
Proof.
  unfold accepted, ngt, ofZ. destruct v as [| | |r]; simpl.
  - split; [discriminate | intros [H | (L & H & _)]; discriminate].
  - split; auto.
  - split; [discriminate | intros [H | (L & H & _)]; discriminate].
  - unfold Rltb. destruct (Rlt_dec 0 r) as [Hr | Hr]; split; intros H.
    + right. eauto.
    + reflexivity.
    + discriminate.
    + destruct H as [H | (L & H & HL)]; [discriminate|].
      injection H as ->. contradiction.
Qed.

Lemma guard_rejected (v : number) :
  negb (isNaN v) && ngt v (ofZ 0) = false <-> ~ accepted v.
Proof.
  rewrite <- guard_accepted.
  destruct (negb (isNaN v) && ngt v (ofZ 0)); split; auto; try discriminate.
  intros H. now contradiction H.
Qed.

Lemma pixelDistance_finite (x0 y0 x1 y1 : R) :
  pixelDistance (mkPt (Fin x0) (Fin y0)) (mkPt (Fin x1) (Fin y1))
  = Fin (sqrt ((x1 - x0) * (x1 - x0) + (y1 - y0) * (y1 - y0))).
Proof.
  unfold pixelDistance; simpl.
  fold (x1 - x0)%R (y1 - y0)%R.
  rewrite Rltb_false; [reflexivity | apply sum_squares_nonneg].
Qed.

Lemma pixelDistance_0_100 (answer : option string) (id : string) :
  pixelDistance (ptZ 0 0) (overlayPoint (clickAt 0 100 answer id)) = Fin 100.
Proof.
  rewrite overlayPoint_clickAt. unfold ptZ, ofZ.
  now rewrite pixelDistance_finite, sqrt_10000.
Qed.

Lemma run_to_calibrating :
  run initialState [StartCalibrate; Click (clickAt 0 0 None "a")] = calibrating.
Proof.
  cbn [run fold_left step].
  rewrite first_click_pends by (discriminate || reflexivity).
  now rewrite overlayPoint_clickAt.
Qed.

Lemma calibrated50_eq :
  calibrated50 = setTempPts [] (setUnitPerPx (Some (Fin (1 / 2))) calibrating).
Proof.
  unfold calibrated50.
  rewrite (calibrate_second_click calibrating _ (ptZ 0 0) eq_refl eq_refl).
  rewrite pixelDistance_0_100.
  cbn [promptAnswer clickAt]. rewrite parseFloat_50.
  cbn. rewrite Rltb_true by lra. cbn.
  rewrite Reqb_false by lra.
  do 4 f_equal. lra.
Qed.

(** C3, as stated, fails: after [Calibrar] and a click at [(0,0)], a click
    at [(0,100)] answered with [Infinity] shows no message and sets the
    scale, to [+Infinity]; and a dismissed prompt shows no message either. *)
Lemma calibrate_accepts_Infinity :
  let st := run initialState
              [StartCalibrate; Click (clickAt 0 0 None "a");
               Click (clickAt 0 100 (Some "Infinity"%string) "b")] in
  let st0 := run initialState
               [StartCalibrate; Click (clickAt 0 0 None "a");
                Click (clickAt 0 100 None "b")] in
  (parseFloat "Infinity" = PInf /\
   unitPerPx st = Some PInf /\ alerts st = [] /\
   unitPerPx st <> unitPerPx calibrating /\
   unitPerPx st0 = unitPerPx calibrating /\ alerts st0 = []) /\
  ~ (forall (st : State) (e : ClickEnv) (p0 : Pt) (input : string),
        mode st = calibrate -> tempPts st = [p0] ->
        promptAnswer e = Some input ->
        ~ (exists L : R, parseFloat input = Fin L /\ (0 < L)%R) ->
        unitPerPx (handleOverlayClick st e) = unitPerPx st /\
        alerts (handleOverlayClick st e) = alerts st ++ [invalidValue]).
Proof.
  cbv zeta.
  assert (Hinf : unitPerPx (handleOverlayClick calibrating
                              (clickAt 0 100 (Some "Infinity"%string) "b"))
                 = Some PInf /\
                 alerts (handleOverlayClick calibrating
                           (clickAt 0 100 (Some "Infinity"%string) "b")) = []).
  { rewrite (calibrate_second_click calibrating _ (ptZ 0 0) eq_refl eq_refl).
    rewrite pixelDistance_0_100.
    cbn [promptAnswer clickAt]. rewrite parseFloat_Infinity.
    cbn. rewrite Rltb_false by lra. cbn. split; reflexivity. }
  split; [|
    intros Hclaim;
    destruct (Hclaim calibrating (clickAt 0 100 (Some "Infinity"%string) "b")
                (ptZ 0 0) "Infinity"%string eq_refl eq_refl eq_refl) as [Hs _];
    [ intros (L & HL & _); rewrite parseFloat_Infinity in HL; discriminate
    | rewrite (proj1 Hinf) in Hs; discriminate Hs ] ].
  change (run initialState
            [StartCalibrate; Click (clickAt 0 0 None "a");
             Click (clickAt 0 100 (Some "Infinity"%string) "b")])
    with (handleOverlayClick
            (run initialState [StartCalibrate; Click (clickAt 0 0 None "a")])
            (clickAt 0 100 (Some "Infinity"%string) "b")).
  change (run initialState
            [StartCalibrate; Click (clickAt 0 0 None "a");
             Click (clickAt 0 100 None "b")])
    with (handleOverlayClick
            (run initialState [StartCalibrate; Click (clickAt 0 0 None "a")])
            (clickAt 0 100 None "b")).
  rewrite run_to_calibrating.
  rewrite !(calibrate_second_click calibrating _ (ptZ 0 0) eq_refl eq_refl).
  rewrite pixelDistance_0_100.
  cbn [promptAnswer clickAt]. rewrite parseFloat_Infinity.
  cbn. rewrite Rltb_false by lra. cbn.
  repeat split. discriminate.
Qed.

(** C3, amended.  On the second click of a calibration the pending buffer
    is emptied, and: a dismissed or empty prompt leaves the scale unchanged
    and shows no message; an answer whose [parseFloat] is a finite positive
    number [L] sets the scale to [L] divided by the pixel distance and
    shows no message; an answer whose [parseFloat] is [NaN], zero, negative
    or [-Infinity] leaves the scale unchanged and shows the message
    [Valor inválido]. *)
Theorem calibrate_click_validation (st : State) (e : ClickEnv) (p0 : Pt) :
  mode st = calibrate ->
  tempPts st = [p0] ->
  let st' := handleOverlayClick st e in
  let pix := pixelDistance p0 (overlayPoint e) in
  tempPts st' = [] /\
  (promptAnswer e = None \/ promptAnswer e = Some EmptyString ->
   unitPerPx st' = unitPerPx st /\ alerts st' = alerts st) /\
  (forall input : string,
     promptAnswer e = Some input -> input <> EmptyString ->
     (forall L : R,
        parseFloat input = Fin L -> (0 < L)%R ->
        unitPerPx st' = Some (Fin L / pix)%num /\ alerts st' = alerts st) /\
     (parseFloat input = NaN \/ parseFloat input = NInf \/
      (exists L : R, parseFloat input = Fin L /\ (L <= 0)%R) ->
      unitPerPx st' = unitPerPx st /\ alerts st' = alerts st ++ [invalidValue])).
Proof.
  intros Hm Ht st' pix. subst st'.
  rewrite (calibrate_second_click st e p0 Hm Ht).
  split; [reflexivity|]. split.
  - intros [-> | ->]; split; reflexivity.
  - intros input -> Hne.
    destruct input as [|ch rest]; [now contradiction Hne|].
    split.
    + intros L HL Hpos.
      assert (H : accepted (parseFloat (String ch rest)))
        by (right; exists L; auto).
      apply guard_accepted in H. rewrite H, HL. split; reflexivity.
    + intros Hrej.
      assert (H : ~ accepted (parseFloat (String ch rest))).
      { intros [Hinf | (L & HL & Hpos)];
          destruct Hrej as [Hn | [Hn | (L' & HL' & Hle)]]; try congruence.
        rewrite HL in HL'. injection HL' as <-. lra. }
      apply guard_rejected in H. rewrite H. split; reflexivity.
Qed.

Lemma calibrate_click_validation_witness :
  let st' := handleOverlayClick calibrating (clickAt 0 100 (Some "abc"%string) "b") in
  unitPerPx st' = unitPerPx calibrating /\
  alerts st' = alerts calibrating ++ [invalidValue].
Proof.
  intros st'.
  pose proof (calibrate_click_validation calibrating
                (clickAt 0 100 (Some "abc"%string) "b") (ptZ 0 0)
                eq_refl eq_refl) as (_ & _ & H).
  destruct (H "abc"%string eq_refl ltac:(discriminate)) as [_ Hrej].
  apply Hrej. left. reflexivity.
Defined.

(** ** CSV export *)

Lemma append_snoc (a : string) (c : ascii) (r : string) :
  ((a ++ String c EmptyString) ++ r)%string = (a ++ String c r)%string.
Proof. induction a as [|x a IH]; simpl; [reflexivity | now rewrite IH]. Qed.

Lemma append_empty_r (a : string) : (a ++ EmptyString)%string = a.
Proof. induction a as [|x a IH]; simpl; [reflexivity | now rewrite IH]. Qed.

Lemma hasLF_app (a b : string) : hasLF (a ++ b)%string = hasLF a || hasLF b.
Proof.
  induction a as [|x a IH]; simpl; [reflexivity|].
  now rewrite IH, orb_assoc.
Qed.

Lemma linesFrom_noLF (s cur : string) :
  hasLF s = false -> linesFrom cur s = [(cur ++ s)%string].
Proof.
  revert cur. induction s as [|c s IH]; intros cur H; simpl in *.
  - now rewrite append_empty_r.
  - apply orb_false_iff in H as [Hc Hs]. rewrite Hc.
    rewrite IH by assumption. now rewrite append_snoc.
Qed.

Lemma linesFrom_line (s cur rest : string) :
  hasLF s = false ->
  linesFrom cur (s ++ LF ++ rest)%string
  = (cur ++ s)%string :: linesFrom EmptyString rest.
Proof.
  revert cur. induction s as [|c s IH]; intros cur H; simpl in *.
  - now rewrite append_empty_r.
  - apply orb_false_iff in H as [Hc Hs]. rewrite Hc.
    rewrite IH by assumption. now rewrite append_snoc.
Qed.

(** Splitting at line feeds undoes [join LF] when no piece holds one. *)
Lemma lines_join (l : string) (ls : list string) :
  forallb (fun s => negb (hasLF s)) (l :: ls) = true ->
  lines (join LF (l :: ls)) = l :: ls.
Proof.
  unfold lines, join. revert l.
  induction ls as [|l' ls IH]; intros l H; simpl in H.
  - apply andb_true_iff in H as [Hl _]. apply negb_true_iff in Hl.
    simpl. now rewrite linesFrom_noLF.
  - apply andb_true_iff in H as [Hl H]. apply negb_true_iff in Hl.
    change (String.concat LF (l :: l' :: ls))
      with (l ++ LF ++ String.concat LF (l' :: ls))%string.
    rewrite linesFrom_line by assumption. simpl append at 1.
    f_equal. apply IH. exact H.
Qed.

Lemma hasLF_join_comma (cells : list string) :
  forallb (fun s => negb (hasLF s)) cells = true ->
  hasLF (join "," cells) = false.
Proof.
  unfold join. induction cells as [|c cells IH]; intros H; [reflexivity|].
  simpl in H. apply andb_true_iff in H as [Hc H]. apply negb_true_iff in Hc.
  destruct cells as [|c' cells]; [exact Hc|].
  change (String.concat "," (c :: c' :: cells))
    with (c ++ "," ++ String.concat "," (c' :: cells))%string.
  rewrite !hasLF_app, Hc, (IH H). reflexivity.
Qed.

Lemma unit_name_noLF (u : LenUnit) : hasLF (unit_name u) = false.
Proof. now destruct u. Qed.

Section CSVFacts.
Variable toFixed : number -> nat -> string.
Hypothesis toFixed_noLF : forall v d, hasLF (toFixed v d) = false.

Lemma segmentRow_noLF (st : State) (s : Segment) :
  hasLF (join "," (segmentRow toFixed st s)) = false.
Proof.
  apply hasLF_join_comma. unfold segmentRow.
  cbn [forallb]. rewrite !toFixed_noLF, unit_name_noLF.
  destruct (scaleSet st); [rewrite toFixed_noLF|]; reflexivity.
Qed.

Lemma angleRow_noLF (a : Angle) :
  hasLF (join "," (angleRow toFixed a)) = false.
Proof.
  apply hasLF_join_comma. unfold angleRow.
  cbn [forallb]. rewrite !toFixed_noLF. reflexivity.
Qed.

Lemma csvRows_noLF (st : State) :
  forallb (fun s => negb (hasLF s)) (map (join ",") (csvRows toFixed st)) = true.
Proof.
  unfold csvRows. rewrite !map_app, !forallb_app. cbn [map forallb].
  assert (Hs : forallb (fun s => negb (hasLF s))
                 (map (join ",") (map (segmentRow toFixed st) (segments st))) = true).
  { induction (segments st) as [|s l IH]; [reflexivity|].
    cbn [map forallb]. now rewrite segmentRow_noLF, IH. }
  assert (Ha : forallb (fun s => negb (hasLF s))
                 (map (join ",") (map (angleRow toFixed) (angles st))) = true).
  { induction (angles st) as [|a l IH]; [reflexivity|].
    cbn [map forallb]. now rewrite angleRow_noLF, IH. }
  rewrite Hs, Ha. reflexivity.
Qed.

(** A data line starts with [segment,] or [angle,], never with [type,]. *)
Lemma segment_lines_not_header (st : State) (l : list Segment) :
  List.filter isHeaderLine (map (join ",") (map (segmentRow toFixed st) l)) = [].
Proof. induction l as [|s l IH]; [reflexivity | exact IH]. Qed.

Lemma angle_lines_not_header (l : list Angle) :
  List.filter isHeaderLine (map (join ",") (map (angleRow toFixed) l)) = [].
Proof. induction l as [|s l IH]; [reflexivity | exact IH]. Qed.

Lemma lines_downloadCSV (st : State) :
  lines (downloadCSV toFixed st) =
    ["type,x1,y1,x2,y2,length_px,length_unit,unit"%string]
    ++ map (fun s => join "," (segmentRow toFixed st s)) (segments st)
    ++ ["type,ax,ay,bx,by,cx,cy,angle_deg,-"%string]
    ++ map (fun a => join "," (angleRow toFixed a)) (angles st).
Proof.
  unfold downloadCSV.
  pose proof (csvRows_noLF st) as H.
  unfold csvRows in *. cbn [app map] in *.
  rewrite lines_join by exact H.
  rewrite map_app. cbn [map]. rewrite !map_map. reflexivity.
Qed.
End CSVFacts.

(** C8.  Whatever the segments and angles, and for any [toFixed] that
    prints no line feed, the lines of the CSV text are: the segment header
    [type,x1,y1,x2,y2,length_px,length_unit,unit], one line per segment,
    the angle header [type,ax,ay,bx,by,cx,cy,angle_deg,-], one line per
    angle; exactly two of these lines are header lines; and with one
    segment and no angle the text has three lines, the angle header being
    the last. *)
Theorem csv_has_two_header_lines
    (toFixed : number -> nat -> string) (st : State) :
  (forall v d, hasLF (toFixed v d) = false) ->
  let doc := lines (downloadCSV toFixed st) in
  doc =
    ["type,x1,y1,x2,y2,length_px,length_unit,unit"%string]
    ++ map (fun s => join "," (segmentRow toFixed st s)) (segments st)
    ++ ["type,ax,ay,bx,by,cx,cy,angle_deg,-"%string]
    ++ map (fun a => join "," (angleRow toFixed a)) (angles st) /\
  length (List.filter isHeaderLine doc) = 2%nat /\
  (forall s : Segment,
      segments st = [s] -> angles st = [] ->
      doc = ["type,x1,y1,x2,y2,length_px,length_unit,unit"%string;
             join "," (segmentRow toFixed st s);
             "type,ax,ay,bx,by,cx,cy,angle_deg,-"%string]).
Proof.
  intros HnoLF doc. subst doc. rewrite (lines_downloadCSV toFixed HnoLF st).
  split; [reflexivity|]. split.
  - rewrite !List.filter_app.
    rewrite <- (map_map (segmentRow toFixed st) (join ",")).
    rewrite <- (map_map (angleRow toFixed) (join ",")).
    rewrite segment_lines_not_header, angle_lines_not_header. reflexivity.
  - intros s -> ->. reflexivity.
Qed.

Lemma csv_has_two_header_lines_witness :
  let toFixed := fun (_ : number) (_ : nat) => "0.00"%string in
  let st := setSegments [mkSegment (ptZ 0 0) (ptZ 0 100) "d" None] initialState in
  length (List.filter isHeaderLine (lines (downloadCSV toFixed st))) = 2%nat.
Proof.
  intros toFixed st.
  exact (proj1 (proj2 (csv_has_two_header_lines toFixed st (fun _ _ => eq_refl)))).
Defined.

(** ** Edge filter: indices and array accesses *)

Local Open Scope Z_scope.

Lemma idx_bounds (w h x y c : Z) :
  0 <= x < w -> 0 <= y < h -> 0 <= c < 4 ->
  0 <= idx w x y c < 4 * w * h.
Proof. unfold idx. intros. nia. Qed.

Lemma idx_inj (w x y c x' y' c' : Z) :
  0 <= x < w -> 0 <= x' < w -> 0 <= c < 4 -> 0 <= c' < 4 ->
  idx w x y c = idx w x' y' c' -> x = x' /\ y = y' /\ c = c'.
Proof.
  unfold idx. intros Hx Hx' Hc Hc' H.
  assert (c = c') by lia. subst c'.
  assert (y * w + x = y' * w + x') by lia.
  assert (y = y') by nia. subst y'.
  repeat split; lia.
Qed.

Lemma elemAt_in_range (a : list Z) (i : Z) :
  0 <= i -> (Z.to_nat i < length a)%nat ->
  elemAt a i = Fin (IZR (nth (Z.to_nat i) a 0)).
Proof.
  intros Hi Hlen. unfold elemAt.
  destruct (Z.ltb_spec i 0) as [?|_]; [lia|].
  destruct (lookup_lt_is_Some_2 a (Z.to_nat i) Hlen) as [v Hv].
  rewrite Hv. unfold ofZ. do 2 f_equal.
  symmetry. apply nth_lookup_Some with (d := 0) in Hv. exact Hv.
Qed.

Lemma dataSet_length (d : list Z) (i : Z) (v : number) :
  length (dataSet d i v) = length d.
Proof. unfold dataSet. destruct (i <? 0); [reflexivity | apply length_insert]. Qed.

Lemma dataSet_lookup_eq (d : list Z) (i : Z) (v : number) :
  0 <= i -> (Z.to_nat i < length d)%nat ->
  dataSet d i v !! Z.to_nat i = Some (toUint8Clamp v).
Proof.
  intros Hi Hlen. unfold dataSet.
  destruct (Z.ltb_spec i 0) as [?|_]; [lia|].
  now apply list_lookup_insert_eq.
Qed.

Lemma dataSet_lookup_ne (d : list Z) (i j : Z) (v : number) :
  0 <= i -> 0 <= j -> i <> j ->
  dataSet d i v !! Z.to_nat j = d !! Z.to_nat j.
Proof.
  intros Hi Hj Hne. unfold dataSet.
  destruct (Z.ltb_spec i 0) as [?|_]; [lia|].
  apply list_lookup_insert_ne. lia.
Qed.

(** A byte is stored as it is. *)
Lemma toUint8Clamp_integer (n : Z) :
  0 <= n <= 255 -> toUint8Clamp (Fin (IZR n)) = n.
Proof.
  intros Hn. unfold toUint8Clamp.
  assert (H0 : (0 <= IZR n)%R) by (apply IZR_le; lia).
  assert (H1 : (IZR n <= 255)%R) by (apply IZR_le; lia).
  rewrite Rltb_false by lra. rewrite Rltb_false by lra.
  replace (Int_part (IZR n)) with n by (apply Int_part_spec; lra).
  rewrite Rltb_true by lra. reflexivity.
Qed.

Lemma toUint8Clamp_255 : toUint8Clamp (ofZ 255) = 255.
Proof. apply toUint8Clamp_integer. lia. Qed.

(** ** Edge filter: what one pixel writes *)

Section Frame.
Variable img : ImageData.
Variable h : Z.

Lemma sobelPixel_length (x y : Z) (out : list Z) :
  length (sobelPixel img x y out) = length out.
Proof. unfold sobelPixel. now rewrite !dataSet_length. Qed.

Lemma sobelPixel_lookup_same (x y c : Z) (out : list Z) :
  0 <= x < img_width img -> 0 <= y < h -> 0 <= c < 4 ->
  length out = Z.to_nat (4 * img_width img * h) ->
  sobelPixel img x y out !! Z.to_nat (idx (img_width img) x y c)
  = Some (writtenChannel img x y c).
Proof.
  intros Hx Hy Hc Hlen. unfold sobelPixel, writtenChannel.
  set (w := img_width img) in *.
  assert (Hb : forall c', 0 <= c' < 4 ->
             0 <= idx w x y c' /\ (Z.to_nat (idx w x y c') < length out)%nat).
  { intros c' Hc'. pose proof (idx_bounds w h x y c' Hx Hy Hc'). lia. }
  assert (Hne : forall c1 c2, c1 <> c2 -> idx w x y c1 <> idx w x y c2).
  { unfold idx. lia. }
  destruct (Hb 0 ltac:(lia)) as [H0 L0]. destruct (Hb 1 ltac:(lia)) as [H1 L1].
  destruct (Hb 2 ltac:(lia)) as [H2 L2]. destruct (Hb 3 ltac:(lia)) as [H3 L3].
  assert (Hcase : c = 0 \/ c = 1 \/ c = 2 \/ c = 3) by lia.
  destruct Hcase as [-> | [-> | [-> | ->]]]; cbn [Z.ltb Z.compare].
  - rewrite !dataSet_lookup_ne by (auto; apply Hne; lia).
    apply dataSet_lookup_eq; auto.
  - rewrite !dataSet_lookup_ne by (auto; apply Hne; lia).
    apply dataSet_lookup_eq; rewrite ?dataSet_length; auto.
  - rewrite !dataSet_lookup_ne by (auto; apply Hne; lia).
    apply dataSet_lookup_eq; rewrite ?dataSet_length; auto.
  - rewrite dataSet_lookup_eq by (rewrite ?dataSet_length; auto).
    now rewrite toUint8Clamp_255.
Qed.

Lemma sobelPixel_lookup_other (x y x' y' c' : Z) (out : list Z) :
  0 <= x < img_width img -> 0 <= x' < img_width img ->
  0 <= y -> 0 <= y' -> 0 <= c' < 4 ->
  (x, y) <> (x', y') ->
  sobelPixel img x y out !! Z.to_nat (idx (img_width img) x' y' c')
  = out !! Z.to_nat (idx (img_width img) x' y' c').
Proof.
  intros Hx Hx' Hy Hy' Hc' Hne. unfold sobelPixel.
  set (w := img_width img) in *.
  assert (Hd : forall c, 0 <= c < 4 -> idx w x y c <> idx w x' y' c').
  { intros c Hc Heq. apply idx_inj in Heq as (-> & -> & _); auto. }
  assert (Hp : forall c, 0 <= c < 4 -> 0 <= idx w x y c) by (unfold idx; nia).
  assert (Hp' : 0 <= idx w x' y' c') by (unfold idx; nia).
  rewrite !dataSet_lookup_ne by (auto; try apply Hp; try apply Hd; lia).
  reflexivity.
Qed.

(** ** Edge filter: the two outer loops *)

Lemma rowLoop_length (xs : list Z) (y : Z) (out : list Z) :
  length (rowLoop img xs y out) = length out.
Proof.
  unfold rowLoop. revert out.
  induction xs as [|x l IH]; intros out; simpl; [reflexivity|].
  now rewrite IH, sobelPixel_length.
Qed.

Lemma frameLoop_length (xs ys : list Z) (out : list Z) :
  length (frameLoop img xs ys out) = length out.
Proof.
  unfold frameLoop. revert out.
  induction ys as [|y l IH]; intros out; simpl; [reflexivity|].
  now rewrite IH, rowLoop_length.
Qed.

(** After the loop over [x] on the row [y]: the pixels [(x', y)] with [x']
    in the range hold what the filter writes, every other position holds
    what it held before. *)
Lemma rowLoop_lookup (xs : list Z) (y x' y' c' : Z) (out : list Z) :
  (forall x, x ∈ xs -> 0 <= x < img_width img) ->
  0 <= y < h -> 0 <= x' < img_width img -> 0 <= y' < h -> 0 <= c' < 4 ->
  length out = Z.to_nat (4 * img_width img * h) ->
  rowLoop img xs y out !! Z.to_nat (idx (img_width img) x' y' c')
  = if decide (y' = y /\ x' ∈ xs)
    then Some (writtenChannel img x' y' c')
    else out !! Z.to_nat (idx (img_width img) x' y' c').
Proof.
  intros Hl Hy Hx' Hy' Hc'. unfold rowLoop. revert out.
  induction xs as [|x l IH]; intros out Hlen; cbn [fold_left].
  - destruct (decide _) as [[_ Hin]|_]; [|reflexivity].
    now apply not_elem_of_nil in Hin.
  - assert (Hx : 0 <= x < img_width img) by (apply Hl, elem_of_cons; auto).
    rewrite IH; [| intros; apply Hl, elem_of_cons; auto
                 | now rewrite sobelPixel_length].
    destruct (decide (y' = y /\ x' ∈ l)) as [[-> Hin]|Hnot].
    + rewrite decide_True; [reflexivity|].
      split; [reflexivity | apply elem_of_cons; auto].
    + destruct (decide ((x, y) = (x', y'))) as [Heq|Hne].
      * injection Heq as -> ->.
        rewrite decide_True by (split; [reflexivity | apply elem_of_cons; auto]).
        now apply sobelPixel_lookup_same.
      * rewrite (sobelPixel_lookup_other x y x' y' c') by (auto; lia).
        rewrite decide_False; [reflexivity|].
        intros [-> Hin]. apply elem_of_cons in Hin as [-> | Hin].
        -- now apply Hne.
        -- apply Hnot. now split.
Qed.

Lemma frameLoop_lookup (xs ys : list Z) (x' y' c' : Z) (out : list Z) :
  (forall x, x ∈ xs -> 0 <= x < img_width img) ->
  (forall y, y ∈ ys -> 0 <= y < h) ->
  0 <= x' < img_width img -> 0 <= y' < h -> 0 <= c' < 4 ->
  length out = Z.to_nat (4 * img_width img * h) ->
  frameLoop img xs ys out !! Z.to_nat (idx (img_width img) x' y' c')
  = if decide (y' ∈ ys /\ x' ∈ xs)
    then Some (writtenChannel img x' y' c')
    else out !! Z.to_nat (idx (img_width img) x' y' c').
Proof.
  intros Hxs Hys Hx' Hy' Hc'. unfold frameLoop. revert out.
  induction ys as [|y l IH]; intros out Hlen; cbn [fold_left].
  - destruct (decide _) as [[Hin _]|_]; [|reflexivity].
    now apply not_elem_of_nil in Hin.
  - assert (Hy : 0 <= y < h) by (apply Hys, elem_of_cons; auto).
    rewrite IH; [| intros; apply Hys, elem_of_cons; auto
                 | now rewrite rowLoop_length].
    rewrite (rowLoop_lookup xs y x' y' c' out) by auto.
    destruct (decide (y' ∈ l /\ x' ∈ xs)) as [[Hin Hxin]|Hnot].
    + rewrite decide_True; [reflexivity|].
      split; [apply elem_of_cons; auto | assumption].
    + destruct (decide (y' = y /\ x' ∈ xs)) as [[-> Hxin]|Hnot'].
      * rewrite decide_True; [reflexivity|].
        split; [apply elem_of_cons; auto | assumption].
      * rewrite decide_False; [reflexivity|].
        intros [Hin Hxin]. apply elem_of_cons in Hin as [-> | Hin].
        -- apply Hnot'. now split.
        -- apply Hnot. now split.
Qed.
End Frame.

(** ** Edge filter: the whole frame *)

Lemma applyEdgeFilter_loops (img : ImageData) :
  img_width img <> 0 -> img_height img <> 0 ->
  applyEdgeFilter img =
    Some (mkImageData (img_width img) (img_height img)
            (frameLoop img (seqZ 1 (img_width img - 1 - 1))
               (seqZ 1 (img_height img - 1 - 1))
               (replicate (Z.to_nat (4 * img_width img * img_height img)) 0))).
Proof.
  intros Hw Hh. unfold applyEdgeFilter, createImageData.
  destruct (Z.eqb_spec (img_width img) 0) as [?|_]; [contradiction|].
  destruct (Z.eqb_spec (img_height img) 0) as [?|_]; [contradiction|].
  reflexivity.
Qed.

(** What the filter leaves at every position of the output. *)
Lemma applyEdgeFilter_lookup (img : ImageData) :
  0 < img_width img -> 0 < img_height img ->
  exists out,
    applyEdgeFilter img = Some out /\
    img_width out = img_width img /\
    img_height out = img_height img /\
    length (img_data out) = Z.to_nat (4 * img_width img * img_height img) /\
    forall x y c,
      0 <= x < img_width img -> 0 <= y < img_height img -> 0 <= c < 4 ->
      img_data out !! Z.to_nat (idx (img_width img) x y c)
      = Some (if decide (1 <= y <= img_height img - 2 /\ 1 <= x <= img_width img - 2)
              then writtenChannel img x y c
              else 0).
Proof.
  intros Hw Hh. eexists. split; [apply applyEdgeFilter_loops; lia|].
  cbn [img_width img_height img_data].
  split; [reflexivity|]. split; [reflexivity|].
  split; [now rewrite frameLoop_length, length_replicate|].
  intros x y c Hx Hy Hc.
  rewrite (frameLoop_lookup img (img_height img)); auto.
  - pose proof (idx_bounds _ _ x y c Hx Hy Hc) as Hi.
    destruct (decide (y ∈ seqZ 1 (img_height img - 1 - 1) /\
                      x ∈ seqZ 1 (img_width img - 1 - 1))) as [[Hy' Hx']|Hnot].
    + apply elem_of_seqZ in Hy', Hx'.
      rewrite decide_True by lia. reflexivity.
    + rewrite decide_False.
      * apply lookup_replicate_2. lia.
      * intros [Hy' Hx']. apply Hnot. rewrite !elem_of_seqZ. lia.
  - intros x0 H0. apply elem_of_seqZ in H0. lia.
  - intros y0 H0. apply elem_of_seqZ in H0. lia.
  - apply length_replicate.
Qed.


Lemma whiteFrame_wf : wfImage whiteFrame.
Proof. repeat split; simpl; lia. Qed.

(** ** Edge filter: the value of an interior pixel *)

(** Evaluates the closed indices [Z.to_nat k] of the goal. *)
Ltac eval_indices :=
  repeat match goal with
         | |- context [Z.to_nat ?k] =>
             let v := eval vm_compute in (Z.to_nat k) in
             change (Z.to_nat k) with v
         end.

Section Value.
Variable img : ImageData.
Hypothesis img_wf : wfImage img.

Lemma elemAt_channel (x y c : Z) :
  0 <= x < img_width img -> 0 <= y < img_height img -> 0 <= c < 4 ->
  elemAt (img_data img) (idx (img_width img) x y c) = Fin (channel img x y c).
Proof.
  intros Hx Hy Hc. destruct img_wf as (_ & _ & Hlen).
  pose proof (idx_bounds _ _ x y c Hx Hy Hc) as Hi.
  unfold channel. apply elemAt_in_range; [lia|].
  rewrite Hlen. lia.
Qed.

(** One turn of the inner loops adds the luminance of the neighbour,
    weighted by entry [k] of each kernel. *)
Lemma sobelTap_in_range (x y j i k : Z) (sx sy : R) :
  0 <= x + i < img_width img -> 0 <= y + j < img_height img -> 0 <= k < 9 ->
  sobelTap img x y j i (Fin sx, Fin sy, k)
  = (Fin (sx + luminance img (x + i) (y + j) * IZR (nth (Z.to_nat k) gx 0)),
     Fin (sy + luminance img (x + i) (y + j) * IZR (nth (Z.to_nat k) gy 0)),
     k + 1).
Proof.
  intros Hx Hy Hk. unfold sobelTap.
  rewrite !elemAt_channel by lia.
  rewrite !elemAt_in_range by (simpl; lia).
  unfold ofDec, luminance. simpl.
  repeat f_equal; lra.
Qed.

Lemma sobelSums_interior (x y : Z) :
  isInterior img x y ->
  sobelSums img x y
  = (Fin (convolve3 Gx img x y), Fin (convolve3 Gy img x y), 9).
Proof.
  intros [Hx Hy].
  unfold sobelSums, forRange.
  change (seqZ (-1) (2 - -1)) with [-1; 0; 1].
  cbn [fold_left]. unfold ofZ.
  rewrite !sobelTap_in_range by lia.
  unfold convolve3, sumR, kernelAt. cbn [map fold_right].
  eval_indices. cbn [nth Gx Gy gx gy].
  repeat (f_equal; try lra).
Qed.

Lemma sobelValue_interior (x y : Z) :
  isInterior img x y ->
  sobelValue img x y = Fin (edgeMagnitude img x y).
Proof.
  intros Hint. unfold sobelValue.
  rewrite (sobelSums_interior x y Hint).
  unfold edgeMagnitude, clampR, ofZ.
  cbn [nmul nadd Math_sqrt Math_min Math_max].
  rewrite Rltb_false; [reflexivity | apply sum_squares_nonneg].
Qed.
End Value.

Lemma convolve3_flipped_opp (img : ImageData) (x y : Z) :
  convolve3_flipped Gx img x y = (- convolve3 Gx img x y)%R /\
  convolve3_flipped Gy img x y = (- convolve3 Gy img x y)%R.
Proof.
  unfold convolve3_flipped, convolve3, sumR, kernelAt. cbn [map fold_right].
  eval_indices. cbn [nth Gx Gy]. split; lra.
Qed.

(** Rotating the kernels changes the sign of both sums and leaves the
    magnitude as it is: the reference does not depend on which of the two
    readings of "convolve" is taken. *)
Lemma edgeMagnitude_flipped (img : ImageData) (x y : Z) :
  clampR 0 255
    (sqrt (convolve3_flipped Gx img x y * convolve3_flipped Gx img x y
           + convolve3_flipped Gy img x y * convolve3_flipped Gy img x y))
  = edgeMagnitude img x y.
Proof.
  destruct (convolve3_flipped_opp img x y) as [-> ->].
  unfold edgeMagnitude. do 2 f_equal. lra.
Qed.

(** *** The filter on a small frame *)

Lemma stepFrame_wf : wfImage stepFrame.
Proof. repeat split; simpl; lia. Qed.

Lemma luminance_stepFrame :
  luminance stepFrame 0 0 = 0%R /\ luminance stepFrame 1 0 = 0%R /\
  luminance stepFrame 2 0 = 10%R /\ luminance stepFrame 0 1 = 0%R /\
  luminance stepFrame 1 1 = 0%R /\ luminance stepFrame 2 1 = 10%R /\
  luminance stepFrame 0 2 = 0%R /\ luminance stepFrame 1 2 = 0%R /\
  luminance stepFrame 2 2 = 10%R.
Proof.
  unfold luminance, channel. eval_indices.
  cbn [nth stepFrame img_data]. repeat split; lra.
Qed.

Lemma edgeMagnitude_stepFrame : edgeMagnitude stepFrame 1 1 = 40%R.
Proof.
  unfold edgeMagnitude, convolve3, sumR, kernelAt. cbn [map fold_right].
  eval_indices. cbn [nth Gx Gy].
  change (1 + -1) with 0. change (1 + 0) with 1. change (1 + 1) with 2.
  destruct luminance_stepFrame as (-> & -> & -> & -> & -> & -> & -> & -> & ->).
  match goal with
  | |- clampR _ _ (sqrt ?t) = _ => replace t with (40 * 40)%R by lra
  end.
  rewrite sqrt_square by lra.
  unfold clampR. rewrite Rmin_right by lra. apply Rmax_right. lra.
Qed.

(** On [stepFrame] the centre becomes [(40, 40, 40, 255)] and the pixel to
    its right, on the border, [(0, 0, 0, 0)]. *)
Example applyEdgeFilter_stepFrame :
  exists out : ImageData,
    applyEdgeFilter stepFrame = Some out /\
    pixelAt out 1 1 = [Some 40; Some 40; Some 40; Some 255] /\
    pixelAt stepFrame 2 1 = [Some 10; Some 10; Some 10; Some 255] /\
    pixelAt out 2 1 = [Some 0; Some 0; Some 0; Some 0].
Proof.
  destruct (applyEdgeFilter_lookup stepFrame) as (out & Hout & Hw & _ & _ & Hlook);
    [simpl; lia | simpl; lia |].
  exists out. split; [exact Hout|].
  unfold pixelAt at 1 3. rewrite Hw. cbn [map].
  rewrite !Hlook by (simpl; lia). cbn [stepFrame img_width img_height].
  split; [|split; [reflexivity|]].
  - rewrite !decide_True by lia.
    unfold writtenChannel. cbn [Z.ltb Z.compare Pos.compare Pos.compare_cont].
    rewrite (sobelValue_interior stepFrame stepFrame_wf 1 1)
      by (split; simpl; lia).
    rewrite edgeMagnitude_stepFrame.
    now rewrite (toUint8Clamp_integer 40) by lia.
  - rewrite !decide_False by lia. reflexivity.
Qed.

(** The filter fails on an empty canvas. *)
Lemma applyEdgeFilter_empty (img : ImageData) :
  img_width img = 0 \/ img_height img = 0 -> applyEdgeFilter img = None.
Proof.
  intros H. unfold applyEdgeFilter, createImageData.
  destruct H as [-> | ->]; [reflexivity|].
  now rewrite orb_true_r.
Qed.




(* ================================================================== *)
(** * Further properties of the code *)
(* ================================================================== *)

Local Close Scope Z_scope.

(** ** Invariants of the interaction state machine *)

Lemma handleOverlayClick_pendingInv (st : State) (e : ClickEnv) :
  pendingInv st -> pendingInv (handleOverlayClick st e).
Proof.
  unfold pendingInv, handleOverlayClick. intros [Hm Hl].
  destruct (mode st) eqn:Em; [now contradiction Hm | | |]; simpl in Hl.
  - destruct (tempPts st) as [|p0 [|p1 l]]; simpl in *; try lia;
      rewrite ?Em; simpl; split; (discriminate || lia).
  - destruct (tempPts st) as [|p0 [|p1 l]]; simpl in *; try lia.
    + rewrite Em. simpl. split; (discriminate || lia).
    + destruct (promptAnswer e) as [[|c s]|]; simpl; rewrite ?Em; simpl;
        try (split; (discriminate || lia)).
      destruct (negb _ && _); simpl; rewrite Em; simpl;
        split; (discriminate || lia).
  - destruct (tempPts st) as [|p0 [|p1 [|p2 l]]]; simpl in *; try lia;
      rewrite ?Em; simpl; split; (discriminate || lia).
Qed.

Lemma step_pendingInv (st : State) (c : Command) :
  pendingInv st -> pendingInv (step st c).
Proof.
  intros H. destruct c; simpl;
    try (apply handleOverlayClick_pendingInv; exact H);
    destruct H as [Hm Hl]; unfold pendingInv; simpl;
    (split; [first [assumption | discriminate]
            | first [assumption | destruct (mode st); simpl in *; lia]]).
Qed.

Lemma run_pendingInv (cs : list Command) (st : State) :
  pendingInv st -> pendingInv (run st cs).
Proof.
  revert st. induction cs as [|c cs IH]; intros st H; [exact H|].
  apply IH, step_pendingInv, H.
Qed.

(** X1. Whatever sequence of commands is run from the initial state, the
    mode is never [select] and the pending buffer stays short of the
    number of points the mode collects: at most one pending point in the
    Measure and Calibrate modes, at most two in the Angle mode. *)
Theorem pending_buffer_below_arity (cs : list Command) :
  let st := run initialState cs in
  match mode st with
  | select => False
  | measure | calibrate => (length (tempPts st) <= 1)%nat
  | angle => (length (tempPts st) <= 2)%nat
  end.
Proof.
  intros st.
  assert (H : pendingInv st).
  { apply run_pendingInv. split; [discriminate | simpl; lia]. }
  destruct H as [Hm Hl].
  destruct (mode st); simpl in Hl; [now contradiction Hm | lia ..].
Qed.

Ltac close_click :=
  rewrite ?app_nil_r; repeat split; auto; simpl; try lia; try congruence.

(** X2. A click never removes or rewrites a stored measurement: it adds at
    most one entity at the end of the lists, a segment only in Measure
    mode and an angle only in Angle mode; it shows at most one message,
    and only in Calibrate mode; and it changes neither the mode, nor the
    unit, nor the frozen flag. *)
Theorem click_only_appends (st : State) (e : ClickEnv) :
  let st' := handleOverlayClick st e in
  exists (newSegments : list Segment) (newAngles : list Angle) (msgs : list string),
    segments st' = segments st ++ newSegments /\
    angles st' = angles st ++ newAngles /\
    alerts st' = alerts st ++ msgs /\
    match mode st with
    | select => newSegments = [] /\ newAngles = [] /\ msgs = []
    | measure =>
        (length newSegments <= 1)%nat /\ newAngles = [] /\ msgs = []
    | angle =>
        newSegments = [] /\ (length newAngles <= 1)%nat /\ msgs = []
    | calibrate =>
        newSegments = [] /\ newAngles = [] /\ (length msgs <= 1)%nat
    end /\
    mode st' = mode st /\ unit_ st' = unit_ st /\ isFrozen st' = isFrozen st.
Proof.
  cbv zeta. unfold handleOverlayClick.
  destruct (mode st) eqn:Em.
  - exists [], [], []. close_click.
  - destruct (tempPts st ++ [overlayPoint e]) as [|p0 [|p1 [|p2 l]]] eqn:Ep;
      try solve [exists [], [], []; close_click].
    exists [mkSegment p0 p1 (randomUUID e) None], [], []. close_click.
  - destruct (tempPts st ++ [overlayPoint e]) as [|p0 [|p1 [|p2 l]]] eqn:Ep;
      try solve [exists [], [], []; close_click].
    destruct (promptAnswer e) as [[|c s]|];
      try solve [exists [], [], []; close_click].
    destruct (negb _ && _).
    + exists [], [], []. close_click.
    + exists [], [], [invalidValue]. close_click.
  - destruct (tempPts st ++ [overlayPoint e]) as [|p0 [|p1 [|p2 [|p3 l]]]] eqn:Ep;
      try solve [exists [], [], []; close_click].
    exists [], [mkAngle p0 p1 p2 (randomUUID e) None], []. close_click.
Qed.

Ltac no_change := let H := fresh in intros H; exfalso; apply H; reflexivity.

(** Which commands can change the scale. *)
Lemma handleOverlayClick_scale (st : State) (e : ClickEnv) :
  unitPerPx (handleOverlayClick st e) <> unitPerPx st ->
  mode st = calibrate /\ length (tempPts st) = 1%nat /\
  exists input, promptAnswer e = Some input /\ accepted (parseFloat input).
Proof.
  unfold handleOverlayClick.
  destruct (mode st) eqn:Em; try no_change.
  - destruct (tempPts st ++ [overlayPoint e]) as [|p0 [|p1 [|p2 l]]]; no_change.
  - destruct (tempPts st) as [|q0 [|q1 l]] eqn:Et; simpl; try no_change.
    + destruct (promptAnswer e) as [[|c s]|] eqn:Ea; try no_change.
      destruct (negb _ && _) eqn:Eg; [|no_change].
      intros _. repeat split. exists (String c s). split; [reflexivity|].
      now apply guard_accepted.
    + destruct (l ++ [overlayPoint e]) eqn:El;
        [destruct l; discriminate El | no_change].
  - destruct (tempPts st ++ [overlayPoint e]) as [|p0 [|p1 [|p2 [|p3 l]]]];
      no_change.
Qed.

(** X3. The scale changes only when it is asked for: a command that leaves
    a different scale behind is the reset of everything, an edit of the
    scale field, or the second click of a calibration whose prompt was
    answered with a value that passes the check. *)
Theorem scale_changes_only_on_request (st : State) (c : Command) :
  unitPerPx (step st c) <> unitPerPx st ->
  c = ResetAll \/
  (exists value, c = ScaleInput value) \/
  (exists e input,
      c = Click e /\ mode st = calibrate /\ length (tempPts st) = 1%nat /\
      promptAnswer e = Some input /\ accepted (parseFloat input)).
Proof.
  destruct c; simpl; try no_change; intros H; eauto.
  right. right. destruct (handleOverlayClick_scale st e H) as (Hm & Hl & input & Ha & Hacc).
  exists e, input. auto.
Qed.

Lemma scale_changes_only_on_request_witness :
  let c := Click (clickAt 0 100 (Some "50"%string) "b") in
  c = ResetAll \/
  (exists value, c = ScaleInput value) \/
  (exists e input,
      c = Click e /\ mode calibrating = calibrate /\
      length (tempPts calibrating) = 1%nat /\
      promptAnswer e = Some input /\ accepted (parseFloat input)).
Proof.
  apply (scale_changes_only_on_request calibrating).
  change (step calibrating (Click (clickAt 0 100 (Some "50"%string) "b")))
    with calibrated50.
  rewrite calibrated50_eq. discriminate.
Defined.

(** ** Sequences of clicks *)

Lemma list_ind_by_two {A : Type} (P : list A -> Prop) :
  P [] -> (forall x, P [x]) -> (forall x y l, P l -> P (x :: y :: l)) ->
  forall l, P l.
Proof.
  intros H0 H1 H2 l.
  assert (H : P l /\ forall x, P (x :: l)).
  { induction l as [|a l [IH IH']]; [split; auto|].
    split; [apply IH' | intros x; apply H2, IH]. }
  apply H.
Qed.

Lemma list_ind_by_three {A : Type} (P : list A -> Prop) :
  P [] -> (forall x, P [x]) -> (forall x y, P [x; y]) ->
  (forall x y z l, P l -> P (x :: y :: z :: l)) ->
  forall l, P l.
Proof.
  intros H0 H1 H2 H3 l.
  assert (H : P l /\ (forall x, P (x :: l)) /\ forall x y, P (x :: y :: l)).
  { induction l as [|a l (IH & IH' & IH'')]; [repeat split; auto|].
    split; [apply IH' | split; [intros x; apply IH'' | intros x y; apply H3, IH]]. }
  apply H.
Qed.

Lemma segmentsOfClicks_length (es : list ClickEnv) :
  length (segmentsOfClicks es) = (length es / 2)%nat /\
  length (pendingOfPairs es) = (length es mod 2)%nat.
Proof.
  induction es as [| e | e1 e2 es [IH1 IH2]] using list_ind_by_two;
    [split; reflexivity .. |].
  cbn [segmentsOfClicks pendingOfPairs length]. rewrite IH1, IH2.
  replace (S (S (length es))) with (length es + 1 * 2)%nat by lia.
  rewrite Nat.div_add, Nat.Div0.mod_add by lia.
  split; lia.
Qed.

Lemma anglesOfClicks_length (es : list ClickEnv) :
  length (anglesOfClicks es) = (length es / 3)%nat /\
  length (pendingOfTriples es) = (length es mod 3)%nat.
Proof.
  induction es as [| e | e1 e2 | e1 e2 e3 es [IH1 IH2]] using list_ind_by_three;
    [split; reflexivity .. |].
  cbn [anglesOfClicks pendingOfTriples length]. rewrite IH1, IH2.
  replace (S (S (S (length es)))) with (length es + 1 * 3)%nat by lia.
  rewrite Nat.div_add, Nat.Div0.mod_add by lia.
  split; lia.
Qed.

(** X4. In Measure mode with nothing pending, a sequence of clicks is
    consumed two by two: each pair appends the segment of its two points
    (with the identifier drawn at the second click and no label), so [n]
    clicks add [n / 2] segments and leave [n mod 2] points pending; the
    angles, the scale and the mode stay as they were. *)
Theorem measure_clicks_pair_up (st : State) (es : list ClickEnv) :
  mode st = measure ->
  tempPts st = [] ->
  let st' := run st (map Click es) in
  segments st' = segments st ++ segmentsOfClicks es /\
  tempPts st' = pendingOfPairs es /\
  length (segments st') = (length (segments st) + length es / 2)%nat /\
  length (tempPts st') = (length es mod 2)%nat /\
  angles st' = angles st /\ unitPerPx st' = unitPerPx st /\ mode st' = measure.
Proof.
  intros Hm Ht st'.
  assert (H : segments st' = segments st ++ segmentsOfClicks es /\
              tempPts st' = pendingOfPairs es /\
              angles st' = angles st /\ unitPerPx st' = unitPerPx st /\
              mode st' = measure).
  { subst st'. revert st Hm Ht.
    induction es as [| e | e1 e2 es IH] using list_ind_by_two; intros st Hm Ht.
    - cbn. rewrite app_nil_r. auto.
    - cbn [map run fold_left step].
      rewrite first_click_pends by (rewrite ?Hm; discriminate || assumption).
      cbn. rewrite app_nil_r. auto.
    - cbn [map run fold_left step].
      rewrite (first_click_pends st e1) by (rewrite ?Hm; discriminate || assumption).
      rewrite (measure_second_click _ e2 (overlayPoint e1)) by (assumption || reflexivity).
      match goal with
      | |- context [fold_left step _ ?s] =>
          destruct (IH s Hm eq_refl) as (H1 & H2 & H3 & H4 & H5)
      end.
      unfold run in *. rewrite H1, H2, H3, H4, H5.
      cbn. rewrite <- app_assoc. auto. }
  destruct H as (H1 & H2 & H3 & H4 & H5).
  destruct (segmentsOfClicks_length es) as [L1 L2].
  repeat split; try assumption.
  - rewrite H1, length_app, L1. reflexivity.
  - rewrite H2. exact L2.
Qed.

Lemma measure_clicks_pair_up_witness :
  segments (run initialState
              (map Click [clickAt 0 0 None "a"; clickAt 0 100 None "b";
                          clickAt 5 5 None "c"]))
  = [mkSegment (overlayPoint (clickAt 0 0 None "a"))
               (overlayPoint (clickAt 0 100 None "b")) "b" None].
Proof.
  exact (proj1 (measure_clicks_pair_up initialState
                  [clickAt 0 0 None "a"; clickAt 0 100 None "b";
                   clickAt 5 5 None "c"] eq_refl eq_refl)).
Defined.

Lemma angle_second_click (st : State) (e : ClickEnv) (p0 : Pt) :
  mode st = angle -> tempPts st = [p0] ->
  handleOverlayClick st e = setTempPts [p0; overlayPoint e] st.
Proof. intros Hm Ht. unfold handleOverlayClick. now rewrite Hm, Ht. Qed.

Lemma angle_third_click (st : State) (e : ClickEnv) (p0 p1 : Pt) :
  mode st = angle -> tempPts st = [p0; p1] ->
  handleOverlayClick st e =
    setTempPts []
      (setAngles (angles st ++ [mkAngle p0 p1 (overlayPoint e) (randomUUID e) None]) st).
Proof. intros Hm Ht. unfold handleOverlayClick. now rewrite Hm, Ht. Qed.

(** X5. In Angle mode with nothing pending, a sequence of clicks is
    consumed three by three: each triple appends the angle of its three
    points, the second being the vertex, so [n] clicks add [n / 3] angles
    and leave [n mod 3] points pending; the segments, the scale and the
    mode stay as they were. *)
Theorem angle_clicks_group_by_three (st : State) (es : list ClickEnv) :
  mode st = angle ->
  tempPts st = [] ->
  let st' := run st (map Click es) in
  angles st' = angles st ++ anglesOfClicks es /\
  tempPts st' = pendingOfTriples es /\
  length (angles st') = (length (angles st) + length es / 3)%nat /\
  length (tempPts st') = (length es mod 3)%nat /\
  segments st' = segments st /\ unitPerPx st' = unitPerPx st /\ mode st' = angle.
Proof.
  intros Hm Ht st'.
  assert (H : angles st' = angles st ++ anglesOfClicks es /\
              tempPts st' = pendingOfTriples es /\
              segments st' = segments st /\ unitPerPx st' = unitPerPx st /\
              mode st' = angle).
  { subst st'. revert st Hm Ht.
    induction es as [| e | e1 e2 | e1 e2 e3 es IH] using list_ind_by_three;
      intros st Hm Ht.
    - cbn. rewrite app_nil_r. auto.
    - cbn [map run fold_left step].
      rewrite first_click_pends by (rewrite ?Hm; discriminate || assumption).
      cbn. rewrite app_nil_r. auto.
    - cbn [map run fold_left step].
      rewrite (first_click_pends st e1) by (rewrite ?Hm; discriminate || assumption).
      rewrite (angle_second_click _ e2 (overlayPoint e1)) by (assumption || reflexivity).
      cbn. rewrite app_nil_r. auto.
    - cbn [map run fold_left step].
      rewrite (first_click_pends st e1) by (rewrite ?Hm; discriminate || assumption).
      rewrite (angle_second_click _ e2 (overlayPoint e1)) by (assumption || reflexivity).
      rewrite (angle_third_click _ e3 (overlayPoint e1) (overlayPoint e2))
        by (assumption || reflexivity).
      match goal with
      | |- context [fold_left step _ ?s] =>
          destruct (IH s Hm eq_refl) as (H1 & H2 & H3 & H4 & H5)
      end.
      unfold run in *. rewrite H1, H2, H3, H4, H5.
      cbn. rewrite <- app_assoc. auto. }
  destruct H as (H1 & H2 & H3 & H4 & H5).
  destruct (anglesOfClicks_length es) as [L1 L2].
  repeat split; try assumption.
  - rewrite H1, length_app, L1. reflexivity.
  - rewrite H2. exact L2.
Qed.

Lemma angle_clicks_group_by_three_witness :
  length (angles (run (startAngle initialState)
                    (map Click [clickAt 0 0 None "a"; clickAt 0 100 None "b";
                                clickAt 5 5 None "c"; clickAt 7 7 None "d"])))
  = (length (angles (startAngle initialState)) + 4 / 3)%nat.
Proof.
  exact (proj1 (proj2 (proj2 (angle_clicks_group_by_three (startAngle initialState)
                  [clickAt 0 0 None "a"; clickAt 0 100 None "b";
                   clickAt 5 5 None "c"; clickAt 7 7 None "d"] eq_refl eq_refl)))).
Defined.

(** ** From the pointer to the canvas *)

(** X9. A click inside the displayed rectangle of the overlay (finite
    coordinates, a rectangle of positive width and height) is mapped to
    the point whose coordinates are the offsets in the rectangle scaled
    by the ratio of the canvas size to the displayed size, and that point
    lies on the canvas: [0 <= x <= o.width] and [0 <= y <= o.height]. *)
Theorem overlayPoint_inside_canvas (e : ClickEnv) (cx cy l t w h : R) :
  clientX e = Fin cx -> clientY e = Fin cy ->
  rect_left e = Fin l -> rect_top e = Fin t ->
  rect_width e = Fin w -> rect_height e = Fin h ->
  (0 < w)%R -> (0 < h)%R ->
  (l <= cx <= l + w)%R -> (t <= cy <= t + h)%R ->
  (0 <= o_width e)%Z -> (0 <= o_height e)%Z ->
  let x := ((cx - l) / w * IZR (o_width e))%R in
  let y := ((cy - t) / h * IZR (o_height e))%R in
  overlayPoint e = mkPt (Fin x) (Fin y) /\
  (0 <= x <= IZR (o_width e))%R /\
  (0 <= y <= IZR (o_height e))%R.
Proof.
  intros Hcx Hcy Hl Ht Hw Hh Hwpos Hhpos Hinx Hiny How Hoh x y. subst x y.
  assert (Hfrac : forall c o s : R, (0 < s)%R -> (o <= c <= o + s)%R ->
                  (0 <= (c - o) / s <= 1)%R).
  { intros c o s Hs Hc. split.
    - apply Rmult_le_pos; [lra | apply Rlt_le, Rinv_0_lt_compat, Hs].
    - apply (Rmult_le_reg_r s); [exact Hs|].
      unfold Rdiv. rewrite Rmult_assoc, Rinv_l by lra. lra. }
  apply IZR_le in How, Hoh.
  destruct (Hfrac cx l w Hwpos Hinx) as [Hx0 Hx1].
  destruct (Hfrac cy t h Hhpos Hiny) as [Hy0 Hy1].
  split; [|split; split; nra].
  unfold overlayPoint. rewrite Hcx, Hcy, Hl, Ht, Hw, Hh. unfold ofZ. simpl.
  rewrite !Reqb_false by lra. reflexivity.
Qed.

Lemma overlayPoint_inside_canvas_witness :
  overlayPoint (clickAt 0 100 None "b")
  = mkPt (Fin ((0 - 0) / 512 * IZR 512)) (Fin ((100 - 0) / 512 * IZR 512)).
Proof.
  refine (proj1 (overlayPoint_inside_canvas (clickAt 0 100 None "b")
                   0 100 0 0 512 512 eq_refl eq_refl eq_refl eq_refl eq_refl
                   eq_refl _ _ _ _ _ _)); (lra || (simpl; lia)).
Defined.

(** ** Calibration: edge behaviour and use of the scale *)

Lemma pixelDistance_same (x y : R) :
  pixelDistance (mkPt (Fin x) (Fin y)) (mkPt (Fin x) (Fin y)) = Fin 0.
Proof.
  rewrite pixelDistance_finite. f_equal.
  replace ((x - x) * (x - x) + (y - y) * (y - y))%R with 0%R by ring.
  apply sqrt_0.
Qed.

(** X10. A calibration whose two clicks fall on the same point divides by
    a pixel distance of zero: with a finite positive answer the scale
    becomes [Infinity] without any message, after which every positive
    pixel length converts to [Infinity] and the length zero to [NaN]. *)
Theorem calibrate_on_coincident_points
    (st : State) (e : ClickEnv) (x y : R) (input : string) (L : R) :
  mode st = calibrate ->
  tempPts st = [mkPt (Fin x) (Fin y)] ->
  overlayPoint e = mkPt (Fin x) (Fin y) ->
  promptAnswer e = Some input ->
  parseFloat input = Fin L ->
  (0 < L)%R ->
  let st' := handleOverlayClick st e in
  unitPerPx st' = Some PInf /\
  alerts st' = alerts st /\
  (forall px : R, (0 < px)%R -> pxToUnit st' (Fin px) = Some PInf) /\
  pxToUnit st' (Fin 0) = Some NaN.
Proof.
  intros Hm Ht Hp Ha Hv HL st'. subst st'.
  rewrite (calibrate_second_click st e _ Hm Ht), Ha, Hp.
  destruct input as [|ch rest];
    [rewrite parseFloat_empty in Hv; discriminate|].
  rewrite Hv, pixelDistance_same.
  assert (Hg : negb (isNaN (Fin L)) && ngt (Fin L) (ofZ 0) = true).
  { apply guard_accepted. right. eauto. }
  rewrite Hg. unfold pxToUnit. cbn.
  rewrite (Reqb_true 0 0) by reflexivity.
  rewrite (Reqb_false L 0) by lra.
  rewrite (Rltb_true 0 L) by lra. cbn.
  repeat split.
  intros px Hpx. rewrite (Reqb_false px 0) by lra.
  now rewrite (Rltb_true 0 px) by lra.
Qed.

Lemma calibrate_on_coincident_points_witness :
  unitPerPx (handleOverlayClick calibrating (clickAt 0 0 (Some "50"%string) "b"))
  = Some PInf.
Proof.
  exact (proj1 (calibrate_on_coincident_points calibrating
                  (clickAt 0 0 (Some "50"%string) "b") 0 0 "50"%string 50
                  eq_refl eq_refl (overlayPoint_clickAt 0 0 _ _) eq_refl
                  parseFloat_50 ltac:(lra))).
Defined.

(** ** Without a scale *)

(** X13. Without a usable scale (none set, or a scale of zero or NaN, which
    the code treats alike) no converted length is shown anywhere: the
    label of a segment is the dash, the [length_unit] cell of its CSV
    row is empty and every [length_unit] of the JSON payload is null. *)
Theorem no_scale_no_converted_length
    (toFixed : number -> nat -> string) (st : State) (s : Segment) :
  scaleSet st = false ->
  segmentLabel toFixed st s = "–"%string /\
  nth 6 (segmentRow toFixed st s) "?"%string = EmptyString /\
  map length_unit (json_segments (jsonPayload st))
  = map (fun _ => None) (segments st).
Proof.
  intros Hs. unfold segmentLabel, pxToUnit, segmentRow, jsonPayload.
  unfold scaleSet in *. cbn [nth json_segments]. rewrite Hs.
  destruct (unitPerPx st) as [u|]; [rewrite Hs|]; cbn [formatLen];
    rewrite map_map; auto.
Qed.

Lemma no_scale_no_converted_length_witness :
  segmentLabel (fun _ _ => "n"%string)
    (setUnitPerPx (Some (Fin 0)) initialState)
    (mkSegment (ptZ 0 0) (ptZ 0 100) "s" None) = "–"%string.
Proof.
  refine (proj1 (no_scale_no_converted_length (fun _ _ => "n"%string)
            (setUnitPerPx (Some (Fin 0)) initialState)
            (mkSegment (ptZ 0 0) (ptZ 0 100) "s" None) _)).
  unfold scaleSet. cbn. now rewrite Reqb_true.
Defined.

(** ** CSV export: the shape of the table *)

Lemma commas_app (a b : string) : commas (a ++ b)%string = (commas a + commas b)%nat.
Proof. induction a as [|c a IH]; simpl; [reflexivity | rewrite IH; lia]. Qed.

Lemma commas_join (cells : list string) :
  Forall (fun c => commas c = 0%nat) cells ->
  commas (join "," cells) = (length cells - 1)%nat.
Proof.
  unfold join. induction 1 as [|c cells Hc Hcells IH]; [reflexivity|].
  destruct cells as [|c' cells]; [simpl; lia|].
  change (String.concat "," (c :: c' :: cells))
    with (c ++ "," ++ String.concat "," (c' :: cells))%string.
  rewrite !commas_app, Hc, IH. simpl. lia.
Qed.

Lemma unit_name_commas (u : LenUnit) : commas (unit_name u) = 0%nat.
Proof. now destruct u. Qed.

Section CSVShape.
Variable toFixed : number -> nat -> string.
Hypothesis toFixed_noLF : forall v d, hasLF (toFixed v d) = false.
Hypothesis toFixed_commas : forall v d, commas (toFixed v d) = 0%nat.

Lemma segmentRow_commas (st : State) (s : Segment) :
  commas (join "," (segmentRow toFixed st s)) = 7%nat.
Proof.
  rewrite commas_join; [reflexivity|].
  unfold segmentRow. repeat constructor; auto using unit_name_commas.
  destruct (scaleSet st); auto.
Qed.

Lemma angleRow_commas (a : Angle) :
  commas (join "," (angleRow toFixed a)) = 8%nat.
Proof.
  rewrite commas_join; [reflexivity|].
  unfold angleRow. repeat constructor; auto.
Qed.
End CSVShape.

(** X14. When [toFixed] prints neither a line feed nor a comma, the CSV
    document has [2 + #segments + #angles] lines in two rectangular
    groups: the first header and the segment rows have 8 cells each (7
    commas), the second header and the angle rows 9 cells each (8
    commas). *)
Theorem csv_groups_are_rectangular
    (toFixed : number -> nat -> string) (st : State) :
  (forall v d, hasLF (toFixed v d) = false) ->
  (forall v d, commas (toFixed v d) = 0%nat) ->
  let doc := lines (downloadCSV toFixed st) in
  let n := length (segments st) in
  length doc = (2 + n + length (angles st))%nat /\
  Forall (fun l => commas l = 7%nat) (firstn (S n) doc) /\
  Forall (fun l => commas l = 8%nat) (skipn (S n) doc).
Proof.
  intros HnoLF Hcommas doc n. subst doc n.
  rewrite (lines_downloadCSV toFixed HnoLF st).
  cbn [app]. split; [|split].
  - cbn [length]. rewrite length_app. cbn [length]. rewrite !length_map. lia.
  - cbn [firstn].
    rewrite <- (length_map (fun s => join "," (segmentRow toFixed st s)) (segments st)).
    rewrite take_app_length. constructor; [reflexivity|].
    apply Forall_map, Forall_forall. intros s _.
    now apply segmentRow_commas.
  - cbn [skipn].
    rewrite <- (length_map (fun s => join "," (segmentRow toFixed st s)) (segments st)).
    rewrite drop_app_length. constructor; [reflexivity|].
    apply Forall_map, Forall_forall. intros a _.
    now apply angleRow_commas.
Qed.

Lemma csv_groups_are_rectangular_witness :
  let toFixed := fun (_ : number) (_ : nat) => "0.00"%string in
  let st := setSegments [mkSegment (ptZ 0 0) (ptZ 0 100) "d" None] initialState in
  length (lines (downloadCSV toFixed st)) = 3%nat.
Proof.
  intros toFixed st.
  exact (proj1 (csv_groups_are_rectangular toFixed st
                  (fun _ _ => eq_refl) (fun _ _ => eq_refl))).
Defined.

(** ** Selecting a unit *)





(** ** The scale field *)

Lemma parseFloat_minus_2 : parseFloat "-2" = Fin (-2).
Proof.
  unfold parseFloat. change (scanFloat "-2") with (LitDecimal true 2 0).
  unfold numberOfLiteral, pow10. simpl. f_equal. lra.
Qed.

(** X21. The scale typed into the scale field is stored without the check
    that a calibration makes: a non-empty text whose [parseFloat] is the
    finite number [v] becomes the scale also when [v] is negative or
    zero.  A negative scale then yields negative lengths; a scale of zero
    is stored but converts nothing, like no scale at all. *)
Theorem scale_input_is_not_validated
    (st : State) (value : string) (v : R) :
  value <> EmptyString ->
  parseFloat value = Fin v ->
  let st' := onScaleInput value st in
  unitPerPx st' = Some (Fin v) /\
  alerts st' = alerts st /\
  (forall px : R,
      pxToUnit st' (Fin px)
      = if Reqb v 0 then None else Some (Fin (px * v))) /\
  scaleSet st' = negb (Reqb v 0).
Proof.
  intros Hne Hv st'. subst st'. unfold onScaleInput.
  destruct value as [|c s]; [now contradiction Hne|].
  rewrite Hv. unfold pxToUnit, scaleSet. cbn.
  repeat split. intros px. now destruct (Reqb v 0).
Qed.

Lemma scale_input_is_not_validated_witness :
  unitPerPx (onScaleInput "-2" calibrated50) = Some (Fin (-2)).
Proof.
  refine (proj1 (scale_input_is_not_validated calibrated50 "-2" (-2) _
                   parseFloat_minus_2)).
  discriminate.
Defined.

Local Open Scope Z_scope.

(** ** Edge filter: the output is a bitmap *)

Lemma toUint8Clamp_range (v : number) : 0 <= toUint8Clamp v <= 255.
Proof.
  destruct v as [| | |r]; simpl; try lia.
  unfold Rltb.
  destruct (Rlt_dec r 0) as [?|H0]; [lia|].
  destruct (Rlt_dec 255 r) as [?|H1]; [lia|].
  apply Rnot_lt_le in H0, H1.
  destruct (base_Int_part r) as [Hlo Hhi].
  assert (Hf0 : 0 <= Int_part r).
  { apply le_IZR. apply Rnot_lt_le. intros Hneg.
    assert (IZR (Int_part r) <= -1)%R by (apply IZR_le; apply lt_IZR in Hneg; lia).
    lra. }
  assert (Hf1 : Int_part r <= 255) by (apply le_IZR; lra).
  destruct (Rlt_dec r (IZR (Int_part r) + 1 / 2)) as [?|Ha]; [lia|].
  apply Rnot_lt_le in Ha.
  assert (Hf2 : Int_part r <= 254).
  { apply Z.lt_succ_r. apply lt_IZR. change (IZR (Z.succ 254)) with 255%R. lra. }
  destruct (Rlt_dec (IZR (Int_part r) + 1 / 2) r); [lia|].
  destruct (Z.even (Int_part r)); lia.
Qed.

Lemma dataSet_bytes (d : list Z) (i : Z) (v : number) :
  bytesInRange d -> bytesInRange (dataSet d i v).
Proof.
  unfold bytesInRange, dataSet. intros H.
  destruct (i <? 0); [exact H|].
  apply Forall_insert; [exact H | apply toUint8Clamp_range].
Qed.

Lemma sobelPixel_bytes (img : ImageData) (x y : Z) (out : list Z) :
  bytesInRange out -> bytesInRange (sobelPixel img x y out).
Proof. intros H. unfold sobelPixel. now repeat apply dataSet_bytes. Qed.

Lemma frameLoop_bytes (img : ImageData) (xs ys : list Z) (out : list Z) :
  bytesInRange out -> bytesInRange (frameLoop img xs ys out).
Proof.
  unfold frameLoop. revert out.
  induction ys as [|y ys IH]; intros out H; [exact H|].
  cbn [fold_left]. apply IH.
  unfold rowLoop. clear IH. revert out H.
  induction xs as [|x xs IHx]; intros out H; [exact H|].
  cbn [fold_left]. apply IHx, sobelPixel_bytes, H.
Qed.

(** X16. On a frame of positive width and height the edge filter returns
    a frame of the same size whose buffer has [4 * width * height]
    entries, each of them a byte between 0 and 255. *)
Theorem edge_filter_output_is_a_bitmap (img : ImageData) :
  0 < img_width img -> 0 < img_height img ->
  exists out : ImageData,
    applyEdgeFilter img = Some out /\
    img_width out = img_width img /\
    img_height out = img_height img /\
    wfImage out /\
    bytesInRange (img_data out).
Proof.
  intros Hw Hh. eexists. split; [apply applyEdgeFilter_loops; lia|].
  cbn [img_width img_height img_data].
  split; [reflexivity|]. split; [reflexivity|]. split.
  - unfold wfImage. cbn [img_width img_height img_data].
    rewrite frameLoop_length, length_replicate. repeat split; lia.
  - apply frameLoop_bytes. unfold bytesInRange.
    apply Forall_replicate. lia.
Qed.

Lemma edge_filter_output_is_a_bitmap_witness :
  exists out : ImageData,
    applyEdgeFilter stepFrame = Some out /\
    img_width out = 3 /\ img_height out = 3 /\
    wfImage out /\ bytesInRange (img_data out).
Proof.
  apply (edge_filter_output_is_a_bitmap stepFrame); simpl; lia.
Defined.

(** X18. On a frame with fewer than three columns or fewer than three
    rows there is no interior pixel: the loops do not run and the result
    is the frame of the same size with every byte zero. *)
Theorem edge_filter_on_thin_frames (img : ImageData) :
  0 < img_width img -> 0 < img_height img ->
  img_width img <= 2 \/ img_height img <= 2 ->
  applyEdgeFilter img
  = Some (mkImageData (img_width img) (img_height img)
            (replicate (Z.to_nat (4 * img_width img * img_height img)) 0)).
Proof.
  intros Hw Hh Hthin. rewrite applyEdgeFilter_loops by lia.
  do 2 f_equal. unfold frameLoop, rowLoop.
  destruct Hthin as [Hthin | Hthin].
  - replace (seqZ 1 (img_width img - 1 - 1)) with (@nil Z)
      by (unfold seqZ; now replace (Z.to_nat (img_width img - 1 - 1)) with 0%nat by lia).
    cbn [fold_left].
    generalize (replicate (Z.to_nat (4 * img_width img * img_height img)) 0).
    induction (seqZ 1 (img_height img - 1 - 1)) as [|y ys IH]; intros out;
      [reflexivity | apply IH].
  - replace (seqZ 1 (img_height img - 1 - 1)) with (@nil Z)
      by (unfold seqZ; now replace (Z.to_nat (img_height img - 1 - 1)) with 0%nat by lia).
    reflexivity.
Qed.

Lemma edge_filter_on_thin_frames_witness :
  applyEdgeFilter (mkImageData 2 2 (replicate 16 255))
  = Some (mkImageData 2 2 (replicate 16 0)).
Proof.
  apply (edge_filter_on_thin_frames (mkImageData 2 2 (replicate 16 255)));
    simpl; lia.
Defined.

(** ** Edge filter: what the value of a pixel depends on *)

Lemma edgeMagnitude_ext (img1 img2 : ImageData) (x y : Z) :
  (forall i j : Z, -1 <= i <= 1 -> -1 <= j <= 1 ->
     luminance img1 (x + i) (y + j) = luminance img2 (x + i) (y + j)) ->
  edgeMagnitude img1 x y = edgeMagnitude img2 x y.
Proof.
  intros H. unfold edgeMagnitude, convolve3, sumR. cbn [map fold_right].
  rewrite !(H (-1)), !(H 0), !(H 1) by lia. reflexivity.
Qed.

Lemma interior_pixel_value (img : ImageData) (x y : Z) :
  wfImage img -> isInterior img x y ->
  exists out : ImageData,
    applyEdgeFilter img = Some out /\
    pixelAt out x y = map Some (referencePixel img x y).
Proof.
  intros Hwf Hint. pose proof Hint as [Hx Hy].
  destruct (applyEdgeFilter_lookup img) as (out & Hout & Hw & Hh & _ & Hlook);
    [lia | lia |].
  exists out. split; [assumption|].
  unfold pixelAt, referencePixel. rewrite Hw. cbn [map].
  rewrite !Hlook by lia.
  rewrite !decide_True by lia.
  unfold writtenChannel. cbn [Z.ltb Z.compare Pos.compare Pos.compare_cont].
  now rewrite (sobelValue_interior img Hwf x y Hint).
Qed.

(** X19. The edge filter is local and ignores alpha: if two well-formed
    frames have the same R, G and B bytes in the 3 x 3 neighbourhood of an
    interior pixel, their results agree on that pixel, whatever the
    frames hold elsewhere or in their alpha channels. *)
Theorem edge_filter_is_local (img1 img2 : ImageData) (x y : Z) :
  wfImage img1 -> wfImage img2 ->
  isInterior img1 x y -> isInterior img2 x y ->
  sameNeighbourhoodRGB img1 img2 x y ->
  exists out1 out2 : ImageData,
    applyEdgeFilter img1 = Some out1 /\
    applyEdgeFilter img2 = Some out2 /\
    pixelAt out1 x y = pixelAt out2 x y.
Proof.
  intros Hwf1 Hwf2 Hint1 Hint2 Hsame.
  destruct (interior_pixel_value img1 x y Hwf1 Hint1) as (out1 & Ho1 & Hp1).
  destruct (interior_pixel_value img2 x y Hwf2 Hint2) as (out2 & Ho2 & Hp2).
  exists out1, out2. repeat split; try assumption.
  rewrite Hp1, Hp2. unfold referencePixel.
  rewrite (edgeMagnitude_ext img1 img2 x y); [reflexivity|].
  intros i j Hi Hj. unfold luminance.
  now rewrite !(Hsame i j) by lia.
Qed.

Lemma stepFrame_same_colours : sameNeighbourhoodRGB stepFrame stepFrameAlpha 1 1.
Proof.
  intros i j c Hi Hj Hc.
  assert (Ei : i = -1 \/ i = 0 \/ i = 1) by lia.
  assert (Ej : j = -1 \/ j = 0 \/ j = 1) by lia.
  assert (Ec : c = 0 \/ c = 1 \/ c = 2) by lia.
  destruct Ei as [-> | [-> | ->]], Ej as [-> | [-> | ->]], Ec as [-> | [-> | ->]];
    reflexivity.
Qed.

Lemma edge_filter_is_local_witness :
  exists out1 out2 : ImageData,
    applyEdgeFilter stepFrame = Some out1 /\
    applyEdgeFilter stepFrameAlpha = Some out2 /\
    pixelAt out1 1 1 = pixelAt out2 1 1.
Proof.
  apply (edge_filter_is_local stepFrame stepFrameAlpha 1 1);
    try (repeat split; simpl; lia).
  exact stepFrame_same_colours.
Defined.

Lemma toUint8Clamp_zero : toUint8Clamp (Fin 0) = 0.
Proof. exact (toUint8Clamp_integer 0 ltac:(lia)). Qed.

Lemma edgeMagnitude_uniform (img : ImageData) (x y : Z) (k : R) :
  (forall i j : Z, -1 <= i <= 1 -> -1 <= j <= 1 ->
     luminance img (x + i) (y + j) = k) ->
  edgeMagnitude img x y = 0%R.
Proof.
  intros H. unfold edgeMagnitude, convolve3, sumR, kernelAt. cbn [map fold_right].
  rewrite !(H (-1)), !(H 0), !(H 1) by lia.
  eval_indices. cbn [nth Gx Gy].
  match goal with
  | |- clampR _ _ (sqrt ?t) = _ => replace t with 0%R by lra
  end.
  rewrite sqrt_0. unfold clampR.
  rewrite Rmin_right by lra. apply Rmax_left. lra.
Qed.

(** X17. On a frame of a single colour the filter finds no edge: every
    interior pixel of the result is opaque black, [(0, 0, 0, 255)]. *)
Theorem edge_filter_on_uniform_frame (img : ImageData) (r g b x y : Z) :
  wfImage img ->
  uniformRGB img r g b ->
  isInterior img x y ->
  exists out : ImageData,
    applyEdgeFilter img = Some out /\
    pixelAt out x y = [Some 0; Some 0; Some 0; Some 255].
Proof.
  intros Hwf Huni Hint.
  destruct (interior_pixel_value img x y Hwf Hint) as (out & Ho & Hp).
  exists out. split; [assumption|].
  rewrite Hp. unfold referencePixel.
  rewrite (edgeMagnitude_uniform img x y
             (299 / 1000 * IZR r + 587 / 1000 * IZR g + 114 / 1000 * IZR b)).
  - now rewrite toUint8Clamp_zero.
  - intros i j Hi Hj. destruct Hint as [Hx Hy]. unfold luminance.
    destruct (Huni (x + i) (y + j)) as (-> & -> & ->); [lia | lia |].
    reflexivity.
Qed.

Lemma whiteFrame_uniform : uniformRGB whiteFrame 255 255 255.
Proof.
  intros x y Hx Hy. simpl in Hx, Hy.
  assert (Ex : x = 0 \/ x = 1 \/ x = 2) by lia.
  assert (Ey : y = 0 \/ y = 1 \/ y = 2) by lia.
  destruct Ex as [-> | [-> | ->]], Ey as [-> | [-> | ->]]; repeat split.
Qed.

Lemma edge_filter_on_uniform_frame_witness :
  exists out : ImageData,
    applyEdgeFilter whiteFrame = Some out /\
    pixelAt out 1 1 = [Some 0; Some 0; Some 0; Some 255].
Proof.
  apply (edge_filter_on_uniform_frame whiteFrame 255 255 255 1 1).
  - exact whiteFrame_wf.
  - exact whiteFrame_uniform.
  - split; simpl; lia.
Defined.

(* ================================================================== *)
(** * Properties of the code on binary64 numbers *)
(* ================================================================== *)

Import PrimFloat SpecFloat FloatOps FloatAxioms.
#[local] Set Warnings "-inexact-float".
Local Open Scope float_scope.

(** ** Binary64 numbers *)

Lemma float_mul_comm (x y : float) : x * y = y * x.
Proof.
  apply Prim2SF_inj. rewrite !mul_spec. unfold SF64mul, SFmul.
  destruct (Prim2SF x) as [sx | sx | | sx mx ex],
           (Prim2SF y) as [sy | sy | | sy my ey];
    rewrite ?(xorb_comm sx sy); try reflexivity.
  now rewrite Pos.mul_comm, Z.add_comm.
Qed.

Lemma SFcompare_refl (v : spec_float) :
  v <> S754_nan -> SFcompare v v = Some Eq.
Proof.
  destruct v as [s | s | | s m e]; intros H; try easy; simpl.
  - now destruct s.
  - rewrite Z.compare_refl, Pos.compare_cont_refl. now destruct s.
Qed.

Lemma SFcompare_antisym (u v : spec_float) :
  SFcompare v u = option_map CompOpp (SFcompare u v).
Proof.
  destruct u as [s | s | | s m e], v as [s' | s' | | s' m' e'];
    try reflexivity; simpl; try (now destruct s); try (now destruct s');
    try (now destruct s, s').
  pose proof (Pos.compare_cont_antisym m m' Eq) as Hm. cbn [CompOpp] in Hm.
  rewrite (Z.compare_antisym e e'), <- Hm.
  destruct s, s', (e ?= e')%Z; simpl; try reflexivity;
    now destruct (Pos.compare_cont Eq m m').
Qed.

Lemma SFcompare_None (u v : spec_float) :
  SFcompare u v = None <-> u = S754_nan \/ v = S754_nan.
Proof.
  destruct u as [s | s | | s m e], v as [s' | s' | | s' m' e']; simpl;
    split; intros H; try discriminate; auto;
    destruct H as [H | H]; discriminate.
Qed.

Lemma is_nan_spec (x : float) : is_nan x = true <-> Prim2SF x = S754_nan.
Proof.
  unfold is_nan. rewrite eqb_spec. unfold SFeqb. split.
  - intros H. destruct (SFcompare (Prim2SF x) (Prim2SF x)) as [c|] eqn:E.
    + destruct (Prim2SF x) as [s | s | | s m e] eqn:Ex; [| | reflexivity |];
        rewrite SFcompare_refl in E by discriminate;
        injection E as <-; discriminate.
    + apply SFcompare_None in E. tauto.
  - intros ->. reflexivity.
Qed.

Lemma is_nan_true (x : float) : is_nan x = true -> x = nan.
Proof.
  intros H. apply is_nan_spec in H. apply Prim2SF_inj. now rewrite H.
Qed.

Lemma is_nan_false (x : float) : is_nan x = false <-> Prim2SF x <> S754_nan.
Proof.
  rewrite <- is_nan_spec. destruct (is_nan x); split; congruence.
Qed.

(** The outcome of comparing two numbers. *)
Local Abbreviation cmp x y := (SFcompare (Prim2SF x) (Prim2SF y)).

Lemma ltb_cmp (x y : float) : (x <? y) = true <-> cmp x y = Some Lt.
Proof.
  rewrite ltb_spec. unfold SFltb.
  destruct (SFcompare _ _) as [[| |]|]; split; congruence.
Qed.

Lemma leb_cmp (x y : float) :
  (x <=? y) = true <-> cmp x y = Some Lt \/ cmp x y = Some Eq.
Proof.
  rewrite leb_spec. unfold SFleb.
  destruct (SFcompare _ _) as [[| |]|]; split; intros H;
    try congruence; auto; destruct H; congruence.
Qed.

Lemma cmp_total (x y : float) :
  is_nan x = false -> is_nan y = false ->
  exists c, cmp x y = Some c /\ cmp y x = Some (CompOpp c).
Proof.
  intros Hx Hy. apply is_nan_false in Hx, Hy.
  destruct (SFcompare (Prim2SF x) (Prim2SF y)) as [c|] eqn:E.
  - exists c. split; [reflexivity|]. now rewrite SFcompare_antisym, E.
  - apply SFcompare_None in E. tauto.
Qed.

Lemma ltb_not_nan (x y : float) :
  (x <? y) = true -> is_nan x = false /\ is_nan y = false.
Proof.
  intros H. apply ltb_cmp in H.
  split; apply is_nan_false; intros E; rewrite E in H;
    [discriminate | now destruct (Prim2SF x)].
Qed.

(** [Math.min] and [Math.max] return one of their arguments, or [NaN]. *)
Lemma Math_min_cases (a b : float) :
  (is_nan a || is_nan b = true /\ B64.Math_min a b = nan) \/
  (is_nan a = false /\ is_nan b = false /\
   ((B64.Math_min a b = a /\ (a <=? b) = true) \/
    (B64.Math_min a b = b /\ (b <=? a) = true))).
Proof.
  unfold B64.Math_min.
  destruct (is_nan a) eqn:Ha; [left; auto|].
  destruct (is_nan b) eqn:Hb; [left; auto|]. cbn [orb].
  right. split; [reflexivity|]. split; [reflexivity|].
  destruct (cmp_total a b Ha Hb) as (c & Hab & Hba).
  destruct (a <? b) eqn:E1.
  - left. split; [reflexivity|]. apply leb_cmp. left. now apply ltb_cmp.
  - destruct (b <? a) eqn:E2.
    + right. split; [reflexivity|]. apply leb_cmp. left. now apply ltb_cmp.
    + assert (c = Eq) as ->.
      { destruct c; [reflexivity | |].
        - apply ltb_cmp in Hab. congruence.
        - apply ltb_cmp in Hba. congruence. }
      destruct (get_sign a).
      * left. split; [reflexivity|]. apply leb_cmp. auto.
      * right. split; [reflexivity|]. apply leb_cmp. auto.
Qed.

Lemma Math_max_cases (a b : float) :
  (is_nan a || is_nan b = true /\ B64.Math_max a b = nan) \/
  (is_nan a = false /\ is_nan b = false /\
   ((B64.Math_max a b = a /\ (b <=? a) = true) \/
    (B64.Math_max a b = b /\ (a <=? b) = true))).
Proof.
  unfold B64.Math_max.
  destruct (is_nan a) eqn:Ha; [left; auto|].
  destruct (is_nan b) eqn:Hb; [left; auto|]. cbn [orb].
  right. split; [reflexivity|]. split; [reflexivity|].
  destruct (cmp_total a b Ha Hb) as (c & Hab & Hba).
  destruct (a <? b) eqn:E1.
  - right. split; [reflexivity|]. apply leb_cmp. left. now apply ltb_cmp.
  - destruct (b <? a) eqn:E2.
    + left. split; [reflexivity|]. apply leb_cmp. left. now apply ltb_cmp.
    + assert (c = Eq) as ->.
      { destruct c; [reflexivity | |].
        - apply ltb_cmp in Hab. congruence.
        - apply ltb_cmp in Hba. congruence. }
      destruct (get_sign a).
      * right. split; [reflexivity|]. apply leb_cmp. auto.
      * left. split; [reflexivity|]. apply leb_cmp. auto.
Qed.

(** The clamp of a number to [[lo, hi]], for bounds in order: [NaN] stays
    [NaN], any other number ends within the bounds. *)
Lemma clamp_bounds (lo hi q : float) :
  (lo <=? hi) = true ->
  (is_nan q = true /\ B64.clamp lo hi q = nan) \/
  (is_nan q = false /\
   (lo <=? B64.clamp lo hi q) = true /\ (B64.clamp lo hi q <=? hi) = true).
Proof.
  intros Hlh. unfold B64.clamp.
  assert (Hlo : is_nan lo = false /\ is_nan hi = false).
  { apply leb_cmp in Hlh.
    split; apply is_nan_false; intros E; rewrite E in Hlh;
      [destruct Hlh; discriminate | destruct (Prim2SF lo), Hlh; discriminate]. }
  destruct Hlo as [Hlo Hhi].
  assert (Hrefl : forall v, is_nan v = false -> (v <=? v) = true).
  { intros v Hv. apply leb_cmp. right.
    apply SFcompare_refl. now apply is_nan_false. }
  destruct (Math_min_cases hi q) as [[Hn Hm] | (_ & Hq & Hm)].
  - rewrite Hhi in Hn. cbn [orb] in Hn. left. split; [exact Hn|].
    rewrite Hm. unfold B64.Math_max. now rewrite Hlo.
  - right. split; [exact Hq|].
    destruct Hm as [[-> _] | [-> Hqh]].
    + destruct (Math_max_cases lo hi) as [[Hn _] | (_ & _ & [[-> _] | [-> _]])].
      * rewrite Hlo, Hhi in Hn. discriminate.
      * split; [now apply Hrefl | exact Hlh].
      * split; [exact Hlh | now apply Hrefl].
    + destruct (Math_max_cases lo q) as [[Hn _] | (_ & _ & [[-> _] | [-> Hlq]])].
      * rewrite Hlo, Hq in Hn. discriminate.
      * split; [now apply Hrefl | exact Hlh].
      * split; assumption.
Qed.

(** ** Rounding to binary64 *)

Import Rounding.

Section RoundingFacts.
Local Open Scope Z_scope.

(** *** Number of binary digits *)

Lemma digits2_bounds (p : positive) :
  2 ^ (Zpos (digits2_pos p) - 1) <= Zpos p < 2 ^ Zpos (digits2_pos p).
Proof.
  induction p as [p IH | p IH |]; cbn [digits2_pos].
  - rewrite Pos2Z.inj_succ.
    replace (Z.succ (Zpos (digits2_pos p)) - 1) with (Z.succ (Zpos (digits2_pos p) - 1)) by lia.
    rewrite !Z.pow_succ_r by lia. lia.
  - rewrite Pos2Z.inj_succ.
    replace (Z.succ (Zpos (digits2_pos p)) - 1) with (Z.succ (Zpos (digits2_pos p) - 1)) by lia.
    rewrite !Z.pow_succ_r by lia. lia.
  - simpl. lia.
Qed.

Lemma digits2_unique (p : positive) (k : Z) :
  2 ^ (k - 1) <= Zpos p < 2 ^ k -> Zpos (digits2_pos p) = k.
Proof.
  intros [Hlo Hhi]. pose proof (digits2_bounds p) as [Dlo Dhi].
  set (d := Zpos (digits2_pos p)) in *.
  assert (Hd : 0 < d) by (unfold d; lia).
  destruct (Z.lt_trichotomy d k) as [Hlt | [Heq | Hgt]]; [| exact Heq |].
  - assert (2 ^ d <= 2 ^ (k - 1)) by (apply Z.pow_le_mono_r; lia). lia.
  - destruct (Z.le_gt_cases k 0) as [Hk | Hk].
    + assert (2 ^ k <= 1).
      { destruct (Z.eq_dec k 0) as [-> | ?]; [simpl; lia|].
        rewrite Z.pow_neg_r by lia. lia. }
      lia.
    + assert (2 ^ k <= 2 ^ (d - 1)) by (apply Z.pow_le_mono_r; lia). lia.
Qed.

(** *** Shifting with a round bit and a sticky bit *)

Lemma iter_pos_nat {A : Type} (f : A -> A) (p : positive) (x : A) :
  iter_pos f p x = Nat.iter (Pos.to_nat p) f x.
Proof.
  revert x. induction p as [p IH | p IH |]; intros x; cbn [iter_pos].
  - rewrite !IH, Pos2Nat.inj_xI.
    replace (S (2 * Pos.to_nat p))%nat with (Pos.to_nat p + S (Pos.to_nat p))%nat by lia.
    rewrite Nat.iter_add. f_equal. now rewrite Nat.iter_swap.
  - rewrite !IH, Pos2Nat.inj_xO.
    replace (2 * Pos.to_nat p)%nat with (Pos.to_nat p + Pos.to_nat p)%nat by lia.
    now rewrite Nat.iter_add.
  - reflexivity.
Qed.

Lemma shr_1_nonneg (m : Z) (r s : bool) :
  0 <= m ->
  shr_1 (Build_shr_record m r s) = Build_shr_record (m / 2) (Z.odd m) (r || s).
Proof.
  intros Hm. destruct m as [|p|p]; [reflexivity | | lia].
  destruct p as [p | p |]; cbn [shr_1].
  - f_equal. rewrite Pos2Z.inj_xI.
    apply Z.div_unique with (r := 1); lia.
  - f_equal. rewrite Pos2Z.inj_xO.
    apply Z.div_unique with (r := 0); lia.
  - reflexivity.
Qed.

(** After [n + 1] shifts: the quotient by [2^(n+1)], the bit below it,
    and whether anything is left below that bit. *)
Lemma shr_iter (n : nat) (m : Z) (r s : bool) :
  0 <= m ->
  Nat.iter (S n) shr_1 (Build_shr_record m r s)
  = Build_shr_record (m / 2 ^ Z.of_nat (S n))
      (Z.odd (m / 2 ^ Z.of_nat n))
      (r || s || negb (m mod 2 ^ Z.of_nat n =? 0)).
Proof.
  intros Hm. induction n as [|n IH].
  - cbn [Nat.iter]. rewrite shr_1_nonneg by exact Hm.
    change (2 ^ Z.of_nat 1) with 2. change (2 ^ Z.of_nat 0) with 1.
    rewrite Z.div_1_r, Z.mod_1_r. cbn. now rewrite orb_false_r.
  - change (Nat.iter (S (S n)) shr_1 ?x) with (shr_1 (Nat.iter (S n) shr_1 x)).
    rewrite IH.
    assert (Hp : 0 < 2 ^ Z.of_nat n) by (apply Z.pow_pos_nonneg; lia).
    assert (Hq : 0 <= m / 2 ^ Z.of_nat (S n)) by (apply Z.div_pos; [|apply Z.pow_pos_nonneg]; lia).
    rewrite shr_1_nonneg by exact Hq.
    rewrite Z.div_div by (try apply Z.pow_pos_nonneg; lia).
    replace (2 ^ Z.of_nat (S n) * 2) with (2 ^ Z.of_nat (S (S n)))
      by (rewrite (Nat2Z.inj_succ (S n)), Z.pow_succ_r; lia).
    f_equal.
    rewrite (Nat2Z.inj_succ n), Z.pow_succ_r by lia.
    set (P := 2 ^ Z.of_nat n) in *.
    pose proof (Z.div_mod m P ltac:(lia)) as E1.
    pose proof (Z.mod_pos_bound m P Hp) as B1.
    pose proof (Z.div_mod (m / P) 2 ltac:(lia)) as E2.
    pose proof (Zmod_odd (m / P)) as Ho.
    assert (E3 : m mod (2 * P) = P * ((m / P) mod 2) + m mod P).
    { symmetry. apply Z.mod_unique with (q := m / P / 2).
      - destruct (Z.odd (m / P)); nia.
      - nia. }
    rewrite E3.
    destruct (Z.odd (m / P)); rewrite Ho.
    + replace (P * 1 + m mod P =? 0) with false
        by (symmetry; apply Z.eqb_neq; lia).
      cbn. now rewrite !orb_true_r.
    + cbn [orb]. now rewrite Z.mul_0_r, Z.add_0_l.
Qed.

Lemma loc_of_shr_record_of_loc (m : Z) (l : location) :
  loc_of_shr_record (shr_record_of_loc m l) = l.
Proof. now destruct l as [|[| |]]. Qed.

Lemma shr_m_of_loc (m : Z) (l : location) : shr_m (shr_record_of_loc m l) = m.
Proof. now destruct l as [|[| |]]. Qed.

Lemma shr_record_of_loc_bits (m : Z) (l : location) :
  exists rb sb : bool,
    shr_record_of_loc m l = Build_shr_record m rb sb /\
    (rb || sb = match l with loc_Exact => false | _ => true end).
Proof. destruct l as [|[| |]]; eexists _, _; split; reflexivity. Qed.

(** *** Rounding after a shift *)

(** Shifting [m0 + r0 / d] by [n] binary places and rounding the result
    to the nearest integer, ties to even, rounds [(m0 * d + r0) / (d * 2^n)]. *)
Lemma round_shr (m0 r0 d e n : Z) :
  0 <= m0 -> 0 <= r0 < d -> 0 <= n ->
  let '(mrs, e') := shr (shr_record_of_loc m0 (locOf r0 d)) e n in
  round_nearest_even (shr_m mrs) (loc_of_shr_record mrs)
  = rneZ (m0 * d + r0) (d * 2 ^ n) /\
  e' = e + n.
Proof.
  intros Hm Hr Hn. destruct n as [|p|p]; [| | lia].
  - cbn [shr]. rewrite loc_of_shr_record_of_loc, shr_m_of_loc.
    split; [|lia]. change (2 ^ 0) with 1. rewrite Z.mul_1_r.
    unfold rneZ.
    assert (Eq1 : (m0 * d + r0) / d = m0)
      by (symmetry; apply Z.div_unique with (r := r0); lia).
    assert (Eq2 : (m0 * d + r0) mod d = r0)
      by (symmetry; apply Z.mod_unique with (q := m0); lia).
    rewrite Eq1, Eq2. unfold locOf.
    destruct (Z.eqb_spec r0 0) as [-> | Hr0].
    + cbn [round_nearest_even]. 
      replace (2 * 0 ?= d) with Lt by (symmetry; apply Z.compare_lt_iff; lia).
      reflexivity.
    + cbn [round_nearest_even]. now destruct (2 * r0 ?= d).
  - cbn [shr]. split; [|reflexivity].
    rewrite iter_pos_nat.
    destruct (Pos2Nat.is_succ p) as [k Hk]. rewrite Hk.
    destruct (shr_record_of_loc_bits m0 (locOf r0 d)) as (rb & sb & -> & Hbits).
    rewrite shr_iter by exact Hm. cbn [shr_m loc_of_shr_record].
    assert (Ep : Zpos p = Z.of_nat (S k)) by lia.
    rewrite Ep. rewrite (Nat2Z.inj_succ k), Z.pow_succ_r by lia.
    set (P := 2 ^ Z.of_nat k) in *.
    assert (HP : 0 < P) by (apply Z.pow_pos_nonneg; lia).
    pose proof (Z.div_mod m0 P ltac:(lia)) as E1.
    pose proof (Z.mod_pos_bound m0 P HP) as B1.
    pose proof (Z.div_mod (m0 / P) 2 ltac:(lia)) as E2.
    pose proof (Zmod_odd (m0 / P)) as Ho.
    set (b := (m0 / P) mod 2) in *.
    set (k2 := m0 / P / 2) in *.
    set (rho := m0 mod P) in *.
    assert (Hb : b = 0 \/ b = 1) by (destruct (Z.odd (m0 / P)); lia).
    assert (Eq1 : m0 / (2 * P) = k2).
    { symmetry. apply Z.div_unique with (r := P * b + rho); nia. }
    assert (Eq2 : (m0 * d + r0) / (d * (2 * P)) = k2).
    { symmetry. apply Z.div_unique with (r := (P * b + rho) * d + r0); nia. }
    assert (Eq3 : (m0 * d + r0) mod (d * (2 * P)) = (P * b + rho) * d + r0).
    { symmetry. apply Z.mod_unique with (q := k2); nia. }
    unfold rneZ. rewrite Eq1, Eq2, Eq3.
    assert (Hs : rb || sb = negb (r0 =? 0)).
    { rewrite Hbits. unfold locOf. now destruct (r0 =? 0). }
    rewrite Hs.
    destruct (Z.odd (m0 / P)) eqn:Eo.
    + assert (b = 1) by lia.
      destruct (Z.eqb_spec r0 0) as [-> | Hr0];
        destruct (Z.eqb_spec rho 0) as [Hrho | Hrho]; cbn [negb orb loc_of_shr_record round_nearest_even].
      * replace (2 * ((P * b + rho) * d + 0) ?= d * (2 * P)) with Eq
          by (symmetry; apply Z.compare_eq_iff; nia).
        reflexivity.
      * replace (2 * ((P * b + rho) * d + 0) ?= d * (2 * P)) with Gt
          by (symmetry; apply Z.compare_gt_iff; nia).
        reflexivity.
      * replace (2 * ((P * b + rho) * d + r0) ?= d * (2 * P)) with Gt
          by (symmetry; apply Z.compare_gt_iff; nia).
        reflexivity.
      * replace (2 * ((P * b + rho) * d + r0) ?= d * (2 * P)) with Gt
          by (symmetry; apply Z.compare_gt_iff; nia).
        reflexivity.
    + assert (b = 0) by lia.
      replace (2 * ((P * b + rho) * d + r0) ?= d * (2 * P)) with Lt
        by (symmetry; apply Z.compare_lt_iff; nia).
      now destruct (negb (r0 =? 0) || negb (rho =? 0)).
Qed.

(** *** The nearest integer is monotone *)

Lemma rneZ_bounds (N D : Z) :
  0 < D ->
  (2 * rneZ N D - 1) * D <= 2 * N <= (2 * rneZ N D + 1) * D.
Proof.
  intros HD. unfold rneZ.
  pose proof (Z.div_mod N D ltac:(lia)) as E.
  pose proof (Z.mod_pos_bound N D HD) as B.
  set (q := N / D) in *. set (rho := N mod D) in *.
  assert (Hq : forall k, (2 * k - 1) * D = 2 * (D * k) - D
                         /\ (2 * k + 1) * D = 2 * (D * k) + D)
    by (intros; split; ring).
  assert (Hq1 : D * (q + 1) = D * q + D) by ring.
  destruct (Z.compare_spec (2 * rho) D) as [C | C | C].
  - destruct (Z.even q);
      [destruct (Hq q) as [-> ->] | destruct (Hq (q + 1)) as [-> ->]]; lia.
  - destruct (Hq q) as [-> ->]. lia.
  - destruct (Hq (q + 1)) as [-> ->]. lia.
Qed.

(** On a tie the result is even. *)
Lemma rneZ_tie_low (N D : Z) :
  0 < D -> 2 * N = (2 * rneZ N D + 1) * D -> Z.even (rneZ N D) = true.
Proof.
  intros HD H. unfold rneZ in *.
  pose proof (Z.div_mod N D ltac:(lia)) as E.
  pose proof (Z.mod_pos_bound N D HD) as B.
  set (q := N / D) in *. set (rho := N mod D) in *.
  assert (Hq : forall k, (2 * k + 1) * D = 2 * (D * k) + D) by (intros; ring).
  assert (Hq1 : D * (q + 1) = D * q + D) by ring.
  destruct (Z.compare_spec (2 * rho) D) as [C | C | C].
  - destruct (Z.even q) eqn:Ev; [exact Ev | rewrite Hq in H; lia].
  - rewrite Hq in H. lia.
  - rewrite Hq in H. lia.
Qed.

Lemma rneZ_tie_high (N D : Z) :
  0 < D -> 2 * N = (2 * rneZ N D - 1) * D -> Z.even (rneZ N D) = true.
Proof.
  intros HD H. unfold rneZ in *.
  pose proof (Z.div_mod N D ltac:(lia)) as E.
  pose proof (Z.mod_pos_bound N D HD) as B.
  set (q := N / D) in *. set (rho := N mod D) in *.
  assert (Hq : forall k, (2 * k - 1) * D = 2 * (D * k) - D) by (intros; ring).
  assert (Hq1 : D * (q + 1) = D * q + D) by ring.
  destruct (Z.compare_spec (2 * rho) D) as [C | C | C].
  - destruct (Z.even q) eqn:Ev; [rewrite Hq in H; lia|].
    rewrite Z.even_add, Ev. reflexivity.
  - rewrite Hq in H. lia.
  - rewrite Hq in H. lia.
Qed.

Lemma rneZ_mono (N1 D1 N2 D2 : Z) :
  0 < D1 -> 0 < D2 -> N1 * D2 <= N2 * D1 ->
  rneZ N1 D1 <= rneZ N2 D2.
Proof.
  intros H1 H2 Hle.
  pose proof (rneZ_bounds N1 D1 H1) as [L1 U1].
  pose proof (rneZ_bounds N2 D2 H2) as [L2 U2].
  destruct (Z.le_gt_cases (rneZ N1 D1) (rneZ N2 D2)) as [?|Hgt]; [assumption|].
  exfalso.
  set (k1 := rneZ N1 D1) in *. set (k2 := rneZ N2 D2) in *.
  (* (2 k1 - 1) D1 D2 <= 2 N1 D2 <= 2 N2 D1 <= (2 k2 + 1) D1 D2 *)
  assert (A1 : (2 * k1 - 1) * (D1 * D2) <= 2 * N1 * D2) by nia.
  assert (A2 : 2 * N2 * D1 <= (2 * k2 + 1) * (D1 * D2)) by nia.
  assert (HDD : 0 < D1 * D2) by nia.
  assert (Hk : k1 = k2 + 1) by nia.
  assert (T1 : 2 * N1 = (2 * k1 - 1) * D1) by nia.
  assert (T2 : 2 * N2 = (2 * k2 + 1) * D2) by nia.
  pose proof (rneZ_tie_high N1 D1 H1 T1) as Ev1.
  pose proof (rneZ_tie_low N2 D2 H2 T2) as Ev2.
  fold k1 in Ev1. fold k2 in Ev2.
  rewrite Hk, Z.even_add, Ev2 in Ev1. discriminate Ev1.
Qed.

Lemma fexp_fexp64 (u : Z) : fexp prec emax u = fexp64 u.
Proof. reflexivity. Qed.

Lemma Zdigits2_bounds (m : Z) :
  0 <= m -> 0 <= Zdigits2 m /\ m < 2 ^ Zdigits2 m /\
  (0 < m -> 2 ^ (Zdigits2 m - 1) <= m).
Proof.
  intros Hm. destruct m as [|p|p]; [| | lia].
  - cbn. lia.
  - cbn [Zdigits2]. pose proof (digits2_bounds p). lia.
Qed.

Lemma rneZ_floor (m0 r0 d n : Z) :
  0 <= m0 -> 0 <= r0 < d -> 0 <= n ->
  m0 / 2 ^ n <= rneZ (m0 * d + r0) (d * 2 ^ n) <= m0 / 2 ^ n + 1.
Proof.
  intros Hm Hr Hn.
  assert (HP : 0 < 2 ^ n) by (apply Z.pow_pos_nonneg; lia).
  set (P := 2 ^ n) in *.
  pose proof (Z.div_mod m0 P ltac:(lia)) as E1.
  pose proof (Z.mod_pos_bound m0 P HP) as B1.
  assert (Eq : (m0 * d + r0) / (d * P) = m0 / P).
  { symmetry. apply Z.div_unique with (r := (m0 mod P) * d + r0); nia. }
  unfold rneZ. rewrite Eq.
  destruct (2 * _ ?= d * P); [destruct (Z.even _)| |]; lia.
Qed.

(** *** What [binary_round_aux] returns *)

Lemma second_shift (m1 g : Z) :
  0 <= m1 <= 2 ^ 53 -> -1074 <= g ->
  (let '(mrs, e) := shr_fexp prec emax m1 g loc_Exact in
   match shr_m mrs with
   | Z0 => S754_zero false
   | Zpos m => if e <=? emax - prec then S754_finite false m e
               else S754_infinity false
   | Zneg _ => S754_nan
   end) = encode m1 g.
Proof.
  intros Hm1 Hg. unfold shr_fexp. rewrite fexp_fexp64.
  change (emax - prec) with 971. cbn [shr_record_of_loc].
  destruct (Z.eq_dec m1 9007199254740992) as [-> | N53].
  - change (Zdigits2 9007199254740992) with 54.
    replace (fexp64 (54 + g) - g) with 1 by (unfold fexp64; lia).
    reflexivity.
  - change (2 ^ 53) with 9007199254740992 in Hm1.
    destruct m1 as [|p|p]; [| | lia].
    + change (Zdigits2 0) with 0.
      assert (Hs : fexp64 (0 + g) - g <= 0) by (unfold fexp64; lia).
      destruct (fexp64 (0 + g) - g) as [|q|q] eqn:Es; [| lia |]; reflexivity.
    + pose proof (Zdigits2_bounds (Zpos p) ltac:(lia)) as (_ & _ & Hge1).
      specialize (Hge1 ltac:(lia)).
      assert (Hd1 : Zdigits2 (Zpos p) <= 53).
      { destruct (Z.le_gt_cases (Zdigits2 (Zpos p)) 53) as [?|Hgt]; [assumption|].
        assert (2 ^ 53 <= 2 ^ (Zdigits2 (Zpos p) - 1)) by (apply Z.pow_le_mono_r; lia).
        change (2 ^ 53) with 9007199254740992 in *. lia. }
      assert (Hs : fexp64 (Zdigits2 (Zpos p) + g) - g <= 0) by (unfold fexp64; lia).
      unfold encode. change (2 ^ 53) with 9007199254740992.
      destruct (Z.eqb_spec (Zpos p) 9007199254740992) as [?|_]; [contradiction|].
      destruct (fexp64 (Zdigits2 (Zpos p) + g) - g) as [|q|q] eqn:Es; [| lia |];
        cbn [shr shr_m]; reflexivity.
Qed.

Lemma binary_round_aux_spec (m0 r0 d e0 : Z) :
  0 <= m0 -> 0 <= r0 < d ->
  e0 <= fexp64 (Zdigits2 m0 + e0) ->
  binary_round_aux prec emax false m0 e0 (locOf r0 d)
  = encode (rneZ (m0 * d + r0) (d * 2 ^ (fexp64 (Zdigits2 m0 + e0) - e0)))
           (fexp64 (Zdigits2 m0 + e0)) /\
  0 <= rneZ (m0 * d + r0) (d * 2 ^ (fexp64 (Zdigits2 m0 + e0) - e0)) <= 2 ^ 53.
Proof.
  intros Hm Hr Hshift.
  remember (fexp64 (Zdigits2 m0 + e0)) as g eqn:Eg.
  assert (Hn : 0 <= g - e0) by lia.
  pose proof (Zdigits2_bounds m0 Hm) as (Hd0 & Hlt & Hge).
  pose proof (rneZ_floor m0 r0 d (g - e0) Hm Hr Hn) as [Rlo Rhi].
  remember (rneZ (m0 * d + r0) (d * 2 ^ (g - e0))) as m1 eqn:Em1.
  assert (HP : 0 < 2 ^ (g - e0)) by (apply Z.pow_pos_nonneg; lia).
  assert (Hq : m0 / 2 ^ (g - e0) < 2 ^ 53).
  { apply Z.div_lt_upper_bound; [exact HP|].
    assert (Zdigits2 m0 <= g - e0 + 53) by (rewrite Eg; unfold fexp64; lia).
    assert (2 ^ Zdigits2 m0 <= 2 ^ (g - e0 + 53)) by (apply Z.pow_le_mono_r; lia).
    rewrite Z.pow_add_r in H0 by lia. lia. }
  assert (Hq0 : 0 <= m0 / 2 ^ (g - e0)) by (apply Z.div_pos; lia).
  assert (Hm1 : 0 <= m1 <= 2 ^ 53) by lia.
  split; [|exact Hm1].
  assert (Hg : -1074 <= g) by (rewrite Eg; unfold fexp64; lia).
  rewrite <- (second_shift m1 g Hm1 Hg).
  unfold binary_round_aux. unfold shr_fexp at 1. rewrite fexp_fexp64, <- Eg.
  pose proof (round_shr m0 r0 d e0 (g - e0) Hm Hr Hn) as Hr1.
  destruct (shr (shr_record_of_loc m0 (locOf r0 d)) e0 (g - e0)) as [mrs' e'].
  destruct Hr1 as [Hr1 He']. rewrite Hr1, <- Em1.
  replace e' with g by lia. reflexivity.
Qed.

(** *** The order of the rounded numbers *)

Lemma SFleb_finite (p p' : positive) (g g' : Z) :
  g < g' \/ (g = g' /\ Zpos p <= Zpos p') ->
  SFleb (S754_finite false p g) (S754_finite false p' g') = true.
Proof.
  intros H. unfold SFleb, SFcompare.
  destruct (Z.compare_spec g g') as [E | L | G]; [| reflexivity | lia].
  change (Pos.compare_cont Eq p p') with (Pos.compare p p').
  destruct (Pos.compare_spec p p') as [? | ? | ?]; try reflexivity. lia.
Qed.

Lemma encode_mono_same (m1 m2 g : Z) :
  0 <= m1 <= m2 -> m2 <= 2 ^ 53 ->
  SFleb (encode m1 g) (encode m2 g) = true.
Proof.
  intros H1 H2. change (2 ^ 53) with 9007199254740992 in *.
  unfold encode. change (2 ^ 53) with 9007199254740992.
  destruct m1 as [|p1|p1]; [| | lia]; (destruct m2 as [|p2|p2]; [| | lia]); try lia.
  - reflexivity.
  - destruct (Z.eqb_spec (Zpos p2) 9007199254740992);
      [destruct (g + 1 <=? 971) | destruct (g <=? 971)]; reflexivity.
  - destruct (Z.eqb_spec (Zpos p1) 9007199254740992) as [E1 | N1];
      destruct (Z.eqb_spec (Zpos p2) 9007199254740992) as [E2 | N2]; try lia.
    + destruct (g + 1 <=? 971); [|reflexivity].
      apply SFleb_finite. lia.
    + destruct (Z.leb_spec (g + 1) 971), (Z.leb_spec g 971); try lia;
        try reflexivity.
      apply SFleb_finite. lia.
    + destruct (Z.leb_spec g 971); [|reflexivity].
      apply SFleb_finite. lia.
Qed.

Lemma encode_mono_next (m1 m2 g1 g2 : Z) :
  g1 < g2 -> 0 <= m1 <= 2 ^ 53 -> 2 ^ 52 <= m2 <= 2 ^ 53 ->
  SFleb (encode m1 g1) (encode m2 g2) = true.
Proof.
  intros Hg H1 H2. change (2 ^ 53) with 9007199254740992 in *.
  change (2 ^ 52) with 4503599627370496 in *.
  unfold encode. change (2 ^ 53) with 9007199254740992.
  destruct m2 as [|p2|p2]; [lia | | lia].
  destruct m1 as [|p1|p1]; [| | lia].
  - destruct (Z.eqb_spec (Zpos p2) 9007199254740992);
      [destruct (g2 + 1 <=? 971) | destruct (g2 <=? 971)]; reflexivity.
  - destruct (Z.eqb_spec (Zpos p1) 9007199254740992) as [E1 | N1];
      destruct (Z.eqb_spec (Zpos p2) 9007199254740992) as [E2 | N2];
      repeat match goal with
             | |- context [?a <=? 971] => destruct (Z.leb_spec a 971)
             end; try lia; try reflexivity; apply SFleb_finite; lia.
Qed.

(** *** Rounding is monotone *)

(** Two numbers to round, [(m0 + r0/d) * 2^e0], the first not above the
    second. *)
Lemma round_mono (m1 r1 d1 e1 m2 r2 d2 e2 : Z) :
  0 <= m1 -> 0 <= r1 < d1 -> e1 <= fexp64 (Zdigits2 m1 + e1) ->
  0 <= m2 -> 0 <= r2 < d2 -> e2 <= fexp64 (Zdigits2 m2 + e2) ->
  (forall G, e1 <= G -> e2 <= G ->
     (m1 * d1 + r1) * d2 * 2 ^ (G - e2) <= (m2 * d2 + r2) * d1 * 2 ^ (G - e1)) ->
  SFleb (binary_round_aux prec emax false m1 e1 (locOf r1 d1))
        (binary_round_aux prec emax false m2 e2 (locOf r2 d2)) = true.
Proof.
  intros Hm1 Hr1 Hs1 Hm2 Hr2 Hs2 Hle.
  destruct (binary_round_aux_spec m1 r1 d1 e1 Hm1 Hr1 Hs1) as [-> B1].
  destruct (binary_round_aux_spec m2 r2 d2 e2 Hm2 Hr2 Hs2) as [-> B2].
  pose proof (Zdigits2_bounds m1 Hm1) as (Hd1 & Hlt1 & Hge1).
  pose proof (Zdigits2_bounds m2 Hm2) as (Hd2 & Hlt2 & Hge2).
  remember (Zdigits2 m1 + e1) as u1 eqn:Eu1. remember (Zdigits2 m2 + e2) as u2 eqn:Eu2.
  assert (Hg : fexp64 u1 <= fexp64 u2).
  { destruct (Z.eq_dec m1 0) as [E0 | N0].
    - rewrite E0 in *. change (Zdigits2 0) with 0 in *.
      unfold fexp64 in *. lia.
    - (* 2^(u1 - 1) <= v1 <= v2 < 2^u2 *)
      assert (Hu : u1 <= u2); [|unfold fexp64; lia].
      destruct (Z.le_gt_cases u1 u2) as [?|Hgt]; [assumption|]. exfalso.
      set (G := Z.max e1 e2).
      specialize (Hle G ltac:(lia) ltac:(lia)).
      specialize (Hge1 ltac:(lia)).
      assert (P1 : 0 < 2 ^ (G - e2)) by (apply Z.pow_pos_nonneg; lia).
      assert (P2 : 0 < 2 ^ (G - e1)) by (apply Z.pow_pos_nonneg; lia).
      (* m1 * 2^(G - e2) < (m2 + 1) * 2^(G - e1) *)
      assert (A : m1 * 2 ^ (G - e2) < (m2 + 1) * 2 ^ (G - e1)).
      { set (W1 := 2 ^ (G - e2)) in *. set (W2 := 2 ^ (G - e1)) in *.
        assert (Q1 : 0 <= r1 * (d2 * W1)) by (apply Z.mul_nonneg_nonneg; nia).
        assert (Q2 : 0 < (d2 - r2) * (d1 * W2)) by (apply Z.mul_pos_pos; nia).
        assert (m1 * d1 * d2 * W1 < (m2 + 1) * d2 * d1 * W2).
        { replace (m1 * d1 * d2 * W1)
            with ((m1 * d1 + r1) * d2 * W1 - r1 * (d2 * W1)) by ring.
          replace ((m2 + 1) * d2 * d1 * W2)
            with ((m2 * d2 + r2) * d1 * W2 + (d2 - r2) * (d1 * W2)) by ring.
          lia. }
        assert (0 < d1 * d2) by nia.
        replace (m1 * d1 * d2 * W1) with ((m1 * W1) * (d1 * d2)) in H by ring.
        replace ((m2 + 1) * d2 * d1 * W2) with (((m2 + 1) * W2) * (d1 * d2)) in H by ring.
        apply Z.mul_lt_mono_pos_r in H; assumption. }
      assert (B : 2 ^ (Zdigits2 m1 - 1) * 2 ^ (G - e2) < 2 ^ Zdigits2 m2 * 2 ^ (G - e1)) by nia.
      assert (Hd1' : 0 < Zdigits2 m1).
      { destruct m1 as [|p|p]; [lia | cbn; lia | lia]. }
      rewrite <- !Z.pow_add_r in B by lia.
      apply Z.pow_lt_mono_r_iff in B; [|lia|lia].
      lia. }
  destruct (Z.eq_dec (fexp64 u1) (fexp64 u2)) as [Eg | Ng].
  - rewrite Eg in *. apply encode_mono_same; [|lia].
    split; [lia|].
    apply rneZ_mono.
    + assert (0 < 2 ^ (fexp64 u1 - e1)) by (apply Z.pow_pos_nonneg; lia). nia.
    + assert (0 < 2 ^ (fexp64 u2 - e2)) by (apply Z.pow_pos_nonneg; lia). nia.
    + specialize (Hle (fexp64 u2) ltac:(lia) ltac:(lia)).
      replace ((m1 * d1 + r1) * (d2 * 2 ^ (fexp64 u2 - e2)))
        with ((m1 * d1 + r1) * d2 * 2 ^ (fexp64 u2 - e2)) by ring.
      replace ((m2 * d2 + r2) * (d1 * 2 ^ (fexp64 u2 - e1)))
        with ((m2 * d2 + r2) * d1 * 2 ^ (fexp64 u2 - e1)) by ring.
      exact Hle.
  - apply encode_mono_next; [lia | lia |].
    split; [|lia].
    assert (Hbig : fexp64 u2 = u2 - 53 /\ -1074 < u2 - 53) by (unfold fexp64 in *; lia).
    destruct Hbig as [Eg2 Hbig].
    assert (N2 : 0 < m2).
    { destruct (Z.eq_dec m2 0) as [E0|?]; [|lia].
      rewrite E0 in *. change (Zdigits2 0) with 0 in *. unfold fexp64 in *. lia. }
    specialize (Hge2 N2).
    pose proof (rneZ_floor m2 r2 d2 (fexp64 u2 - e2) Hm2 Hr2 ltac:(lia)) as [Rlo _].
    apply Z.le_trans with (m := m2 / 2 ^ (fexp64 u2 - e2)); [|exact Rlo].
    rewrite Eg2.
    replace (u2 - 53 - e2) with (Zdigits2 m2 - 53) by lia.
    apply Z.div_le_lower_bound; [apply Z.pow_pos_nonneg; lia|].
    assert (53 <= Zdigits2 m2) by (unfold fexp64 in *; lia).
    rewrite <- Z.pow_add_r by lia.
    replace (Zdigits2 m2 - 53 + 52) with (Zdigits2 m2 - 1) by lia. exact Hge2.
Qed.

Lemma new_location_locOf (d r : Z) : new_location d r = locOf r d.
Proof.
  unfold new_location, new_location_even, new_location_odd, locOf.
  destruct (Z.even d) eqn:Ev; [reflexivity|].
  destruct (r =? 0); [reflexivity|]. f_equal.
  assert (Od : Z.odd d = true) by (rewrite <- Z.negb_even, Ev; reflexivity).
  apply Z.odd_spec in Od. destruct Od as [k ->].
  destruct (Z.compare_spec (2 * r + 1) (2 * k + 1)),
    (Z.compare_spec (2 * r) (2 * k + 1)); try reflexivity; lia.
Qed.

Lemma valid_mantissa (s : bool) (m : positive) (e : Z) :
  valid_binary (S754_finite s m e) = true -> Zpos m < 2 ^ 53.
Proof.
  cbn [SpecFloat.valid_binary]. unfold bounded, canonical_mantissa.
  intros H. apply andb_prop in H. destruct H as [H _].
  apply Z.eqb_eq in H. rewrite fexp_fexp64 in H.
  change (Zpos (digits2_pos m)) with (Zdigits2 (Zpos m)) in H.
  pose proof (Zdigits2_bounds (Zpos m) ltac:(lia)) as (_ & _ & Hge).
  specialize (Hge ltac:(lia)).
  assert (Hd : Zdigits2 (Zpos m) <= 53) by (unfold fexp64 in H; lia).
  apply Z.lt_le_trans with (m := 2 ^ Zdigits2 (Zpos m)).
  - apply (Zdigits2_bounds (Zpos m)). lia.
  - apply Z.pow_le_mono_r; lia.
Qed.

Lemma vle_of_leb (m1 m2 : positive) (e1 e2 : Z) :
  SFleb (S754_finite false m1 e1) (S754_finite false m2 e2) = true ->
  Zpos m1 < 2 ^ 53 -> 2 ^ 52 <= Zpos m2 ->
  vle (Zpos m1) e1 (Zpos m2) e2.
Proof.
  unfold SFleb, SFcompare. intros H H1 H2 K K1 K2.
  change (2 ^ 53) with 9007199254740992 in H1.
  change (2 ^ 52) with 4503599627370496 in H2.
  destruct (Z.compare_spec e1 e2) as [E | L | G]; [| | discriminate H].
  - subst e2. apply Z.mul_le_mono_nonneg_r; [apply Z.pow_nonneg; lia|].
    change (Pos.compare_cont Eq m1 m2) with (Pos.compare m1 m2) in H.
    destruct (Pos.compare_spec m1 m2); try lia; discriminate H.
  - replace (e2 + K) with ((e1 + K) + (e2 - e1)) by lia.
    rewrite (Z.pow_add_r 2 (e1 + K) (e2 - e1)) by lia.
    assert (P : 0 < 2 ^ (e1 + K)) by (apply Z.pow_pos_nonneg; lia).
    assert (Q : 2 ^ 1 <= 2 ^ (e2 - e1)) by (apply Z.pow_le_mono_r; lia).
    change (2 ^ 1) with 2 in Q.
    set (X := 2 ^ (e1 + K)) in *. set (Y := 2 ^ (e2 - e1)) in *.
    assert (S1 : Zpos m1 * X <= (2 * Zpos m2) * X)
      by (apply Z.mul_le_mono_nonneg_r; lia).
    assert (S2 : (Zpos m2 * X) * 2 <= (Zpos m2 * X) * Y)
      by (apply Z.mul_le_mono_nonneg_l; [apply Z.mul_nonneg_nonneg; lia | lia]).
    lia.
Qed.

Lemma encode_nonneg (s : bool) (m g : Z) :
  0 <= m -> SFleb (S754_zero s) (encode m g) = true.
Proof.
  intros Hm. unfold encode. destruct m as [|p|p]; [reflexivity | | lia].
  destruct (Z.pos p =? 2 ^ 53); [destruct (g + 1 <=? 971) | destruct (g <=? 971)];
    reflexivity.
Qed.

(** *** Products *)

Lemma mul_digits (m my : positive) :
  2 ^ 52 <= Zpos my -> 53 <= Zdigits2 (Zpos (m * my)).
Proof.
  intros Hy.
  pose proof (Zdigits2_bounds (Zpos (m * my)) ltac:(lia)) as (H0 & Hlt & _).
  destruct (Z.le_gt_cases 53 (Zdigits2 (Zpos (m * my)))) as [?|Hs]; [assumption|].
  exfalso.
  assert (2 ^ Zdigits2 (Zpos (m * my)) <= 2 ^ 52) by (apply Z.pow_le_mono_r; lia).
  rewrite Pos2Z.inj_mul in *. nia.
Qed.

Lemma SFmul_shape (m my : positive) (e ey : Z) :
  2 ^ 52 <= Zpos my ->
  SFmul prec emax (S754_finite false m e) (S754_finite false my ey)
  = binary_round_aux prec emax false (Zpos (m * my)) (e + ey) (locOf 0 1) /\
  e + ey <= fexp64 (Zdigits2 (Zpos (m * my)) + (e + ey)).
Proof.
  intros Hy. split; [reflexivity|].
  pose proof (mul_digits m my Hy). unfold fexp64. lia.
Qed.

Lemma SFmul_nonneg (s : bool) (m my : positive) (e ey : Z) :
  2 ^ 52 <= Zpos my ->
  SFleb (S754_zero s)
    (SFmul prec emax (S754_finite false m e) (S754_finite false my ey)) = true.
Proof.
  intros Hy. destruct (SFmul_shape m my e ey Hy) as [-> Hs].
  destruct (binary_round_aux_spec (Zpos (m * my)) 0 1 (e + ey)
              ltac:(lia) ltac:(lia) Hs) as [-> B].
  apply encode_nonneg. lia.
Qed.

Lemma SFmul_mono (m1 m2 my : positive) (e1 e2 ey : Z) :
  vle (Zpos m1) e1 (Zpos m2) e2 -> 2 ^ 52 <= Zpos my ->
  SFleb (SFmul prec emax (S754_finite false m1 e1) (S754_finite false my ey))
        (SFmul prec emax (S754_finite false m2 e2) (S754_finite false my ey))
  = true.
Proof.
  intros Hv Hy.
  destruct (SFmul_shape m1 my e1 ey Hy) as [-> Hs1].
  destruct (SFmul_shape m2 my e2 ey Hy) as [-> Hs2].
  apply round_mono; try lia; try assumption.
  intros G G1 G2.
  specialize (Hv (G - e1 - e2 - ey) ltac:(lia) ltac:(lia)).
  replace (e1 + (G - e1 - e2 - ey)) with (G - (e2 + ey)) in Hv by lia.
  replace (e2 + (G - e1 - e2 - ey)) with (G - (e1 + ey)) in Hv by lia.
  rewrite !Pos2Z.inj_mul.
  replace ((Zpos m1 * Zpos my * 1 + 0) * 1 * 2 ^ (G - (e2 + ey)))
    with ((Zpos m1 * 2 ^ (G - (e2 + ey))) * Zpos my) by ring.
  replace ((Zpos m2 * Zpos my * 1 + 0) * 1 * 2 ^ (G - (e1 + ey)))
    with ((Zpos m2 * 2 ^ (G - (e1 + ey))) * Zpos my) by ring.
  apply Z.mul_le_mono_nonneg_r; [lia | exact Hv].
Qed.

(** *** Quotients *)

Lemma SFdiv_shape (m my : positive) (e ey : Z) :
  exists q r e',
    SFdiv prec emax (S754_finite false m e) (S754_finite false my ey)
    = binary_round_aux prec emax false q e' (locOf r (Zpos my)) /\
    0 <= q /\ 0 <= r < Zpos my /\ e' <= e - ey /\
    q * Zpos my + r = Zpos m * 2 ^ (e - ey - e') /\
    e' <= fexp64 (Zdigits2 q + e').
Proof.
  cbn [SFdiv xorb]. unfold SFdiv_core_binary.
  rewrite fexp_fexp64.
  set (A := Zdigits2 (Zpos m) + e - (Zdigits2 (Zpos my) + ey)).
  remember (Z.min (fexp64 A) (e - ey)) as e' eqn:Ee'.
  remember (e - ey - e') as s eqn:Es.
  assert (Hs : 0 <= s) by lia.
  assert (Em : match s with
               | 0 => Zpos m
               | Zpos _ => Z.shiftl (Zpos m) s
               | Zneg _ => 0
               end = Zpos m * 2 ^ s).
  { destruct s as [|p|p]; [cbn; lia | | lia].
    now rewrite Z.shiftl_mul_pow2 by lia. }
  rewrite Em.
  pose proof (Z_div_mod (Zpos m * 2 ^ s) (Zpos my) ltac:(lia)) as DM.
  destruct (Z.div_eucl (Zpos m * 2 ^ s) (Zpos my)) as [q r].
  destruct DM as [Eq Br].
  assert (P : 0 < 2 ^ s) by (apply Z.pow_pos_nonneg; lia).
  assert (Hq : 0 <= q) by nia.
  exists q, r, e'. rewrite new_location_locOf.
  split; [reflexivity|]. split; [exact Hq|]. split; [exact Br|].
  split; [lia|]. split; [rewrite <- Es; lia|].
  (* the quotient has enough digits *)
  pose proof (Zdigits2_bounds (Zpos m) ltac:(lia)) as (D1 & _ & G1).
  specialize (G1 ltac:(lia)).
  pose proof (Zdigits2_bounds (Zpos my) ltac:(lia)) as (D2 & L2 & _).
  pose proof (Zdigits2_bounds q Hq) as (Dq & Lq & _).
  assert (Hd : Zdigits2 (Zpos m) + s - Zdigits2 (Zpos my) <= Zdigits2 q).
  { assert (B1 : 2 ^ (Zdigits2 (Zpos m) - 1) * 2 ^ s
                 < 2 ^ Zdigits2 q * 2 ^ Zdigits2 (Zpos my)).
    { apply Z.le_lt_trans with (m := Zpos m * 2 ^ s).
      - apply Z.mul_le_mono_nonneg_r; lia.
      - rewrite Eq.
        assert (0 < 2 ^ Zdigits2 (Zpos my)) by lia.
        assert (q + 1 <= 2 ^ Zdigits2 q) by lia.
        assert ((q + 1) * Zpos my < 2 ^ Zdigits2 q * 2 ^ Zdigits2 (Zpos my)).
        { apply Z.lt_le_trans with (m := (q + 1) * 2 ^ Zdigits2 (Zpos my)).
          - apply Z.mul_lt_mono_pos_l; lia.
          - apply Z.mul_le_mono_nonneg_r; lia. }
        lia. }
    assert (0 < Zdigits2 (Zpos m)) by (cbn; lia).
    rewrite <- !Z.pow_add_r in B1 by lia.
    apply Z.pow_lt_mono_r_iff in B1; lia. }
  unfold A in *. unfold fexp64 in *. lia.
Qed.

Lemma SFdiv_nonneg (s : bool) (m my : positive) (e ey : Z) :
  SFleb (S754_zero s)
    (SFdiv prec emax (S754_finite false m e) (S754_finite false my ey)) = true.
Proof.
  destruct (SFdiv_shape m my e ey) as (q & r & e' & -> & Hq & Hr & _ & _ & Hs).
  destruct (binary_round_aux_spec q r (Zpos my) e' Hq Hr Hs) as [-> B].
  apply encode_nonneg. lia.
Qed.

Lemma SFdiv_mono (m1 m2 my : positive) (e1 e2 ey : Z) :
  vle (Zpos m1) e1 (Zpos m2) e2 ->
  SFleb (SFdiv prec emax (S754_finite false m1 e1) (S754_finite false my ey))
        (SFdiv prec emax (S754_finite false m2 e2) (S754_finite false my ey))
  = true.
Proof.
  intros Hv.
  destruct (SFdiv_shape m1 my e1 ey)
    as (q1 & r1 & e'1 & -> & Hq1 & Hr1 & Hle1 & Eq1 & Hs1).
  destruct (SFdiv_shape m2 my e2 ey)
    as (q2 & r2 & e'2 & -> & Hq2 & Hr2 & Hle2 & Eq2 & Hs2).
  apply round_mono; try assumption.
  intros G G1 G2. rewrite Eq1, Eq2.
  specialize (Hv (G - ey - e'1 - e'2) ltac:(lia) ltac:(lia)).
  replace (Zpos m1 * 2 ^ (e1 - ey - e'1) * Zpos my * 2 ^ (G - e'2))
    with ((Zpos m1 * (2 ^ (e1 - ey - e'1) * 2 ^ (G - e'2))) * Zpos my) by ring.
  replace (Zpos m2 * 2 ^ (e2 - ey - e'2) * Zpos my * 2 ^ (G - e'1))
    with ((Zpos m2 * (2 ^ (e2 - ey - e'2) * 2 ^ (G - e'1))) * Zpos my) by ring.
  rewrite <- !Z.pow_add_r by lia.
  replace (e1 - ey - e'1 + (G - e'2)) with (e1 + (G - ey - e'1 - e'2)) by lia.
  replace (e2 - ey - e'2 + (G - e'1)) with (e2 + (G - ey - e'1 - e'2)) by lia.
  apply Z.mul_le_mono_nonneg_r; [lia | exact Hv].
Qed.

(** *** A quotient and its product with the divisor *)

Lemma binary_round_aux_negative (m e : Z) (l : location) (p : positive) (g : Z) :
  binary_round_aux prec emax true m e l <> S754_finite false p g.
Proof.
  unfold binary_round_aux.
  destruct (shr_fexp prec emax m e l) as [mrs' e'].
  destruct (shr_fexp prec emax _ e' loc_Exact) as [mrs'' e''].
  destruct (shr_m mrs''); [| destruct (e'' <=? emax - prec) |]; discriminate.
Qed.

Lemma vle_shift (A a B b c : Z) :
  0 <= a -> 0 <= b -> A * 2 ^ a <= B * 2 ^ b -> vle A (a + c) B (b + c).
Proof.
  intros Ha Hb H K K1 K2.
  destruct (Z.le_gt_cases 0 (c + K)) as [Hp | Hn].
  - replace (a + c + K) with (a + (c + K)) by lia.
    replace (b + c + K) with (b + (c + K)) by lia.
    rewrite (Z.pow_add_r 2 a (c + K)), (Z.pow_add_r 2 b (c + K)) by lia.
    rewrite !Z.mul_assoc.
    apply Z.mul_le_mono_nonneg_r; [apply Z.pow_nonneg; lia | exact H].
  - assert (P : 0 < 2 ^ (- (c + K))) by (apply Z.pow_pos_nonneg; lia).
    apply Z.mul_le_mono_pos_r with (p := 2 ^ (- (c + K))); [exact P|].
    rewrite <- !Z.mul_assoc.
    rewrite <- (Z.pow_add_r 2 (a + c + K) (- (c + K))) by lia.
    rewrite <- (Z.pow_add_r 2 (b + c + K) (- (c + K))) by lia.
    replace (a + c + K + - (c + K)) with a by lia.
    replace (b + c + K + - (c + K)) with b by lia.
    exact H.
Qed.

Lemma encode_value (M g : Z) (p : positive) (e : Z) :
  0 <= M <= 2 ^ 53 ->
  encode M g = S754_finite false p e ->
  g <= e /\ Zpos p * 2 ^ (e - g) = M.
Proof.
  intros HM. unfold encode. change (2 ^ 53) with 9007199254740992 in *.
  destruct M as [|q|q]; [discriminate | | discriminate].
  destruct (Z.eqb_spec (Zpos q) 9007199254740992) as [E | N].
  - destruct (g + 1 <=? 971); [|discriminate].
    intros H. apply (f_equal (fun f => match f with
                                      | S754_finite _ p e => (Zpos p, e)
                                      | _ => (0, 0)
                                      end)) in H.
    cbn in H. assert (E1 : 4503599627370496 = Zpos p) by congruence.
    assert (E2 : g + 1 = e) by congruence.
    rewrite <- E1, <- E2. split; [lia|].
    replace (g + 1 - g) with 1 by lia. rewrite E. reflexivity.
  - destruct (g <=? 971); [|discriminate].
    intros H. apply (f_equal (fun f => match f with
                                      | S754_finite _ p e => (Zpos p, e)
                                      | _ => (0, 0)
                                      end)) in H.
    cbn in H. assert (E1 : Zpos q = Zpos p) by congruence.
    assert (E2 : g = e) by congruence.
    rewrite <- E1, <- E2. split; [lia|].
    rewrite Z.sub_diag. cbn. lia.
Qed.

(** The rounded quotient of [N / Dn], once it has 53 digits, is within
    the relative distance [2^-53] below and [2^-52] above. *)
Lemma rneZ_relative (N Dn : Z) :
  0 <= N -> 0 < Dn -> 2 ^ 52 <= rneZ N Dn ->
  (2 ^ 53 - 1) * N <= 2 ^ 53 * (rneZ N Dn * Dn) /\
  2 ^ 52 * (rneZ N Dn * Dn) <= (2 ^ 52 + 1) * N.
Proof.
  intros HN HD HM. pose proof (rneZ_bounds N Dn HD) as [B1 B2].
  set (M := rneZ N Dn) in *.
  change (2 ^ 53) with 9007199254740992. change (2 ^ 52) with 4503599627370496 in *.
  assert (S : 4503599627370496 * Dn <= M * Dn)
    by (apply Z.mul_le_mono_nonneg_r; lia).
  lia.
Qed.

Lemma SFmul_le (m1 y1 m2 y2 : positive) (e1 f1 e2 f2 : Z) :
  vle (Zpos m1 * Zpos y1) (e1 + f1) (Zpos m2 * Zpos y2) (e2 + f2) ->
  2 ^ 52 <= Zpos y1 -> 2 ^ 52 <= Zpos y2 ->
  SFleb (SFmul prec emax (S754_finite false m1 e1) (S754_finite false y1 f1))
        (SFmul prec emax (S754_finite false m2 e2) (S754_finite false y2 f2))
  = true.
Proof.
  intros Hv H1 H2.
  destruct (SFmul_shape m1 y1 e1 f1 H1) as [-> Hs1].
  destruct (SFmul_shape m2 y2 e2 f2 H2) as [-> Hs2].
  apply round_mono; try lia; try assumption.
  intros G G1 G2.
  specialize (Hv (G - (e1 + f1) - (e2 + f2)) ltac:(lia) ltac:(lia)).
  replace (e1 + f1 + (G - (e1 + f1) - (e2 + f2))) with (G - (e2 + f2)) in Hv by lia.
  replace (e2 + f2 + (G - (e1 + f1) - (e2 + f2))) with (G - (e1 + f1)) in Hv by lia.
  rewrite !Pos2Z.inj_mul.
  replace ((Zpos m1 * Zpos y1 * 1 + 0) * 1) with (Zpos m1 * Zpos y1) by ring.
  replace ((Zpos m2 * Zpos y2 * 1 + 0) * 1) with (Zpos m2 * Zpos y2) by ring.
  exact Hv.
Qed.

(** The product of the divisor and a normal rounded quotient lies between
    the dividend times [1 - 2^-53] and the dividend times [1 + 2^-52]. *)
Lemma SFdiv_round_trip (mL mD mq : positive) (eL eD eq : Z) :
  SFdiv prec emax (S754_finite false mL eL) (S754_finite false mD eD)
  = S754_finite false mq eq ->
  2 ^ 52 <= Zpos mq ->
  vle (Zpos mL * (2 ^ 53 - 1)) (eL + -53) (Zpos mD * Zpos mq) (eD + eq) /\
  vle (Zpos mD * Zpos mq) (eD + eq) (Zpos mL * (2 ^ 52 + 1)) (eL + -52).
Proof.
  destruct (SFdiv_shape mL mD eL eD)
    as (Q & r & e' & -> & HQ & Hr & Hle & EQ & Hs).
  destruct (binary_round_aux_spec Q r (Zpos mD) e' HQ Hr Hs) as [-> BM].
  intros Hq Hn.
  destruct (encode_value _ _ _ _ BM Hq) as [Hg EM].
  remember (fexp64 (Zdigits2 Q + e')) as g eqn:Eg.
  assert (Hge : e' <= g) by lia.
  remember (Zpos mD * 2 ^ (g - e')) as Dn eqn:EDn.
  assert (PD : 0 < Dn).
  { rewrite EDn. apply Z.mul_pos_pos; [lia | apply Z.pow_pos_nonneg; lia]. }
  assert (PS : 0 < 2 ^ (eL - eD - e')) by (apply Z.pow_pos_nonneg; lia).
  assert (HM52 : 2 ^ 52 <= rneZ (Q * Zpos mD + r) Dn).
  { rewrite <- EM.
    assert (1 <= 2 ^ (eq - g)) by (pose proof (Z.pow_pos_nonneg 2 (eq - g)); lia).
    change (2 ^ 52) with 4503599627370496 in *. nia. }
  destruct (rneZ_relative (Q * Zpos mD + r) Dn ltac:(nia) PD HM52) as [Lo Up].
  rewrite <- EM, EQ, EDn in Lo, Up.
  split.
  - replace (eL + -53) with ((eL - eD - e') + (eD + e' - 53)) by lia.
    replace (eD + eq) with ((eq - e' + 53) + (eD + e' - 53)) by lia.
    apply vle_shift; [lia | lia |].
    replace (eq - e' + 53) with (53 + ((eq - g) + (g - e'))) by lia.
    rewrite !Z.pow_add_r by lia.
    replace (Zpos mL * (2 ^ 53 - 1) * 2 ^ (eL - eD - e'))
      with ((2 ^ 53 - 1) * (Zpos mL * 2 ^ (eL - eD - e'))) by ring.
    replace (Zpos mD * Zpos mq * (2 ^ 53 * (2 ^ (eq - g) * 2 ^ (g - e'))))
      with (2 ^ 53 * (Zpos mq * 2 ^ (eq - g) * (Zpos mD * 2 ^ (g - e')))) by ring.
    exact Lo.
  - replace (eL + -52) with ((eL - eD - e') + (eD + e' - 52)) by lia.
    replace (eD + eq) with ((eq - e' + 52) + (eD + e' - 52)) by lia.
    apply vle_shift; [lia | lia |].
    replace (eq - e' + 52) with (52 + ((eq - g) + (g - e'))) by lia.
    rewrite !Z.pow_add_r by lia.
    replace (Zpos mL * (2 ^ 52 + 1) * 2 ^ (eL - eD - e'))
      with ((2 ^ 52 + 1) * (Zpos mL * 2 ^ (eL - eD - e'))) by ring.
    replace (Zpos mD * Zpos mq * (2 ^ 52 * (2 ^ (eq - g) * 2 ^ (g - e'))))
      with (2 ^ 52 * (Zpos mq * 2 ^ (eq - g) * (Zpos mD * 2 ^ (g - e')))) by ring.
    exact Up.
Qed.

End RoundingFacts.

(** *** Products and quotients of binary64 numbers are monotone *)

Lemma mul_mono_float (x1 x2 y : float) :
  (0 <=? x1) = true -> (x1 <=? x2) = true ->
  normalPos x2 = true -> normalPos y = true ->
  (0 <=? x1 * y) = true /\ (x1 * y <=? x2 * y) = true.
Proof.
  intros H0 H12 N2 Ny.
  rewrite !leb_spec, !mul_spec in *. unfold normalPos in *.
  pose proof (Prim2SF_valid x1) as V1.
  change (Prim2SF 0) with (S754_zero false) in *.
  unfold SF64mul.
  destruct (Prim2SF x2) as [| | | [|] m2 e2]; try discriminate N2.
  destruct (Prim2SF y) as [| | | [|] my ey]; try discriminate Ny.
  apply Z.leb_le in N2, Ny.
  destruct (Prim2SF x1) as [s1 | [|] | | [|] m1 e1]; try discriminate H0;
    try discriminate H12.
  - split; [reflexivity|]. cbn [SFmul]. now apply SFmul_nonneg.
  - split; [now apply SFmul_nonneg|].
    apply SFmul_mono; [|assumption].
    apply vle_of_leb; [assumption | | assumption].
    exact (valid_mantissa _ _ _ V1).
Qed.

Lemma div_mono_float (x1 x2 y : float) :
  (0 <=? x1) = true -> (x1 <=? x2) = true ->
  normalPos x2 = true -> normalPos y = true ->
  (0 <=? x1 / y) = true /\ (x1 / y <=? x2 / y) = true.
Proof.
  intros H0 H12 N2 Ny.
  rewrite !leb_spec, !div_spec in *. unfold normalPos in *.
  pose proof (Prim2SF_valid x1) as V1.
  change (Prim2SF 0) with (S754_zero false) in *.
  unfold SF64div.
  destruct (Prim2SF x2) as [| | | [|] m2 e2]; try discriminate N2.
  destruct (Prim2SF y) as [| | | [|] my ey]; try discriminate Ny.
  apply Z.leb_le in N2, Ny.
  destruct (Prim2SF x1) as [s1 | [|] | | [|] m1 e1]; try discriminate H0;
    try discriminate H12.
  - split; [reflexivity|]. cbn [SFdiv]. now apply SFdiv_nonneg.
  - split; [now apply SFdiv_nonneg|].
    apply SFdiv_mono.
    apply vle_of_leb; [assumption | | assumption].
    exact (valid_mantissa _ _ _ V1).
Qed.

(** Radians of [0, Math.PI] become degrees of [0, 180]. *)
Lemma degrees_bound (r : float) :
  (0 <=? r) = true -> (r <=? B64.Math_PI) = true ->
  (0 <=? r * 180 / B64.Math_PI) = true /\ (r * 180 / B64.Math_PI <=? 180) = true.
Proof.
  intros H0 H1.
  destruct (mul_mono_float r B64.Math_PI 180 H0 H1
              ltac:(vm_compute; reflexivity) ltac:(vm_compute; reflexivity))
    as [A0 A1].
  destruct (div_mono_float (r * 180) (B64.Math_PI * 180) B64.Math_PI A0 A1
              ltac:(vm_compute; reflexivity) ltac:(vm_compute; reflexivity))
    as [B0 B1].
  split; [exact B0|].
  assert (E : B64.Math_PI * 180 / B64.Math_PI = 180) by (vm_compute; reflexivity).
  rewrite E in B1. exact B1.
Qed.

(** Dividing by [D] and multiplying by [D] again returns [L] up to the
    relative distance [2^-53] below and [2^-52] above, when the quotient is
    a normal number. *)
Lemma round_trip_tolerance (L D : float) :
  (0 <? L) = true -> normalPos (L / D) = true ->
  (L * 0x1.fffffffffffffp-1 <=? D * (L / D)) = true /\
  (D * (L / D) <=? L * 0x1.0000000000001p+0) = true.
Proof.
  intros HL Hn. unfold normalPos in Hn.
  rewrite !leb_spec, !mul_spec. rewrite ltb_spec in HL. rewrite div_spec in *.
  change (Prim2SF 0) with (S754_zero false) in HL.
  change (Prim2SF 0x1.fffffffffffffp-1)
    with (S754_finite false 9007199254740991 (-53)).
  change (Prim2SF 0x1.0000000000001p+0)
    with (S754_finite false 4503599627370497 (-52)).
  unfold SF64mul, SF64div in *.
  destruct (Prim2SF L) as [sL | [|] | | [|] mL eL];
    try (vm_compute in HL; discriminate HL).
  - destruct (Prim2SF D) as [sD | sD | | sD mD eD]; cbn in Hn; discriminate Hn.
  - destruct (Prim2SF D) as [sD | sD | | [|] mD eD];
      try (cbn in Hn; discriminate Hn).
    + exfalso. cbn [SFdiv xorb] in Hn.
      destruct (SFdiv_core_binary prec emax (Zpos mL) eL (Zpos mD) eD)
        as [[mz ez] lz].
      destruct (binary_round_aux prec emax true mz ez lz) as [| | | [|] p g] eqn:E;
        try discriminate Hn.
      exact (binary_round_aux_negative _ _ _ _ _ E).
    + destruct (SFdiv prec emax (S754_finite false mL eL) (S754_finite false mD eD))
        as [| | | [|] mq eq] eqn:Eq; try discriminate Hn.
      apply Z.leb_le in Hn.
      destruct (SFdiv_round_trip _ _ _ _ _ _ Eq Hn) as [V1 V2].
      split; apply SFmul_le; try assumption; vm_compute; discriminate.
Qed.

(** Two closed values that differ in a binary64 component. *)
Ltac floats_differ :=
  let H := fresh in
  intros H;
  first
    [ apply (f_equal (fun p => Prim2SF (B64.pt_x p))) in H;
      vm_compute in H; discriminate H
    | apply (f_equal (fun p => Prim2SF (B64.pt_y p))) in H;
      vm_compute in H; discriminate H
    | apply (f_equal (fun o => match o with
                               | Some v => Prim2SF v
                               | None => S754_nan
                               end)) in H;
      vm_compute in H; discriminate H
    | apply (f_equal Prim2SF) in H; vm_compute in H; discriminate H ].

(** ** Angles *)

Lemma angleAtVertex_sym_b64 (hypotImpl : float -> float -> float)
    (acosImpl : float -> float) (a b c : B64.Pt) :
  B64.angleAtVertex hypotImpl acosImpl a b c
  = B64.angleAtVertex hypotImpl acosImpl c b a.
Proof.
  unfold B64.angleAtVertex. cbv zeta.
  rewrite (float_mul_comm (B64.pt_x c - B64.pt_x b) (B64.pt_x a - B64.pt_x b)).
  rewrite (float_mul_comm (B64.pt_y c - B64.pt_y b) (B64.pt_y a - B64.pt_y b)).
  rewrite (float_mul_comm
             (B64.Math_hypot hypotImpl (B64.pt_x c - B64.pt_x b) (B64.pt_y c - B64.pt_y b))).
  reflexivity.
Qed.

Lemma angleAtVertex_clamped (hypotImpl : float -> float -> float)
    (acosImpl : float -> float) (a b c : B64.Pt) :
  B64.angleAtVertex hypotImpl acosImpl a b c
  = B64.Math_acos acosImpl (B64.clamp (-1) 1 (B64.cosineQuotient hypotImpl a b c))
    * 180 / B64.Math_PI.
Proof. reflexivity. Qed.

(** C9.  On binary64 numbers and for every triple of points, degenerate or
    not, and whatever the engine's [Math.hypot] and [Math.acos]:
    [angleAtVertex a b c] and [angleAtVertex c b a] are the same value;
    this value is [Math.acos] of the clamped quotient [dot / (la * lb)],
    times 180, divided by [Math.PI]; when the quotient is [NaN] the result
    is [NaN]; otherwise the clamp hands a number of [[-1, 1]] to
    [Math.acos]; and whenever [Math.acos] answers with a number of
    [[0, Math.PI]], the rounded product and quotient keep the result in
    [[0, 180]]. *)
Theorem angleAtVertex_symmetric_clamped
    (hypotImpl : float -> float -> float) (acosImpl : float -> float)
    (a b c : B64.Pt) :
  let q := B64.cosineQuotient hypotImpl a b c in
  let cos := B64.clamp (-1) 1 q in
  B64.angleAtVertex hypotImpl acosImpl a b c
  = B64.angleAtVertex hypotImpl acosImpl c b a /\
  B64.angleAtVertex hypotImpl acosImpl a b c
  = B64.Math_acos acosImpl cos * 180 / B64.Math_PI /\
  (if is_nan q
   then B64.angleAtVertex hypotImpl acosImpl a b c = nan
   else (-1 <=? cos) = true /\ (cos <=? 1) = true) /\
  ((0 <=? B64.Math_acos acosImpl cos) = true ->
   (B64.Math_acos acosImpl cos <=? B64.Math_PI) = true ->
   (0 <=? B64.angleAtVertex hypotImpl acosImpl a b c) = true /\
   (B64.angleAtVertex hypotImpl acosImpl a b c <=? 180) = true).
Proof.
  intros q cos. split; [apply angleAtVertex_sym_b64|].
  split; [apply angleAtVertex_clamped|].
  rewrite angleAtVertex_clamped. fold q. fold cos.
  split; [|apply degrees_bound].
  destruct (clamp_bounds (-1) 1 q eq_refl) as [[Hq Hc] | (Hq & Hlo & Hhi)];
    rewrite Hq.
  - unfold cos. rewrite Hc. reflexivity.
  - split; assumption.
Qed.

(** C9, as stated, fails: for the points [(1e-200, 0)], [(0, 0)] and
    [(0, 1e-200)], none of which is the vertex twice, both arms have the
    length [1e-200], the product of the lengths underflows to zero, the
    quotient is [0 / 0] and the angle is [NaN]: it is not a value of
    [[0, 180]]. *)
Lemma angle_of_tiny_arms_is_NaN :
  let a := B64.mkPt 1e-200 0 in
  let b := B64.mkPt 0 0 in
  let c := B64.mkPt 0 1e-200 in
  (a <> b /\ c <> b /\
   B64.dist B64.hypotV8 a b = 1e-200 /\
   B64.dist B64.hypotV8 c b = 1e-200 /\
   B64.dist B64.hypotV8 a b * B64.dist B64.hypotV8 c b = 0 /\
   is_nan (B64.cosineQuotient B64.hypotV8 a b c) = true /\
   (forall acosImpl : float -> float,
       B64.angleAtVertex B64.hypotV8 acosImpl a b c = nan)) /\
  (forall acosImpl : float -> float,
      ~ (forall a b c : B64.Pt,
            a <> b -> c <> b ->
            B64.angleAtVertex B64.hypotV8 acosImpl a b c
            = B64.angleAtVertex B64.hypotV8 acosImpl c b a /\
            (0 <=? B64.angleAtVertex B64.hypotV8 acosImpl a b c) = true /\
            (B64.angleAtVertex B64.hypotV8 acosImpl a b c <=? 180) = true)).
Proof.
  cbv zeta.
  assert (Hab : B64.mkPt 1e-200 0 <> B64.mkPt 0 0) by floats_differ.
  assert (Hcb : B64.mkPt 0 1e-200 <> B64.mkPt 0 0) by floats_differ.
  assert (Hnan : forall acosImpl : float -> float,
             B64.angleAtVertex B64.hypotV8 acosImpl
               (B64.mkPt 1e-200 0) (B64.mkPt 0 0) (B64.mkPt 0 1e-200) = nan).
  { intros acosImpl. vm_compute. reflexivity. }
  split.
  - repeat split; try assumption; try (vm_compute; reflexivity).
  - intros acosImpl H.
    destruct (H _ _ _ Hab Hcb) as (_ & H0 & _).
    rewrite Hnan in H0. vm_compute in H0. discriminate H0.
Qed.

(** ** Calibration *)

Lemma parseFloat_empty_b64 : B64.parseFloat EmptyString = nan.
Proof. reflexivity. Qed.

(** The second click of a calibration whose answer passes the guard. *)
Lemma calibrate_click_b64 (st : B64.State) (e : B64.ClickEnv) (p0 : B64.Pt)
    (input : string) :
  B64.mode st = calibrate ->
  B64.tempPts st = [p0] ->
  B64.promptAnswer e = Some input ->
  (0 <? B64.parseFloat input) = true ->
  let p1 := B64.overlayPoint e in
  let dx := B64.pt_x p1 - B64.pt_x p0 in
  let dy := B64.pt_y p1 - B64.pt_y p0 in
  B64.handleOverlayClick st e
  = B64.setTempPts []
      (B64.setUnitPerPx
         (Some (B64.parseFloat input / sqrt (dx * dx + dy * dy))) st).
Proof.
  intros Hm Ht Ha Hpos p1 dx dy.
  unfold B64.handleOverlayClick. rewrite Hm, Ht, Ha. cbn [app].
  destruct input as [|ch rest].
  - rewrite parseFloat_empty_b64 in Hpos. vm_compute in Hpos. discriminate Hpos.
  - destruct (ltb_not_nan _ _ Hpos) as [_ Hn].
    unfold B64.isNaN. rewrite Hn, Hpos. reflexivity.
Qed.

(** A normal number is neither [NaN] nor zero. *)
Lemma normalPos_truthy (x : float) : normalPos x = true -> B64.truthy x = true.
Proof.
  unfold normalPos, B64.truthy. intros H.
  assert (Hn : is_nan x = false).
  { apply is_nan_false. intros E. rewrite E in H. discriminate H. }
  rewrite Hn. cbn [orb]. unfold is_zero. rewrite eqb_spec.
  change (Prim2SF 0) with (S754_zero false).
  destruct (Prim2SF x) as [| | | [|] m e]; try discriminate H. reflexivity.
Qed.

(** C5.  On binary64 numbers: when the second click of a calibration is
    answered with a text whose [parseFloat] is [L > 0], the scale becomes
    the quotient [L / D], for [D] the pixel distance
    [Math.sqrt (dx * dx + dy * dy)] of the two points, no message is
    shown, and [pxToUnit] maps [D] to the product [D * (L / D)] (to
    [null] when the quotient is zero or [NaN]); when the quotient is a
    normal number, neither subnormal nor infinite, this product lies
    between [L * (1 - 2^-53)] and [L * (1 + 2^-52)].  In the scenario: the
    points [(0,0)] and [(0,100)] with the answer [50] give the scale
    [0.5], [pxToUnit 100] is [50], and a segment between the same points
    is then exported with [length_px = 100] and [length_unit = 50]. *)
Theorem calibration_round_trip_binary64 :
  (forall (st : B64.State) (e : B64.ClickEnv) (p0 : B64.Pt) (input : string),
      B64.mode st = calibrate ->
      B64.tempPts st = [p0] ->
      B64.promptAnswer e = Some input ->
      (0 <? B64.parseFloat input) = true ->
      let L := B64.parseFloat input in
      let dx := B64.pt_x (B64.overlayPoint e) - B64.pt_x p0 in
      let dy := B64.pt_y (B64.overlayPoint e) - B64.pt_y p0 in
      let D := sqrt (dx * dx + dy * dy) in
      let st' := B64.handleOverlayClick st e in
      B64.unitPerPx st' = Some (L / D) /\
      B64.alerts st' = B64.alerts st /\
      B64.pxToUnit st' D
      = (if B64.truthy (L / D) then Some (D * (L / D)) else None) /\
      (normalPos (L / D) = true ->
       B64.pxToUnit st' D = Some (D * (L / D)) /\
       (L * 0x1.fffffffffffffp-1 <=? D * (L / D)) = true /\
       (D * (L / D) <=? L * 0x1.0000000000001p+0) = true)) /\
  (let st0 := B64.handleOverlayClick (B64.startCalibrate B64.initialState)
                (B64.clickAt 0 0 None "a") in
   let st1 := B64.handleOverlayClick st0 (B64.clickAt 0 100 (Some "50"%string) "b") in
   let st2 := B64.handleOverlayClick
                (B64.handleOverlayClick (B64.startMeasure st1)
                   (B64.clickAt 0 0 None "c"))
                (B64.clickAt 0 100 None "d") in
   B64.unitPerPx st1 = Some 0.5 /\
   B64.pxToUnit st1 100 = Some 50 /\
   B64.segments st2 = [B64.mkSegment (B64.ptZ 0 0) (B64.ptZ 0 100) "d" None] /\
   B64.json_segments B64.hypotV8 st2
   = [B64.mkJsonSegment (B64.ptZ 0 0) (B64.ptZ 0 100) 100 (Some 50)]).
Proof.
  split.
  - intros st e p0 input Hm Ht Ha Hpos L dx dy D st'. subst st'.
    rewrite (calibrate_click_b64 st e p0 input Hm Ht Ha Hpos).
    fold dx dy D L. split; [reflexivity|]. split; [reflexivity|].
    split; [reflexivity|]. intros Hn.
    split; [|exact (round_trip_tolerance L D Hpos Hn)].
    unfold B64.pxToUnit. cbn [B64.unitPerPx B64.setTempPts B64.setUnitPerPx].
    now rewrite (normalPos_truthy _ Hn).
  - vm_compute. repeat split.
Qed.

Lemma calibration_round_trip_binary64_witness :
  let st := B64.handleOverlayClick (B64.startCalibrate B64.initialState)
              (B64.clickAt 0 0 None "a") in
  let st' := B64.handleOverlayClick st (B64.clickAt 0 49 (Some "1"%string) "b") in
  B64.unitPerPx st' = Some (1 / 49) /\
  B64.alerts st' = [] /\
  B64.pxToUnit st' 49 = Some (49 * (1 / 49)) /\
  (1 * 0x1.fffffffffffffp-1 <=? 49 * (1 / 49)) = true /\
  (49 * (1 / 49) <=? 1 * 0x1.0000000000001p+0) = true.
Proof.
  pose proof (proj1 calibration_round_trip_binary64
                (B64.handleOverlayClick (B64.startCalibrate B64.initialState)
                   (B64.clickAt 0 0 None "a"))
                (B64.clickAt 0 49 (Some "1"%string) "b")
                (B64.ptZ 0 0) "1"%string eq_refl eq_refl eq_refl eq_refl)
    as (Hs & Ha & _ & Ht).
  destruct (Ht eq_refl) as (Hp & Hlo & Hhi).
  exact (conj Hs (conj Ha (conj Hp (conj Hlo Hhi)))).
Defined.

(** C5, as stated, fails: after a calibration on the points [(0,0)] and
    [(0,49)], at pixel distance 49, with the answer [1], the scale is
    [1 / 49 = 0.020408163265306121] and [pxToUnit 49] is
    [0.99999999999999989], which is below 1. *)
Lemma calibration_round_trip_is_inexact :
  let st := B64.handleOverlayClick (B64.startCalibrate B64.initialState)
              (B64.clickAt 0 0 None "a") in
  let e := B64.clickAt 0 49 (Some "1"%string) "b" in
  let st' := B64.handleOverlayClick st e in
  (B64.mode st = calibrate /\ B64.tempPts st = [B64.ptZ 0 0] /\
   B64.overlayPoint e = B64.ptZ 0 49 /\
   B64.parseFloat "1" = 1 /\
   B64.unitPerPx st' = Some 0.020408163265306121 /\
   B64.pxToUnit st' 49 = Some 0.99999999999999989 /\
   (0.99999999999999989 <? 1) = true) /\
  ~ (forall (st : B64.State) (e : B64.ClickEnv) (p0 : B64.Pt) (input : string),
        B64.mode st = calibrate ->
        B64.tempPts st = [p0] ->
        B64.promptAnswer e = Some input ->
        (0 <? B64.parseFloat input) = true ->
        let dx := B64.pt_x (B64.overlayPoint e) - B64.pt_x p0 in
        let dy := B64.pt_y (B64.overlayPoint e) - B64.pt_y p0 in
        let D := sqrt (dx * dx + dy * dy) in
        (0 <? D) = true ->
        B64.unitPerPx (B64.handleOverlayClick st e)
        = Some (B64.parseFloat input / D) /\
        B64.pxToUnit (B64.handleOverlayClick st e) D
        = Some (B64.parseFloat input)).
Proof.
  cbv zeta. split; [vm_compute; repeat split|].
  intros H.
  destruct (H (B64.handleOverlayClick (B64.startCalibrate B64.initialState)
                 (B64.clickAt 0 0 None "a"))
              (B64.clickAt 0 49 (Some "1"%string) "b")
              (B64.ptZ 0 0) "1"%string eq_refl eq_refl eq_refl eq_refl eq_refl)
    as [_ H1].
  revert H1. vm_compute. floats_differ.
Qed.

(** ** Calibrating after measuring *)

(** X11.  On binary64 numbers and whatever the engine's [Math.hypot]: a
    successful calibration, answered with a text whose [parseFloat] is
    [L > 0] on points at the pixel distance [D], changes no stored
    segment, and from then on every segment of the JSON payload is
    exported with its pixel length [d] and with the product [d * (L / D)]
    ([null] when the quotient is zero or [NaN]): the segments measured
    before the calibration are rescaled with it. *)
Theorem calibration_rescales_every_segment_binary64
    (hypotImpl : float -> float -> float)
    (st : B64.State) (e : B64.ClickEnv) (p0 : B64.Pt) (input : string) :
  B64.mode st = calibrate ->
  B64.tempPts st = [p0] ->
  B64.promptAnswer e = Some input ->
  (0 <? B64.parseFloat input) = true ->
  let L := B64.parseFloat input in
  let dx := B64.pt_x (B64.overlayPoint e) - B64.pt_x p0 in
  let dy := B64.pt_y (B64.overlayPoint e) - B64.pt_y p0 in
  let D := sqrt (dx * dx + dy * dy) in
  let st' := B64.handleOverlayClick st e in
  B64.segments st' = B64.segments st /\
  B64.json_segments hypotImpl st'
  = map (fun s =>
           let d := B64.dist hypotImpl (B64.seg_a s) (B64.seg_b s) in
           B64.mkJsonSegment (B64.seg_a s) (B64.seg_b s) d
             (if B64.truthy (L / D) then Some (d * (L / D)) else None))
        (B64.segments st).
Proof.
  intros Hm Ht Ha Hpos L dx dy D st'. subst st'.
  rewrite (calibrate_click_b64 st e p0 input Hm Ht Ha Hpos).
  fold dx dy D L. split; reflexivity.
Qed.

Lemma calibration_rescales_every_segment_binary64_witness :
  let st0 := B64.handleOverlayClick
               (B64.handleOverlayClick (B64.startMeasure B64.initialState)
                  (B64.clickAt 0 0 None "a"))
               (B64.clickAt 0 100 None "b") in
  let st := B64.handleOverlayClick (B64.startCalibrate st0)
              (B64.clickAt 0 0 None "c") in
  let st' := B64.handleOverlayClick st (B64.clickAt 0 49 (Some "1"%string) "d") in
  B64.json_segments B64.hypotV8 st0
  = [B64.mkJsonSegment (B64.ptZ 0 0) (B64.ptZ 0 100) 100 None] /\
  B64.segments st' = B64.segments st /\
  B64.json_segments B64.hypotV8 st'
  = [B64.mkJsonSegment (B64.ptZ 0 0) (B64.ptZ 0 100) 100 (Some (100 * (1 / 49)))].
Proof.
  split; [vm_compute; reflexivity|].
  exact (calibration_rescales_every_segment_binary64 B64.hypotV8
           (B64.handleOverlayClick
              (B64.startCalibrate
                 (B64.handleOverlayClick
                    (B64.handleOverlayClick (B64.startMeasure B64.initialState)
                       (B64.clickAt 0 0 None "a"))
                    (B64.clickAt 0 100 None "b")))
              (B64.clickAt 0 0 None "c"))
           (B64.clickAt 0 49 (Some "1"%string) "d")
           (B64.ptZ 0 0) "1"%string eq_refl eq_refl eq_refl eq_refl).
Defined.

(** ** Edge filter on binary64 numbers: what one pixel writes *)

Lemma dataSet_length_b64 (d : list Z) (i : Z) (v : float) :
  length (B64.dataSet d i v) = length d.
Proof.
  unfold B64.dataSet. destruct (i <? 0)%Z; [reflexivity | apply length_insert].
Qed.

Lemma dataSet_lookup_eq_b64 (d : list Z) (i : Z) (v : float) :
  (0 <= i)%Z -> (Z.to_nat i < length d)%nat ->
  B64.dataSet d i v !! Z.to_nat i = Some (B64.toUint8Clamp v).
Proof.
  intros Hi Hlen. unfold B64.dataSet.
  destruct (Z.ltb_spec i 0) as [?|_]; [lia|].
  now apply list_lookup_insert_eq.
Qed.

Lemma dataSet_lookup_ne_b64 (d : list Z) (i j : Z) (v : float) :
  (0 <= i)%Z -> (0 <= j)%Z -> i <> j ->
  B64.dataSet d i v !! Z.to_nat j = d !! Z.to_nat j.
Proof.
  intros Hi Hj Hne. unfold B64.dataSet.
  destruct (Z.ltb_spec i 0) as [?|_]; [lia|].
  apply list_lookup_insert_ne. lia.
Qed.

Section FrameB64.
Variable img : ImageData.
Variable h : Z.

Lemma sobelPixel_length_b64 (x y : Z) (out : list Z) :
  length (B64.sobelPixel img x y out) = length out.
Proof. unfold B64.sobelPixel. now rewrite !dataSet_length_b64. Qed.

Lemma sobelPixel_lookup_same_b64 (x y c : Z) (out : list Z) :
  (0 <= x < img_width img)%Z -> (0 <= y < h)%Z -> (0 <= c < 4)%Z ->
  length out = Z.to_nat (4 * img_width img * h) ->
  B64.sobelPixel img x y out !! Z.to_nat (idx (img_width img) x y c)
  = Some (B64.writtenChannel img x y c).
Proof.
  intros Hx Hy Hc Hlen. unfold B64.sobelPixel, B64.writtenChannel.
  set (w := img_width img) in *.
  assert (Hb : forall c', (0 <= c' < 4)%Z ->
             (0 <= idx w x y c')%Z /\ (Z.to_nat (idx w x y c') < length out)%nat).
  { intros c' Hc'. pose proof (idx_bounds w h x y c' Hx Hy Hc'). lia. }
  assert (Hne : forall c1 c2, c1 <> c2 -> idx w x y c1 <> idx w x y c2).
  { unfold idx. lia. }
  destruct (Hb 0%Z ltac:(lia)) as [H0 L0]. destruct (Hb 1%Z ltac:(lia)) as [H1 L1].
  destruct (Hb 2%Z ltac:(lia)) as [H2 L2]. destruct (Hb 3%Z ltac:(lia)) as [H3 L3].
  assert (Hcase : c = 0%Z \/ c = 1%Z \/ c = 2%Z \/ c = 3%Z) by lia.
  destruct Hcase as [-> | [-> | [-> | ->]]]; cbn [Z.ltb Z.compare].
  - rewrite !dataSet_lookup_ne_b64 by (auto; apply Hne; lia).
    apply dataSet_lookup_eq_b64; auto.
  - rewrite !dataSet_lookup_ne_b64 by (auto; apply Hne; lia).
    apply dataSet_lookup_eq_b64; rewrite ?dataSet_length_b64; auto.
  - rewrite !dataSet_lookup_ne_b64 by (auto; apply Hne; lia).
    apply dataSet_lookup_eq_b64; rewrite ?dataSet_length_b64; auto.
  - rewrite dataSet_lookup_eq_b64 by (rewrite ?dataSet_length_b64; auto).
    reflexivity.
Qed.

Lemma sobelPixel_lookup_other_b64 (x y x' y' c' : Z) (out : list Z) :
  (0 <= x < img_width img)%Z -> (0 <= x' < img_width img)%Z ->
  (0 <= y)%Z -> (0 <= y')%Z -> (0 <= c' < 4)%Z ->
  (x, y) <> (x', y') ->
  B64.sobelPixel img x y out !! Z.to_nat (idx (img_width img) x' y' c')
  = out !! Z.to_nat (idx (img_width img) x' y' c').
Proof.
  intros Hx Hx' Hy Hy' Hc' Hne. unfold B64.sobelPixel.
  set (w := img_width img) in *.
  assert (Hd : forall c, (0 <= c < 4)%Z -> idx w x y c <> idx w x' y' c').
  { intros c Hc Heq. apply idx_inj in Heq as (-> & -> & _); auto. }
  assert (Hp : forall c, (0 <= c < 4)%Z -> (0 <= idx w x y c)%Z) by (unfold idx; nia).
  assert (Hp' : (0 <= idx w x' y' c')%Z) by (unfold idx; nia).
  rewrite !dataSet_lookup_ne_b64 by (auto; try apply Hp; try apply Hd; lia).
  reflexivity.
Qed.

Lemma rowLoop_length_b64 (xs : list Z) (y : Z) (out : list Z) :
  length (B64.rowLoop img xs y out) = length out.
Proof.
  unfold B64.rowLoop. revert out.
  induction xs as [|x l IH]; intros out; simpl; [reflexivity|].
  now rewrite IH, sobelPixel_length_b64.
Qed.

Lemma frameLoop_length_b64 (xs ys : list Z) (out : list Z) :
  length (B64.frameLoop img xs ys out) = length out.
Proof.
  unfold B64.frameLoop. revert out.
  induction ys as [|y l IH]; intros out; simpl; [reflexivity|].
  now rewrite IH, rowLoop_length_b64.
Qed.

Lemma rowLoop_lookup_b64 (xs : list Z) (y x' y' c' : Z) (out : list Z) :
  (forall x, x ∈ xs -> (0 <= x < img_width img)%Z) ->
  (0 <= y < h)%Z -> (0 <= x' < img_width img)%Z -> (0 <= y' < h)%Z ->
  (0 <= c' < 4)%Z ->
  length out = Z.to_nat (4 * img_width img * h) ->
  B64.rowLoop img xs y out !! Z.to_nat (idx (img_width img) x' y' c')
  = if decide (y' = y /\ x' ∈ xs)
    then Some (B64.writtenChannel img x' y' c')
    else out !! Z.to_nat (idx (img_width img) x' y' c').
Proof.
  intros Hl Hy Hx' Hy' Hc'. unfold B64.rowLoop. revert out.
  induction xs as [|x l IH]; intros out Hlen; cbn [fold_left].
  - destruct (decide _) as [[_ Hin]|_]; [|reflexivity].
    now apply not_elem_of_nil in Hin.
  - assert (Hx : (0 <= x < img_width img)%Z) by (apply Hl, elem_of_cons; auto).
    rewrite IH; [| intros; apply Hl, elem_of_cons; auto
                 | now rewrite sobelPixel_length_b64].
    destruct (decide (y' = y /\ x' ∈ l)) as [[-> Hin]|Hnot].
    + rewrite decide_True; [reflexivity|].
      split; [reflexivity | apply elem_of_cons; auto].
    + destruct (decide ((x, y) = (x', y'))) as [Heq|Hne].
      * injection Heq as -> ->.
        rewrite decide_True by (split; [reflexivity | apply elem_of_cons; auto]).
        now apply sobelPixel_lookup_same_b64.
      * rewrite (sobelPixel_lookup_other_b64 x y x' y' c') by (auto; lia).
        rewrite decide_False; [reflexivity|].
        intros [-> Hin]. apply elem_of_cons in Hin as [-> | Hin].
        -- now apply Hne.
        -- apply Hnot. now split.
Qed.

Lemma frameLoop_lookup_b64 (xs ys : list Z) (x' y' c' : Z) (out : list Z) :
  (forall x, x ∈ xs -> (0 <= x < img_width img)%Z) ->
  (forall y, y ∈ ys -> (0 <= y < h)%Z) ->
  (0 <= x' < img_width img)%Z -> (0 <= y' < h)%Z -> (0 <= c' < 4)%Z ->
  length out = Z.to_nat (4 * img_width img * h) ->
  B64.frameLoop img xs ys out !! Z.to_nat (idx (img_width img) x' y' c')
  = if decide (y' ∈ ys /\ x' ∈ xs)
    then Some (B64.writtenChannel img x' y' c')
    else out !! Z.to_nat (idx (img_width img) x' y' c').
Proof.
  intros Hxs Hys Hx' Hy' Hc'. unfold B64.frameLoop. revert out.
  induction ys as [|y l IH]; intros out Hlen; cbn [fold_left].
  - destruct (decide _) as [[Hin _]|_]; [|reflexivity].
    now apply not_elem_of_nil in Hin.
  - assert (Hy : (0 <= y < h)%Z) by (apply Hys, elem_of_cons; auto).
    rewrite IH; [| intros; apply Hys, elem_of_cons; auto
                 | now rewrite rowLoop_length_b64].
    rewrite (rowLoop_lookup_b64 xs y x' y' c' out) by auto.
    destruct (decide (y' ∈ l /\ x' ∈ xs)) as [[Hin Hxin]|Hnot].
    + rewrite decide_True; [reflexivity|].
      split; [apply elem_of_cons; auto | assumption].
    + destruct (decide (y' = y /\ x' ∈ xs)) as [[-> Hxin]|Hnot'].
      * rewrite decide_True; [reflexivity|].
        split; [apply elem_of_cons; auto | assumption].
      * rewrite decide_False; [reflexivity|].
        intros [Hin Hxin]. apply elem_of_cons in Hin as [-> | Hin].
        -- apply Hnot'. now split.
        -- apply Hnot. now split.
Qed.
End FrameB64.

Lemma applyEdgeFilter_loops_b64 (img : ImageData) :
  img_width img <> 0%Z -> img_height img <> 0%Z ->
  B64.applyEdgeFilter img =
    Some (mkImageData (img_width img) (img_height img)
            (B64.frameLoop img (seqZ 1 (img_width img - 1 - 1))
               (seqZ 1 (img_height img - 1 - 1))
               (replicate (Z.to_nat (4 * img_width img * img_height img)) 0%Z))).
Proof.
  intros Hw Hh. unfold B64.applyEdgeFilter, createImageData.
  destruct (Z.eqb_spec (img_width img) 0) as [?|_]; [contradiction|].
  destruct (Z.eqb_spec (img_height img) 0) as [?|_]; [contradiction|].
  reflexivity.
Qed.

Lemma applyEdgeFilter_lookup_b64 (img : ImageData) :
  (0 < img_width img)%Z -> (0 < img_height img)%Z ->
  exists out,
    B64.applyEdgeFilter img = Some out /\
    img_width out = img_width img /\
    img_height out = img_height img /\
    length (img_data out) = Z.to_nat (4 * img_width img * img_height img) /\
    forall x y c,
      (0 <= x < img_width img)%Z -> (0 <= y < img_height img)%Z ->
      (0 <= c < 4)%Z ->
      img_data out !! Z.to_nat (idx (img_width img) x y c)
      = Some (if decide ((1 <= y <= img_height img - 2)%Z /\
                         (1 <= x <= img_width img - 2)%Z)
              then B64.writtenChannel img x y c
              else 0%Z).
Proof.
  intros Hw Hh. eexists. split; [apply applyEdgeFilter_loops_b64; lia|].
  cbn [img_width img_height img_data].
  split; [reflexivity|]. split; [reflexivity|].
  split; [now rewrite frameLoop_length_b64, length_replicate|].
  intros x y c Hx Hy Hc.
  rewrite (frameLoop_lookup_b64 img (img_height img)); auto.
  - pose proof (idx_bounds _ _ x y c Hx Hy Hc) as Hi.
    destruct (decide (y ∈ seqZ 1 (img_height img - 1 - 1) /\
                      x ∈ seqZ 1 (img_width img - 1 - 1))) as [[Hy' Hx']|Hnot].
    + apply elem_of_seqZ in Hy', Hx'.
      rewrite decide_True by lia. reflexivity.
    + rewrite decide_False.
      * apply lookup_replicate_2. lia.
      * intros [Hy' Hx']. apply Hnot. rewrite !elem_of_seqZ. lia.
  - intros x0 H0. apply elem_of_seqZ in H0. lia.
  - intros y0 H0. apply elem_of_seqZ in H0. lia.
  - apply length_replicate.
Qed.

(** ** Edge filter on binary64 numbers: the value of an interior pixel *)

(** The four bytes of a pixel of a well-formed bitmap, and where the
    index function of the filter finds them. *)
Lemma pixelBytes_lookup (img : ImageData) (x y : Z) :
  wfImage img ->
  (0 <= x < img_width img)%Z -> (0 <= y < img_height img)%Z ->
  exists r g b a : Z,
    B64.pixelBytes img x y = [r; g; b; a] /\
    img_data img !! Z.to_nat (idx (img_width img) x y 0) = Some r /\
    img_data img !! Z.to_nat (idx (img_width img) x y 1) = Some g /\
    img_data img !! Z.to_nat (idx (img_width img) x y 2) = Some b /\
    img_data img !! Z.to_nat (idx (img_width img) x y 3) = Some a.
Proof.
  intros (Hw & Hh & Hlen) Hx Hy. unfold B64.pixelBytes.
  set (w := img_width img) in *. set (d := img_data img) in *.
  set (n := Z.to_nat (y * w + x)).
  assert (Hn : (4 * n + 4 <= length d)%nat).
  { rewrite Hlen. unfold n. nia. }
  assert (Hi : forall c, (0 <= c < 4)%Z ->
             Z.to_nat (idx w x y c) = (4 * n + Z.to_nat c)%nat).
  { intros c Hc. unfold idx, n. nia. }
  pose proof (length_drop d (4 * n)) as Hd.
  destruct (drop (4 * n) d) as [|r [|g [|b [|a rest]]]] eqn:E;
    cbn [length] in Hd; try lia.
  exists r, g, b, a. split; [reflexivity|].
  rewrite !Hi by lia.
  rewrite <- !(lookup_drop d (4 * n)), E. repeat split.
Qed.

Lemma elemAt_lookup_b64 (a : list Z) (i v : Z) :
  (0 <= i)%Z -> a !! Z.to_nat i = Some v -> B64.elemAt a i = B64.ofZ v.
Proof.
  intros Hi Hv. unfold B64.elemAt.
  destruct (Z.ltb_spec i 0) as [?|_]; [lia|]. now rewrite Hv.
Qed.

Section ValueB64.
Variable img : ImageData.
Hypothesis img_wf : wfImage img.

(** One turn of the inner loops adds the luminance of the neighbour,
    weighted by entry [k] of each kernel. *)
Lemma sobelTap_in_range_b64 (x y j i k : Z) (sx sy : float) :
  (0 <= x + i < img_width img)%Z -> (0 <= y + j < img_height img)%Z ->
  B64.sobelTap img x y j i (sx, sy, k)
  = (sx + B64.luminance img (x + i) (y + j) * B64.elemAt gx k,
     sy + B64.luminance img (x + i) (y + j) * B64.elemAt gy k,
     (k + 1)%Z).
Proof.
  intros Hx Hy.
  destruct (pixelBytes_lookup img (x + i) (y + j) img_wf Hx Hy)
    as (r & g & b & a & Hp & Hr & Hg & Hb & _).
  unfold B64.sobelTap, B64.luminance. rewrite Hp.
  rewrite (elemAt_lookup_b64 _ _ r), (elemAt_lookup_b64 _ _ g),
    (elemAt_lookup_b64 _ _ b); try assumption; try (unfold idx; nia).
  reflexivity.
Qed.

Lemma sobelSums_interior_b64 (x y : Z) :
  isInterior img x y ->
  B64.sobelSums img x y
  = (B64.convolve3 Gx img x y, B64.convolve3 Gy img x y, 9%Z).
Proof.
  intros [Hx Hy].
  unfold B64.sobelSums, forRange.
  change (seqZ (-1) (2 - -1)) with [-1; 0; 1]%Z.
  cbn [fold_left].
  rewrite !sobelTap_in_range_b64 by lia.
  unfold B64.convolve3, B64.window, B64.weights.
  cbn [flat_map map app combine fold_left fst snd Gx Gy].
  reflexivity.
Qed.

Lemma sobelValue_interior_b64 (x y : Z) :
  isInterior img x y ->
  B64.sobelValue img x y = B64.edgeMagnitude img x y.
Proof.
  intros Hint. unfold B64.sobelValue.
  now rewrite (sobelSums_interior_b64 x y Hint).
Qed.
End ValueB64.

(** C6.  On binary64 numbers and on a frame whose byte array has
    [4 * width * height] entries, the filter succeeds, keeps the
    dimensions, and gives to every interior pixel [(x, y)],
    [1 <= x <= width - 2] and [1 <= y <= height - 2], the four bytes of
    the reference computation: with the luminance
    [0.299 R + 0.587 G + 0.114 B] of the nine neighbours, [sx] and [sy]
    the sums of the luminances weighted by the Sobel kernels [Gx] and
    [Gy], the magnitude [sqrt (sx^2 + sy^2)] clamped to [[0, 255]] and
    stored as a byte in the red, green and blue channels, and 255 in the
    alpha channel.  The pixels of both frames are read as the Canvas API
    lays them out, not through the index function of the filter. *)
Theorem edge_filter_interior_matches_reference_binary64
    (img : ImageData) (x y : Z) :
  wfImage img ->
  isInterior img x y ->
  exists out : ImageData,
    B64.applyEdgeFilter img = Some out /\
    img_width out = img_width img /\
    img_height out = img_height img /\
    B64.pixelBytes out x y = B64.referencePixel img x y.
Proof.
  intros Hwf Hint. pose proof Hint as [Hx Hy].
  pose proof Hwf as (Hw0 & Hh0 & _).
  destruct (applyEdgeFilter_lookup_b64 img)
    as (out & Hout & Hw & Hh & Hlen & Hlook); [lia | lia |].
  exists out. repeat split; try assumption.
  assert (Hwfo : wfImage out).
  { unfold wfImage. rewrite Hw, Hh. repeat split; assumption. }
  destruct (pixelBytes_lookup out x y Hwfo)
    as (r & g & b & a & Hp & Hr & Hg & Hb & Ha); [lia | lia |].
  rewrite Hw in Hr, Hg, Hb, Ha.
  rewrite Hlook in Hr, Hg, Hb, Ha by lia.
  rewrite decide_True in Hr, Hg, Hb, Ha by lia.
  injection Hr as <-. injection Hg as <-. injection Hb as <-. injection Ha as <-.
  rewrite Hp. unfold B64.referencePixel, B64.writtenChannel.
  cbn [Z.ltb Z.compare Pos.compare Pos.compare_cont].
  now rewrite (sobelValue_interior_b64 img Hwf x y Hint).
Qed.

Lemma edge_filter_interior_matches_reference_binary64_witness :
  exists out : ImageData,
    B64.applyEdgeFilter B64.dotFrame = Some out /\
    img_width out = 3%Z /\ img_height out = 3%Z /\
    B64.pixelBytes out 1 1 = B64.referencePixel B64.dotFrame 1 1.
Proof.
  apply (edge_filter_interior_matches_reference_binary64 B64.dotFrame 1 1).
  - repeat split; simpl; lia.
  - split; simpl; lia.
Defined.

(** On [dotFrame] the luminance of the pixel [(2, 1)] is
    [29.749999999999996], the magnitude at the centre is
    [59.499999999999993] and the byte stored there is 59. *)
Example applyEdgeFilter_dotFrame :
  B64.luminance B64.dotFrame 2 1 = 29.749999999999996 /\
  B64.sobelValue B64.dotFrame 1 1 = 59.499999999999993 /\
  B64.referencePixel B64.dotFrame 1 1 = [59; 59; 59; 255]%Z /\
  exists out : ImageData,
    B64.applyEdgeFilter B64.dotFrame = Some out /\
    B64.pixelBytes out 1 1 = [59; 59; 59; 255]%Z /\
    B64.pixelBytes out 2 1 = [0; 0; 0; 0]%Z.
Proof.
  repeat split; try (vm_compute; reflexivity).
  eexists. split; [vm_compute; reflexivity|].
  split; vm_compute; reflexivity.
Qed.
